(** * astro-loader-quarto: metadata normalisation, schema inference, parse cache

    A shallow embedding of the loader's pure core
    ([parsers/metadata-normalizer.ts], [parsers/listing-config.ts],
    [schema/generator.ts], [utils/cache.ts], and stages 6-10 of [loader.ts])
    together with the properties its specification states about them.

    Conventions.
    - JavaScript strings are [string]; file names are taken to be ASCII, a
      code unit above 127 is treated as an ordinary non-word, non-space
      character.
    - A JavaScript object is an insertion-ordered list of (key, value)
      pairs without repeated keys, its own properties, enumerated in
      insertion order. The objects of the program are plain objects:
      reading a property that is not an own property finds the members
      of [Object.prototype] ([constructor], [toString], ...). Keys that
      are array indices, which JavaScript enumerates first, do not
      occur. An assignment under the key [__proto__], which in
      JavaScript sets the prototype and creates no property, is written
      like any other: changes of prototype are not followed.
    - [Array.prototype.sort] is a stable sort; a comparator is expected to
      be consistent, as the language requires for a defined result.
    - [Date] values are their time value in milliseconds ([Z]); numbers are
      restricted to integers. *)

From Stdlib Require Import String Ascii List ZArith Bool Arith Lia.
From Stdlib Require Import Permutation Sorted DecimalString.
Import ListNotations.

Set Warnings "-register-all".

Local Open Scope string_scope.
Local Open Scope list_scope.
Local Open Scope nat_scope.

(** ** Characters and the regular expressions of [generateSlug] *)

Module Chars.

Definition code (c : ascii) : nat := nat_of_ascii c.

Definition between (lo hi : nat) (c : ascii) : bool :=
  (lo <=? code c) && (code c <=? hi).

(** [\d] *)
Definition is_digit : ascii -> bool := between 48 57.
Definition is_upper : ascii -> bool := between 65 90.
Definition is_lower : ascii -> bool := between 97 122.

Definition hyphen : ascii := "-"%char.
Definition slash : ascii := "/"%char.
Definition underscore : ascii := "_"%char.

Definition is_hyphen (c : ascii) : bool := Ascii.eqb c hyphen.
Definition is_slash (c : ascii) : bool := Ascii.eqb c slash.
Definition is_underscore (c : ascii) : bool := Ascii.eqb c underscore.

(** [\w] is [[A-Za-z0-9_]] *)
Definition is_word (c : ascii) : bool :=
  is_upper c || is_lower c || is_digit c || is_underscore c.

(** [\s] on ASCII: TAB, LF, VT, FF, CR, SPACE *)
Definition is_space (c : ascii) : bool :=
  between 9 13 c || (code c =? 32).

(** [String.prototype.toLowerCase] on one ASCII code unit *)
Definition to_lower (c : ascii) : ascii :=
  if is_upper c then ascii_of_nat (code c + 32) else c.

(** the class [[^\w\s-]] *)
Definition is_removed (c : ascii) : bool :=
  negb (is_word c || is_space c || is_hyphen c).

(** the class [[\s_]] *)
Definition is_sep (c : ascii) : bool := is_space c || is_underscore c.

(** what a derived identifier is made of: [[a-z0-9-]] *)
Definition is_slug_char (c : ascii) : bool :=
  is_lower c || is_digit c || is_hyphen c.

End Chars.

(** ** [path.basename] (POSIX flavour) *)

Module Path.
Import Chars.

Fixpoint drop_while (p : ascii -> bool) (l : list ascii) : list ascii :=
  match l with
  | [] => []
  | c :: r => if p c then drop_while p r else l
  end.

Fixpoint take_while (p : ascii -> bool) (l : list ascii) : list ascii :=
  match l with
  | [] => []
  | c :: r => if p c then c :: take_while p r else []
  end.

Definition drop_while_end (p : ascii -> bool) (l : list ascii) : list ascii :=
  rev (drop_while p (rev l)).

(** the last path component, trailing separators ignored *)
Definition last_component (p : list ascii) : list ascii :=
  rev (take_while (fun c => negb (is_slash c)) (drop_while is_slash (rev p))).

Fixpoint list_eqb (a b : list ascii) : bool :=
  match a, b with
  | [], [] => true
  | x :: a', y :: b' => Ascii.eqb x y && list_eqb a' b'
  | _, _ => false
  end.

Fixpoint is_prefix (a b : list ascii) : bool :=
  match a, b with
  | [], _ => true
  | x :: a', y :: b' => Ascii.eqb x y && is_prefix a' b'
  | _ :: _, [] => false
  end.

Definition is_suffix (a b : list ascii) : bool := is_prefix (rev a) (rev b).

(** [basename(path, ext)]: when [ext] is the whole path the result is
    empty; when the last component ends with [ext] and is longer than it
    the extension is cut off; otherwise the component is returned whole. *)
Definition basename_l (p ext : list ascii) : list ascii :=
  if list_eqb p ext then []
  else
    let comp := last_component p in
    if is_suffix ext comp && negb (list_eqb comp ext)
    then firstn (length comp - length ext) comp
    else comp.

Definition basename (p ext : string) : string :=
  string_of_list_ascii
    (basename_l (list_ascii_of_string p) (list_ascii_of_string ext)).

End Path.

(** ** [generateSlug] *)

Module Slug.
Import Chars Path.

(** [s.replace(/^\d{4}-\d{2}-\d{2}-/, '')] *)
Definition strip_date_prefix (l : list ascii) : list ascii :=
  match l with
  | y1 :: y2 :: y3 :: y4 :: h1 :: m1 :: m2 :: h2 :: d1 :: d2 :: h3 :: rest =>
      if is_digit y1 && is_digit y2 && is_digit y3 && is_digit y4
         && is_hyphen h1 && is_digit m1 && is_digit m2
         && is_hyphen h2 && is_digit d1 && is_digit d2 && is_hyphen h3
      then rest else l
  | _ => l
  end.

(** does the string begin with a [YYYY-MM-DD-] prefix? *)
Definition has_date_prefix (l : list ascii) : bool :=
  match l with
  | y1 :: y2 :: y3 :: y4 :: h1 :: m1 :: m2 :: h2 :: d1 :: d2 :: h3 :: _ =>
      is_digit y1 && is_digit y2 && is_digit y3 && is_digit y4
      && is_hyphen h1 && is_digit m1 && is_digit m2
      && is_hyphen h2 && is_digit d1 && is_digit d2 && is_hyphen h3
  | _ => false
  end.

(** [s.replace(/[^\w\s-]/g, '')] *)
Definition remove_special (l : list ascii) : list ascii :=
  filter (fun c => negb (is_removed c)) l.

(** [s.replace(/[\s_]+/g, '-')]: [in_run] tells that the previous
    character already belonged to the run being replaced. *)
Fixpoint collapse_seps (in_run : bool) (l : list ascii) : list ascii :=
  match l with
  | [] => []
  | c :: r =>
      if is_sep c
      then if in_run then collapse_seps true r
           else hyphen :: collapse_seps true r
      else c :: collapse_seps false r
  end.

(** [s.replace(/^-+|-+$/g, '')] *)
Definition trim_hyphens (l : list ascii) : list ascii :=
  drop_while_end is_hyphen (drop_while is_hyphen l).

(** the chain applied to the file name once the extension is gone *)
Definition slug_of_filename (filename : list ascii) : list ascii :=
  trim_hyphens
    (collapse_seps false
       (remove_special (map to_lower (strip_date_prefix filename)))).

(** The shape of a derived identifier: made of [[a-z0-9-]], neither
    starting nor ending with a hyphen. *)
Definition head_ok (l : list ascii) : bool :=
  match l with [] => true | c :: _ => negb (is_hyphen c) end.

Definition is_slug (l : list ascii) : bool :=
  forallb is_slug_char l && head_ok l && head_ok (rev l).

Definition qmd_ext : string := ".qmd".

(** The file-name branch of [generateSlug]. *)
Definition slug_from_path (filePath : string) : string :=
  string_of_list_ascii
    (slug_of_filename
       (list_ascii_of_string (basename filePath qmd_ext))).

End Slug.

(** ** JavaScript values and insertion-ordered maps *)

Module JS.

(** The values a metadata map can hold. *)
Inductive value : Type :=
| VUndefined
| VNull
| VBool (b : bool)
| VNum (n : Z)
| VStr (s : string)
| VDate (t : Z)
| VArr (items : list value)
| VObj (fields : list (string * value))
| VInherited (name : string).
(** [VInherited name] is what reading the member [name] of
    [Object.prototype] returns: a built-in function or, for [__proto__],
    [Object.prototype] itself. *)

(** [v === undefined] *)
Definition is_undefined (v : value) : bool :=
  match v with VUndefined => true | _ => false end.

(** ToBoolean *)
Definition truthy (v : value) : bool :=
  match v with
  | VUndefined | VNull => false
  | VBool b => b
  | VNum n => negb (Z.eqb n 0)
  | VStr s => negb (String.eqb s "")
  | VDate _ | VArr _ | VObj _ | VInherited _ => true
  end.

(** The own property names of [Object.prototype]. *)
Definition object_prototype_names : list string :=
  [ "constructor"; "__defineGetter__"; "__defineSetter__"; "hasOwnProperty";
    "__lookupGetter__"; "__lookupSetter__"; "isPrototypeOf";
    "propertyIsEnumerable"; "toString"; "valueOf"; "__proto__";
    "toLocaleString" ].

(** Does a plain object inherit a member of that name? *)
Definition inherited (k : string) : bool :=
  existsb (String.eqb k) object_prototype_names.

(** [String(member)], which is also the property key an inherited member
    stands for when it is used as one: the source text of a built-in
    function, [[object Object]] for [Object.prototype]. *)
Definition inherited_text (name : string) : string :=
  if String.eqb name "__proto__" then "[object Object]"
  else if String.eqb name "constructor"
       then "function Object() { [native code] }"
       else "function " ++ name ++ "() { [native code] }".

(** An object or a [Map]: keys in insertion order, no key twice. *)
Definition omap (A : Type) : Type := list (string * A).

Section OMap.
Context {A : Type}.

Fixpoint lookup (m : omap A) (k : string) : option A :=
  match m with
  | [] => None
  | (k', v) :: r => if String.eqb k' k then Some v else lookup r k
  end.

Definition has (m : omap A) (k : string) : bool :=
  match lookup m k with Some _ => true | None => false end.

(** [m[k] = v] / [Map.prototype.set]: an existing key keeps its place,
    a new key goes last. *)
Fixpoint set (m : omap A) (k : string) (v : A) : omap A :=
  match m with
  | [] => [(k, v)]
  | (k', v') :: r =>
      if String.eqb k' k then (k, v) :: r else (k', v') :: set r k v
  end.

(** [delete m[k]] / [Map.prototype.delete] *)
Fixpoint remove (m : omap A) (k : string) : omap A :=
  match m with
  | [] => []
  | (k', v') :: r =>
      if String.eqb k' k then r else (k', v') :: remove r k
  end.

Definition keys (m : omap A) : list string := map fst m.

(** [m.keys().next().value] *)
Definition first_key (m : omap A) : option string :=
  match m with [] => None | (k, _) :: _ => Some k end.

Definition wf (m : omap A) : Prop := NoDup (keys m).

(** Writing a list of bindings one after the other. *)
Definition write_all (acc : omap A) (l : list (string * A)) : omap A :=
  fold_left (fun a kv => set a (fst kv) (snd kv)) l acc.
End OMap.

Definition object : Type := omap value.

(** [o[k]] on a plain object: an own property, else the member
    inherited under that name, else [undefined]. *)
Definition get (o : object) (k : string) : value :=
  match lookup o k with
  | Some v => v
  | None => if inherited k then VInherited k else VUndefined
  end.

End JS.

(** ** Errors ([utils/errors.ts]) and results *)

(** The fields of [FieldMappingConflictError] are given as the message
    shows them. *)
Inductive error : Type :=
| FieldMappingConflictError
    (quartoField mappedField existingField filePath : string)
| QmdParseError (message filePath : string)
| TypeError (message : string).

Inductive Result (A : Type) : Type :=
| Ok (a : A)
| Err (e : error).
Arguments Ok {A} a.
Arguments Err {A} e.

Definition bind {A B : Type} (r : Result A) (f : A -> Result B) : Result B :=
  match r with Ok a => f a | Err e => Err e end.

Notation "x <- r ;; k" := (bind r (fun x => k))
  (at level 61, r at next level, right associativity).

(** ** Field mapper and metadata normaliser ([parsers/metadata-normalizer.ts]) *)

Module Normalizer.
Import JS.

Definition FieldMappings : Type := omap string.

(** [DEFAULT_FIELD_MAPPINGS] ([types/loader-config.ts]) *)
Definition DEFAULT_FIELD_MAPPINGS : FieldMappings :=
  [ ("title", "title"); ("description", "description");
    ("author", "author"); ("date", "pubDate");
    ("date-modified", "updatedDate"); ("image", "heroImage");
    ("categories", "categories"); ("tags", "tags"); ("draft", "draft") ].

(** [const mappedKey = mappings[key]] and the guard
    [mappedKey && mappedKey !== key]: the property key a key is renamed
    to, if any. An own entry renames unless it is empty or the key
    itself. Without an own entry the table, a plain object, yields the
    member it inherits under that name, if there is one: it is truthy and
    not the key, and as a property key it stands for its text. *)
Definition rename_target (mappings : FieldMappings) (key : string)
  : option string :=
  match lookup mappings key with
  | Some mappedKey =>
      if negb (String.eqb mappedKey "") && negb (String.eqb mappedKey key)
      then Some mappedKey else None
  | None => if inherited key then Some (inherited_text key) else None
  end.

(** The name a key is written under in the result. *)
Definition final_name (mappings : FieldMappings) (key : string) : string :=
  match rename_target mappings key with
  | Some mappedKey => mappedKey
  | None => key
  end.

(** The body of the [for ... of Object.entries(metadata)] loop, with
    [result] the object built so far. (The set [appliedMappings] the
    source fills alongside is never read.) *)
Fixpoint applyFieldMappings_loop
  (metadata : object) (mappings : FieldMappings) (filePath : string)
  (entries : list (string * value)) (result : object) : Result object :=
  match entries with
  | [] => Ok result
  | (key, value) :: rest =>
      match rename_target mappings key with
      | Some mappedKey =>
          if negb (is_undefined (get metadata mappedKey))
          then Err (FieldMappingConflictError key mappedKey mappedKey filePath)
          else applyFieldMappings_loop metadata mappings filePath rest
                 (set result mappedKey value)
      | None =>
          applyFieldMappings_loop metadata mappings filePath rest
            (set result key value)
      end
  end.

Definition applyFieldMappings
  (metadata : object) (mappings : FieldMappings) (filePath : string)
  : Result object :=
  applyFieldMappings_loop metadata mappings filePath metadata [].

(** [{ ...a, ...b }] *)
Definition spread {A : Type} (a b : omap A) : omap A := write_all a b.

Definition mergeFieldMappings (custom : option FieldMappings)
  : FieldMappings :=
  match custom with
  | None => DEFAULT_FIELD_MAPPINGS
  | Some c => spread DEFAULT_FIELD_MAPPINGS c
  end.

Definition inheritListingDefaults (metadata defaults : object) : object :=
  fold_left
    (fun result kv =>
       if is_undefined (get result (fst kv))
       then set result (fst kv) (snd kv) else result)
    defaults metadata.

(** [generateSlug]: a caller's [slugify] is used when a truthy title is
    there, otherwise the identifier comes from the file name. *)
Definition generateSlug
  (filePath : string) (title : value) (slugify : option (value -> string))
  : string :=
  match slugify with
  | Some f => if truthy title then f title else Slug.slug_from_path filePath
  | None => Slug.slug_from_path filePath
  end.

Record NormalizationOptions : Type := {
  basePath : string;
  outputDir : string;
  fieldMappings : FieldMappings;
  slugify : option (value -> string);
  imageResolver : option (value -> string -> value)
}.

Record NormalizedEntry : Type := {
  id : string;
  slug : string;
  data : object
}.

Definition starts_with (s pre : string) : bool := String.prefix pre s.

Section WithNodePath.
(** [dirname] and [join] of Node's [path] module. *)
Variable dirname : string -> string.
Variable join : string -> string -> string.

(** [resolveImagePath]; calling [startsWith] on a value that is not a
    string throws. *)
Definition resolveImagePath
  (imagePath : value) (qmdPath : string) (options : NormalizationOptions)
  : Result value :=
  if negb (truthy imagePath) then Ok VUndefined
  else
    match imageResolver options with
    | Some resolver => Ok (resolver imagePath qmdPath)
    | None =>
        match imagePath with
        | VStr p =>
            if starts_with p "http://" || starts_with p "https://"
            then Ok imagePath
            else if negb (starts_with p "/")
                 then Ok (VStr (join (dirname qmdPath) p))
                 else Ok imagePath
        | _ => Err (TypeError "imagePath.startsWith is not a function")
        end
    end.

Definition normalizeMetadata
  (raw : object) (filePath : string) (options : NormalizationOptions)
  (listingDefaults : option object) : Result NormalizedEntry :=
  (* 1. inherit listing defaults *)
  let metadata0 :=
    match listingDefaults with
    | Some d => inheritListingDefaults raw d
    | None => raw
    end in
  (* 2. apply field mappings *)
  metadata1 <- applyFieldMappings metadata0 (fieldMappings options) filePath ;;
  (* 3. resolve the (mapped) image field *)
  let imageFieldName :=
    match lookup (fieldMappings options) "image" with
    | Some n => if String.eqb n "" then "image" else n
    | None => "image"
    end in
  metadata2 <-
    (if truthy (get metadata1 imageFieldName)
     then
       img <- resolveImagePath (get metadata1 imageFieldName) filePath options ;;
       Ok (set metadata1 imageFieldName img)
     else Ok metadata1) ;;
  (* 4. id and slug *)
  let id := generateSlug filePath (get metadata2 "title") (slugify options) in
  let slug := id in
  (* 5. draft defaults to false *)
  let metadata3 :=
    if is_undefined (get metadata2 "draft")
    then set metadata2 "draft" (VBool false) else metadata2 in
  Ok {| id := id; slug := slug; data := metadata3 |}.
End WithNodePath.

End Normalizer.

(** ** Listing definitions ([types/quarto.ts]) *)

Module Quarto.

(** [sort?: string | string[]] *)
Inductive SortConfig : Type :=
| SortOne (s : string)
| SortMany (l : list string).

(** The part of a listing definition the loader reads. *)
Record QuartoListing : Type := {
  listing_id : string;
  listing_sort : option SortConfig;
  field_required : option (list string)
}.

End Quarto.

(** ** Schema inference ([schema/common-fields.ts], [schema/generator.ts]) *)

Module Schema.
Import JS Quarto.

(** The Zod type descriptors the generator builds, and what it takes for
    one where a table of descriptors is read under a name it only
    inherits: [ZInherited name], the member [name] of [Object.prototype],
    which is no descriptor. *)
Inductive zod : Type :=
| ZString
| ZNumber
| ZBoolean
| ZDate
| ZUnknown
| ZNever
| ZArray (element : zod)
| ZRecord (valueType : zod)
| ZUnion (options : list zod)
| ZOptional (inner : zod)
| ZDefault (inner : zod) (defaultValue : value)
| ZInherited (name : string).

(** [_def?.typeName]; [NoTypeName] where [_def] is undefined. *)
Inductive typeName : Type :=
| ZodString | ZodNumber | ZodBoolean | ZodDate | ZodUnknown | ZodNever
| ZodArray | ZodRecord | ZodUnion | ZodOptional | ZodDefault | NoTypeName.

Definition typeName_of (t : zod) : typeName :=
  match t with
  | ZString => ZodString
  | ZNumber => ZodNumber
  | ZBoolean => ZodBoolean
  | ZDate => ZodDate
  | ZUnknown => ZodUnknown
  | ZNever => ZodNever
  | ZArray _ => ZodArray
  | ZRecord _ => ZodRecord
  | ZUnion _ => ZodUnion
  | ZOptional _ => ZodOptional
  | ZDefault _ _ => ZodDefault
  | ZInherited _ => NoTypeName
  end.

Definition typeName_eqb (a b : typeName) : bool :=
  match a, b with
  | ZodString, ZodString | ZodNumber, ZodNumber | ZodBoolean, ZodBoolean
  | ZodDate, ZodDate | ZodUnknown, ZodUnknown | ZodNever, ZodNever
  | ZodArray, ZodArray | ZodRecord, ZodRecord | ZodUnion, ZodUnion
  | ZodOptional, ZodOptional | ZodDefault, ZodDefault
  | NoTypeName, NoTypeName => true
  | _, _ => false
  end.


(** [commonFields] *)
Definition commonFields : omap zod :=
  [ ("title", ZString);
    ("description", ZOptional ZString);
    ("author", ZOptional (ZUnion [ZString; ZArray ZString]));
    ("pubDate", ZDate);
    ("updatedDate", ZOptional ZDate);
    ("heroImage", ZOptional ZString);
    ("categories", ZOptional (ZArray ZString));
    ("tags", ZOptional (ZArray ZString));
    ("draft", ZDefault ZBoolean (VBool false)) ].

(** [table[fieldName]] on a plain object of descriptors: an own entry,
    else the member inherited under that name, else [undefined]. *)
Definition descriptor_at (table : omap zod) (fieldName : string)
  : option zod :=
  match lookup table fieldName with
  | Some t => Some t
  | None => if inherited fieldName then Some (ZInherited fieldName) else None
  end.

Definition getFieldSchema (fieldName : string) : option zod :=
  descriptor_at commonFields fieldName.

Fixpoint inferTypeFromValue (v : value) : zod :=
  match v with
  | VNull | VUndefined => ZUnknown
  | VDate _ => ZDate
  | VStr _ => ZString
  | VNum _ => ZNumber
  | VBool _ => ZBoolean
  | VArr [] => ZArray ZUnknown
  | VArr (first :: _) => ZArray (inferTypeFromValue first)
  | VObj _ => ZRecord ZUnknown
  | VInherited name =>
      if String.eqb name "__proto__" then ZRecord ZUnknown else ZUnknown
  end.

Definition inferFieldType (fieldName : string) (values : list value) : zod :=
  match getFieldSchema fieldName with
  | Some commonSchema => commonSchema
  | None =>
      let definedValues := filter (fun v => negb (is_undefined v)) values in
      match definedValues with
      | [] => ZOptional ZUnknown
      | v0 :: _ =>
          let baseType := inferTypeFromValue v0 in
          let allSameType :=
            forallb
              (fun v => typeName_eqb (typeName_of (inferTypeFromValue v))
                          (typeName_of baseType))
              definedValues in
          if negb allSameType then ZOptional ZUnknown
          else if length definedValues <? length values
               then ZOptional baseType
               else baseType
      end
  end.

Record SchemaOptions : Type := {
  requiredFields : option (list string);
  customFields : option (omap zod)
}.

Inductive UnknownKeys : Type := Strip | Strict | Passthrough.

Record ZodObject : Type := {
  shape : omap zod;
  unknownKeys : UnknownKeys;
  catchall : zod
}.

(** [z.object(shape)] *)
Definition z_object (fields : omap zod) : ZodObject :=
  {| shape := fields; unknownKeys := Strip; catchall := ZNever |}.

(** [Set.prototype.add] on an insertion-ordered set of names *)
Definition set_add (s : list string) (k : string) : list string :=
  if existsb (String.eqb k) s then s else s ++ [k].

Definition allFieldNames (documents : list object) : list string :=
  fold_left (fun acc doc => fold_left set_add (keys doc) acc) documents [].

(** One turn of the loop over [allFieldNames]; [fieldName in
    options.customFields] holds for an own entry and for an inherited
    member alike; marking a field as required re-assigns the descriptor
    to itself. *)
Definition schema_for_field
  (documents : list object) (options : SchemaOptions) (fieldName : string)
  : zod :=
  let values := map (fun doc => get doc fieldName) documents in
  match customFields options with
  | Some custom =>
      match descriptor_at custom fieldName with
      | Some t => t
      | None => inferFieldType fieldName values
      end
  | None => inferFieldType fieldName values
  end.

Definition ensure_minimum (schemaFields : omap zod) : omap zod :=
  let s1 :=
    if has schemaFields "title" then schemaFields
    else set schemaFields "title" ZString in
  if negb (has s1 "pubDate") && negb (has s1 "date")
  then set s1 "pubDate" ZDate else s1.

Definition generateSchema
  (documents : list object) (_listing : QuartoListing)
  (options : SchemaOptions) : ZodObject :=
  let schemaFields :=
    fold_left
      (fun acc fieldName =>
         set acc fieldName (schema_for_field documents options fieldName))
      (allFieldNames documents) [] in
  z_object (ensure_minimum schemaFields).

(** [ZodObject.merge]: the merging schema's fields are spread over the
    base's, its unknown-key policy and catch-all are taken over. *)
Definition merge (base merging : ZodObject) : ZodObject :=
  {| shape := Normalizer.spread (shape base) (shape merging);
     unknownKeys := unknownKeys merging;
     catchall := catchall merging |}.

(** What a caller can put in [SchemaConfig] once types are erased: a
    schema object, or some other value, on which reading
    [_def.unknownKeys] throws a [TypeError] with the given message. *)
Inductive SchemaValue : Type :=
| IsObject (s : ZodObject)
| NotSchema (message : string).

Definition merge_value (base : ZodObject) (merging : SchemaValue)
  : Result ZodObject :=
  match merging with
  | IsObject s => Ok (merge base s)
  | NotSchema message => Err (TypeError message)
  end.

Record SchemaConfig : Type := {
  extend : option SchemaValue;
  override : option SchemaValue
}.

Definition error_message (e : error) : string :=
  match e with
  | FieldMappingConflictError quartoField mappedField _ filePath =>
      "Field mapping conflict in " ++ filePath ++ ": Cannot map '"
      ++ quartoField ++ "' to '" ++ mappedField ++ "' because '"
      ++ mappedField ++ "' already exists in the source data. "
      ++ "Please choose a different mapping or remove the conflicting field."
  | QmdParseError message filePath =>
      "Failed to parse " ++ filePath ++ ": " ++ message
  | TypeError message => message
  end%string.

(** [applySchemaConfig]; [logger] tells whether a logger was passed, the
    second component lists the warnings it received. *)
Definition applySchemaConfig
  (baseSchema : ZodObject) (config : option SchemaConfig) (logger : bool)
  : SchemaValue * list string :=
  match config with
  | None => (IsObject baseSchema, [])
  | Some cfg =>
      match override cfg with
      | Some o => (o, [])
      | None =>
          match extend cfg with
          | Some e =>
              match merge_value baseSchema e with
              | Ok merged => (IsObject merged, [])
              | Err error =>
                  (IsObject baseSchema,
                   if logger
                   then [("Schema merge conflict: " ++ error_message error
                          ++ ". Using base schema.")%string]
                   else [])
              end
          | None => (IsObject baseSchema, [])
          end
      end
  end.

Definition createListingSchema
  (listing : QuartoListing) (documents : list object)
  (userConfig : option SchemaConfig) (logger : bool)
  : SchemaValue * list string :=
  let requiredFields :=
    match field_required listing with Some l => l | None => [] end in
  let generatedSchema :=
    generateSchema documents listing
      {| requiredFields := Some requiredFields; customFields := None |} in
  applySchemaConfig generatedSchema userConfig logger.

End Schema.

(** ** Sorting ([applySortConfiguration] in [parsers/listing-config.ts]) *)

Module Sorting.
Import JS Quarto.

(** [T extends Record<string, unknown>]: anything whose properties can be
    read by name. *)
Class Indexable (T : Type) : Type := prop : T -> string -> value.

#[export] Instance object_indexable : Indexable object := get.

(** A normalised entry is the object [{ id, slug, data }]. *)
#[export] Instance entry_indexable : Indexable Normalizer.NormalizedEntry :=
  fun e k =>
    if String.eqb k "id" then VStr (Normalizer.id e)
    else if String.eqb k "slug" then VStr (Normalizer.slug e)
    else if String.eqb k "data" then VObj (Normalizer.data e)
    else if inherited k then VInherited k
    else VUndefined.

(** [s.split(sep)] for a one-character separator *)
Fixpoint split_on (sep : ascii) (s : string) : list string :=
  match s with
  | EmptyString => [EmptyString]
  | String c r =>
      if Ascii.eqb c sep then EmptyString :: split_on sep r
      else match split_on sep r with
           | h :: t => String c h :: t
           | [] => [String c EmptyString]
           end
  end.

Definition toLowerCase (s : string) : string :=
  string_of_list_ascii (map Chars.to_lower (list_ascii_of_string s)).

(** [const [field, direction] = sortField.split(" ")] and
    [direction?.toLowerCase() === "desc"] *)
Definition sort_field (sortField : string) : string :=
  hd EmptyString (split_on " "%char sortField).

Definition sort_desc (sortField : string) : bool :=
  match nth_error (split_on " "%char sortField) 1 with
  | Some direction => String.eqb (toLowerCase direction) "desc"
  | None => false
  end.

(** Stable insertion sort: [x] stood before every element of [l] and
    moves behind those it compares strictly greater than. For a
    consistent comparator this is the order [Array.prototype.sort]
    returns. *)
Section StableSort.
Context {T : Type}.
Variable cmp : T -> T -> Z.

Fixpoint insert (x : T) (l : list T) : list T :=
  match l with
  | [] => [x]
  | y :: r => if (0 <? cmp x y)%Z then y :: insert x r else x :: l
  end.

Definition stable_sort (l : list T) : list T := fold_right insert [] l.
End StableSort.

Section Comparator.
(** [String.prototype.localeCompare] *)
Variable localeCompare : string -> string -> Z.
Context {T : Type} `{Indexable T}.

Definition compare_values (aVal bVal : value) : Z :=
  match aVal, bVal with
  | VDate a, VDate b => (a - b)%Z
  | VStr a, VStr b => localeCompare a b
  | VNum a, VNum b => (a - b)%Z
  | _, _ => 0%Z
  end.

(** The comparator passed to [sort]. *)
Fixpoint compare_entries (sorts : list string) (a b : T) : Z :=
  match sorts with
  | [] => 0%Z
  | sortField :: rest =>
      let field := sort_field sortField in
      let desc := sort_desc sortField in
      let aVal := prop a field in
      let bVal := prop b field in
      if is_undefined aVal && is_undefined bVal
      then compare_entries rest a b
      else if is_undefined aVal then 1%Z
      else if is_undefined bVal then (-1)%Z
      else
        let comparison := compare_values aVal bVal in
        if negb (comparison =? 0)%Z
        then if desc then (- comparison)%Z else comparison
        else compare_entries rest a b
  end.

Definition applySortConfiguration
  (entries : list T) (sortConfig : option SortConfig) : list T :=
  match sortConfig with
  | None => entries
  | Some (SortOne s) =>
      if String.eqb s "" then entries
      else stable_sort (compare_entries [s]) entries
  | Some (SortMany sorts) => stable_sort (compare_entries sorts) entries
  end.
End Comparator.

End Sorting.

(** ** Parse cache ([utils/cache.ts]) *)

Module Cache.
Import JS.

(** What [fs.stat] reports about a file. *)
Record Stats : Type := { mtimeMs : Z; stat_size : Z }.

(** The file system as the cache sees it: the stats of the files that
    can be stat'd. *)
Definition FileSystem : Type := string -> option Stats.

(** [await stat(path)]; [None] stands for a rejected promise. Node
    rejects the empty path. *)
Definition stat (fs : FileSystem) (path : string) : option Stats :=
  if String.eqb path "" then None else fs path.

Section WithData.
Context {T : Type}.

Record CacheEntry : Type := { data : T; mtime : Z; size : Z }.

Record FileCache : Type := {
  cache : omap CacheEntry;
  maxSize : Z
}.

Definition new_FileCache (maxSize : Z) : FileCache :=
  {| cache := []; maxSize := maxSize |}.

Definition with_cache (c : FileCache) (m : omap CacheEntry) : FileCache :=
  {| cache := m; maxSize := maxSize c |}.

(** [get], after [await stat(path)] has settled: [entry] is the entry
    read before the suspension. *)
Definition get_resume
  (c : FileCache) (path : string) (entry : CacheEntry)
  (stats : option Stats) : option T * FileCache :=
  match stats with
  | Some st =>
      if (mtimeMs st =? mtime entry)%Z && (stat_size st =? size entry)%Z
      then (Some (data entry),
            with_cache c (set (remove (cache c) path) path entry))
      else (None, with_cache c (remove (cache c) path))
  | None => (None, with_cache c (remove (cache c) path))
  end.

Definition get (c : FileCache) (fs : FileSystem) (path : string)
  : option T * FileCache :=
  match lookup (cache c) path with
  | None => (None, c)
  | Some entry => get_resume c path entry (stat fs path)
  end.

(** [if (this.cache.size >= this.maxSize)]: drop the first key, unless
    there is none or it is falsy. *)
Definition evict_oldest (c : FileCache) : omap CacheEntry :=
  if (maxSize c <=? Z.of_nat (length (cache c)))%Z
  then match first_key (cache c) with
       | Some firstKey =>
           if String.eqb firstKey "" then cache c
           else remove (cache c) firstKey
       | None => cache c
       end
  else cache c.

(** [set], after [await stat(path)] has settled. *)
Definition set_resume
  (c : FileCache) (path : string) (d : T) (stats : option Stats)
  : FileCache :=
  match stats with
  | Some st =>
      with_cache c
        (set (evict_oldest c) path
           {| data := d; mtime := mtimeMs st; size := stat_size st |})
  | None => c
  end.

Definition set_entry (c : FileCache) (fs : FileSystem) (path : string)
  (d : T) : FileCache :=
  set_resume c path d (stat fs path).

Definition invalidate (c : FileCache) (path : string) : FileCache :=
  with_cache c (remove (cache c) path).

Definition clear (c : FileCache) : FileCache := with_cache c [].

Definition cache_size (c : FileCache) : Z := Z.of_nat (length (cache c)).

(** The operations of a cache, for talking about sequences of calls;
    each call sees the file system as it is at that moment. *)
Inductive op : Type :=
| OpGet (fs : FileSystem) (path : string)
| OpSet (fs : FileSystem) (path : string) (d : T)
| OpInvalidate (path : string)
| OpClear.

Definition run_op (c : FileCache) (o : op) : FileCache :=
  match o with
  | OpGet fs path => snd (get c fs path)
  | OpSet fs path d => set_entry c fs path d
  | OpInvalidate path => invalidate c path
  | OpClear => clear c
  end.

Definition run_ops (c : FileCache) (ops : list op) : FileCache :=
  fold_left run_op ops c.
(** The bound the eviction step maintains: a cache that only goes through
    whole operations never holds more than [max(maxSize, 1)] entries. *)
Definition within_bound (c : FileCache) : Prop :=
  wf (cache c) /\ ~ In "" (keys (cache c))
  /\ (cache_size c <= Z.max (maxSize c) 1)%Z.
End WithData.

Arguments CacheEntry T : clear implicits.
Arguments FileCache T : clear implicits.
Arguments op T : clear implicits.

End Cache.

(** ** Vocabulary for the statements about the field mapper *)

Module MapperSpec.
Import JS Normalizer.

(** Does renaming [key] collide with a defined property of the source? *)
Definition conflictb (metadata : object) (mappings : FieldMappings)
  (key : string) : bool :=
  match rename_target mappings key with
  | Some mappedKey => negb (is_undefined (get metadata mappedKey))
  | None => false
  end.

(** The bindings of the source under their final names, in order. *)
Definition renamed (metadata : object) (mappings : FieldMappings)
  : list (string * value) :=
  map (fun kv => (final_name mappings (fst kv), snd kv)) metadata.





End MapperSpec.

(** ** Vocabulary for the statements about schema inference *)

Module SchemaSpec.
Import JS Quarto Schema.




(** The schema the loader infers for a listing's entries. *)
Definition inferred (documents : list object) (listing : QuartoListing)
  : ZodObject :=
  generateSchema documents listing
    {| requiredFields := Some match field_required listing with
                              | Some l => l
                              | None => []
                              end;
       customFields := None |}.


End SchemaSpec.

(** ** Stages 6 to 10 of the loader ([loader.ts]) *)

Module Pipeline.
Import JS Quarto Normalizer Cache Sorting.

(** [ReturnType<typeof extractMetadata>] *)
Definition Metadata : Type := object.

(** What [parseFile] resolves to. *)
Definition ParsedFile : Type := (string * Metadata)%type.

(** The part of [QuartoLoaderConfig] stages 6 to 10 read. The hooks are
    pure: their result depends on the data they are given and on nothing
    else. *)
Record LoaderConfig : Type := {
  cacheEnabled : bool;
  parallelEnabled : bool;
  customMappings : option FieldMappings;
  assetsImageResolver : option (value -> string -> value);
  filter : option (object -> bool);
  transform : option (object -> object)
}.

Section WithEnvironment.
(** Node's [path.dirname] and [path.join], [String.prototype.localeCompare]. *)
Variable dirname : string -> string.
Variable join : string -> string -> string.
Variable localeCompare : string -> string -> Z.
(** The files as they are during the load: what [stat] reports, and what
    [parseQmdFile] followed by [extractMetadata] yields. *)
Variable fs : FileSystem.
Variable readMetadata : string -> Result Metadata.
Variable config : LoaderConfig.
Variables quartoRoot outputPath : string.

(** *** Stage 6: parsing, one file at a time *)

(** [parseFile] run without interruption. *)
Definition parseFile (c : FileCache Metadata) (filePath : string)
  : Result ParsedFile * FileCache Metadata :=
  if cacheEnabled config then
    match get c fs filePath with
    | (Some cached, c1) => (Ok (filePath, cached), c1)
    | (None, c1) =>
        match readMetadata filePath with
        | Ok metadata =>
            (Ok (filePath, metadata), set_entry c1 fs filePath metadata)
        | Err e => (Err e, c1)
        end
    end
  else
    match readMetadata filePath with
    | Ok metadata => (Ok (filePath, metadata), c)
    | Err e => (Err e, c)
    end.

(** The [reduce] over the files: each [parseFile] starts when the one
    before has settled, a rejection ends the chain. *)
Fixpoint parse_sequential (c : FileCache Metadata) (files : list string)
  : Result (list ParsedFile) * FileCache Metadata :=
  match files with
  | [] => (Ok [], c)
  | file :: rest =>
      match parseFile c file with
      | (Ok parsed, c1) =>
          match parse_sequential c1 rest with
          | (Ok results, c2) => (Ok (parsed :: results), c2)
          | (Err e, c2) => (Err e, c2)
          end
      | (Err e, c1) => (Err e, c1)
      end
  end.

(** *** Stage 6: parsing, all files at once

    [Promise.all(files.map(parseFile))] starts every [parseFile] before
    any of them resumes: each runs up to its first suspension, which for a
    path found in the cache is [await stat(path)] inside [get], with the
    entry already read. From there on the pending operations complete in
    an order the program does not control. *)

Inductive task : Type :=
| AwaitGetStat (filePath : string) (entry : CacheEntry Metadata)
| AwaitRead (filePath : string)
| AwaitSetStat (filePath : string) (metadata : Metadata)
| Done (filePath : string) (metadata : Metadata)
| Failed (e : error).

(** [parseFile] up to its first suspension. *)
Definition spawn (c : FileCache Metadata) (filePath : string) : task :=
  if cacheEnabled config then
    match lookup (cache c) filePath with
    | Some entry => AwaitGetStat filePath entry
    | None => AwaitRead filePath
    end
  else AwaitRead filePath.

(** A suspended [parseFile] resumes and runs to its next suspension. *)
Definition resume (c : FileCache Metadata) (t : task)
  : task * FileCache Metadata :=
  match t with
  | AwaitGetStat filePath entry =>
      match get_resume c filePath entry (stat fs filePath) with
      | (Some cached, c1) => (Done filePath cached, c1)
      | (None, c1) => (AwaitRead filePath, c1)
      end
  | AwaitRead filePath =>
      match readMetadata filePath with
      | Ok metadata =>
          if cacheEnabled config then (AwaitSetStat filePath metadata, c)
          else (Done filePath metadata, c)
      | Err e => (Failed e, c)
      end
  | AwaitSetStat filePath metadata =>
      (Done filePath metadata, set_resume c filePath metadata (stat fs filePath))
  | Done _ _ | Failed _ => (t, c)
  end.

(** The tasks, the cache they share, and the first rejection so far. *)
Record par_state : Type := {
  tasks : list task;
  shared : FileCache Metadata;
  rejected : option error
}.

Fixpoint replace_nth (i : nat) (t : task) (l : list task) : list task :=
  match l, i with
  | [], _ => []
  | _ :: r, O => t :: r
  | x :: r, S j => x :: replace_nth j t r
  end.

Definition note_rejection (t : task) (r : option error) : option error :=
  match r, t with
  | None, Failed e => Some e
  | _, _ => r
  end.

(** A task resumes; if it fails and no task failed before,
    [Promise.all] rejects with its error. *)
Definition resume_noting
  (t : task) (c : FileCache Metadata) (r : option error)
  : task * FileCache Metadata * option error :=
  let (t', c') := resume c t in
  (t', c', match t with
           | Failed _ => r
           | _ => note_rejection t' r
           end).

(** The pending operation of task [i] completes. *)
Definition resume_nth (s : par_state) (i : nat) : par_state :=
  match nth_error (tasks s) i with
  | Some t =>
      let '(t', c', r') := resume_noting t (shared s) (rejected s) in
      {| tasks := replace_nth i t' (tasks s); shared := c'; rejected := r' |}
  | None => s
  end.

(** A schedule names, step after step, the task that resumes next. *)
Definition run_schedule (schedule : list nat) (s : par_state) : par_state :=
  fold_left resume_nth schedule s.

(** Once the schedule is used up, what is still pending completes in file
    order: every task settles after at most three resumptions. *)
Fixpoint settle (ts : list task) (c : FileCache Metadata) (r : option error)
  : list task * FileCache Metadata * option error :=
  match ts with
  | [] => ([], c, r)
  | t :: rest =>
      let '(t1, c1, r1) := resume_noting t c r in
      let '(t2, c2, r2) := resume_noting t1 c1 r1 in
      let '(t3, c3, r3) := resume_noting t2 c2 r2 in
      let '(rest', c', r') := settle rest c3 r3 in
      (t3 :: rest', c', r')
  end.

Definition settle_all (s : par_state) : par_state :=
  let '(ts, c, r) := settle (tasks s) (shared s) (rejected s) in
  {| tasks := ts; shared := c; rejected := r |}.

Fixpoint collect (ts : list task) : list ParsedFile :=
  match ts with
  | Done filePath metadata :: r => (filePath, metadata) :: collect r
  | _ :: r => collect r
  | [] => []
  end.

Definition parse_parallel
  (schedule : list nat) (c : FileCache Metadata) (files : list string)
  : Result (list ParsedFile) * FileCache Metadata :=
  let s0 := {| tasks := map (spawn c) files; shared := c; rejected := None |} in
  let s := settle_all (run_schedule schedule s0) in
  match rejected s with
  | Some e => (Err e, shared s)
  | None => (Ok (collect (tasks s)), shared s)
  end.

(** Where a task ends up, whatever happens around it. *)
Definition after_read (filePath : string) : task :=
  match readMetadata filePath with
  | Ok metadata => Done filePath metadata
  | Err e => Failed e
  end.

Definition final_task (t : task) : task :=
  match t with
  | AwaitGetStat filePath entry =>
      match stat fs filePath with
      | Some st =>
          if (mtimeMs st =? mtime entry)%Z && (stat_size st =? size entry)%Z
          then Done filePath (Cache.data entry)
          else after_read filePath
      | None => after_read filePath
      end
  | AwaitRead filePath => after_read filePath
  | AwaitSetStat filePath metadata => Done filePath metadata
  | Done _ _ | Failed _ => t
  end.

Definition is_failed (t : task) : bool :=
  match t with Failed _ => true | _ => false end.

Definition any_failed (ts : list task) : bool := existsb is_failed ts.

(** Reading every file afresh, in order. *)
Fixpoint read_all (files : list string) : Result (list ParsedFile) :=
  match files with
  | [] => Ok []
  | file :: rest =>
      metadata <- readMetadata file ;;
      results <- read_all rest ;;
      Ok ((file, metadata) :: results)
  end.

(** *** Stage 7: normalisation *)

Definition options : NormalizationOptions :=
  {| basePath := quartoRoot;
     outputDir := outputPath;
     fieldMappings := mergeFieldMappings (customMappings config);
     slugify := None;
     imageResolver := assetsImageResolver config |}.

Fixpoint normalize_all (defaults : object) (parsedFiles : list ParsedFile)
  : Result (list NormalizedEntry) :=
  match parsedFiles with
  | [] => Ok []
  | (filePath, metadata) :: rest =>
      entry <- normalizeMetadata dirname join metadata filePath options
                 (Some defaults) ;;
      entries <- normalize_all defaults rest ;;
      Ok (entry :: entries)
  end.

(** *** Stage 8: the filter hook *)

Definition filter_parallel (keep : object -> bool)
  (normalizedEntries : list NormalizedEntry) : list NormalizedEntry :=
  let filterResults := map (fun entry => (entry, keep (Normalizer.data entry)))
                         normalizedEntries in
  map fst (List.filter snd filterResults).

Definition filter_sequential (keep : object -> bool)
  (normalizedEntries : list NormalizedEntry) : list NormalizedEntry :=
  fold_left (fun kept entry =>
               if keep (Normalizer.data entry) then kept ++ [entry] else kept)
    normalizedEntries [].

Definition apply_filter (normalizedEntries : list NormalizedEntry)
  : list NormalizedEntry :=
  match filter config with
  | Some keep =>
      if parallelEnabled config
      then filter_parallel keep normalizedEntries
      else filter_sequential keep normalizedEntries
  | None => normalizedEntries
  end.

(** *** Stage 9: the transform hook *)

(** [{ ...entry, data: d }] *)
Definition with_data (entry : NormalizedEntry) (d : object) : NormalizedEntry :=
  {| id := id entry; slug := slug entry; Normalizer.data := d |}.

Definition transform_parallel (f : object -> object)
  (filteredEntries : list NormalizedEntry) : list NormalizedEntry :=
  map (fun entry => with_data entry (f (Normalizer.data entry))) filteredEntries.

Definition transform_sequential (f : object -> object)
  (filteredEntries : list NormalizedEntry) : list NormalizedEntry :=
  fold_left (fun transformed entry =>
               transformed ++ [with_data entry (f (Normalizer.data entry))])
    filteredEntries [].

Definition apply_transform (filteredEntries : list NormalizedEntry)
  : list NormalizedEntry :=
  match transform config with
  | Some f =>
      if parallelEnabled config
      then transform_parallel f filteredEntries
      else transform_sequential f filteredEntries
  | None => filteredEntries
  end.

(** *** Stages 6 to 10 for one listing *)

Definition parse_stage
  (schedule : list nat) (c : FileCache Metadata) (files : list string)
  : Result (list ParsedFile) * FileCache Metadata :=
  if parallelEnabled config
  then parse_parallel schedule c files
  else parse_sequential c files.

(** Stages 6 to 9: the entries that survive parsing, normalisation, the
    filter and the transform. *)
Definition transformed_entries
  (schedule : list nat) (c : FileCache Metadata)
  (files : list string) (defaults : object)
  : Result (list NormalizedEntry) :=
  parsedFiles <- fst (parse_stage schedule c files) ;;
  normalizedEntries <- normalize_all defaults parsedFiles ;;
  Ok (apply_transform (apply_filter normalizedEntries)).

(** Stage 10 on top: the order in which the entries reach the store. *)
Definition sorted_entries
  (schedule : list nat) (c : FileCache Metadata)
  (listing : QuartoListing) (files : list string) (defaults : object)
  : Result (list NormalizedEntry) :=
  transformedEntries <- transformed_entries schedule c files defaults ;;
  Ok (applySortConfiguration localeCompare transformedEntries
        (listing_sort listing)).

End WithEnvironment.

(** The same configuration with the [parallel] flag set or cleared. *)
Definition set_parallel (config : LoaderConfig) (parallel : bool)
  : LoaderConfig :=
  {| cacheEnabled := cacheEnabled config;
     parallelEnabled := parallel;
     customMappings := customMappings config;
     assetsImageResolver := assetsImageResolver config;
     filter := filter config;
     transform := transform config |}.

(** The cache agrees with the files: an entry whose tag matches what
    [stat] reports for its path holds what parsing that file yields. *)
Definition coherent
  (fs : FileSystem) (readMetadata : string -> Result Metadata)
  (c : FileCache Metadata) : Prop :=
  forall path entry st,
    In (path, entry) (cache c) ->
    stat fs path = Some st ->
    mtimeMs st = mtime entry -> stat_size st = size entry ->
    readMetadata path = Ok (Cache.data entry).

Definition is_some {A : Type} (o : option A) : bool :=
  match o with Some _ => true | None => false end.

(** What the caller sees of a load: the entries, or that the load failed. *)
Definition result_set {A : Type} (r : Result A) : option A :=
  match r with Ok a => Some a | Err _ => None end.

End Pipeline.

(** ** The sort scenario of the specification, as a load

    Three posts dated 2025-01-01, 2025-03-01 and undated, in a listing
    sorted by ["date desc"], loaded with the default configuration. *)

Module SortScenario.
Import JS Quarto Normalizer Cache Sorting Pipeline.

(** 2025-01-01 and 2025-03-01, midnight UTC, in milliseconds *)
Definition jan1 : Z := 1735689600000.
Definition mar1 : Z := 1740787200000.

Definition post_a : Metadata := [("title", VStr "A"); ("date", VDate jan1)].
Definition post_b : Metadata := [("title", VStr "B"); ("date", VDate mar1)].
Definition post_c : Metadata := [("title", VStr "C")].

Definition files : list string :=
  ["/q/posts/a.qmd"; "/q/posts/b.qmd"; "/q/posts/c.qmd"].

Definition readMetadata (filePath : string) : Result Metadata :=
  if String.eqb filePath "/q/posts/a.qmd" then Ok post_a
  else if String.eqb filePath "/q/posts/b.qmd" then Ok post_b
  else if String.eqb filePath "/q/posts/c.qmd" then Ok post_c
  else Err (QmdParseError "File not found" filePath).

Definition fs : FileSystem :=
  fun _ => Some {| mtimeMs := 1764000000000; stat_size := 120 |}.

Definition listing : QuartoListing :=
  {| listing_id := "posts";
     listing_sort := Some (SortOne "date desc");
     field_required := None |}.

Definition config (parallel : bool) : LoaderConfig :=
  {| cacheEnabled := true;
     parallelEnabled := parallel;
     customMappings := None;
     assetsImageResolver := None;
     filter := None;
     transform := None |}.

(** The ids of the entries in the order stage 10 leaves them in. *)
Definition loaded_order (parallel : bool) (schedule : list nat)
  : option (list string) :=
  option_map (map id)
    (result_set
       (sorted_entries (fun p => p) (fun a b => (a ++ "/" ++ b)%string)
          (fun _ _ => 0%Z) fs readMetadata (config parallel) "/q" "/q/_site"
          schedule (new_FileCache 500) listing files [])).

End SortScenario.

(** ** Vocabulary for the statements about sorting by a date field *)

Module SortSpec.
Import JS Sorting.

Section Keyed.
Context {T : Type} `{Indexable T}.
Variable field : string.

(** The entry's value on the field is a date or is missing. *)
Definition dated (e : T) : bool :=
  match prop e field with
  | VDate _ | VUndefined => true
  | _ => false
  end.

Definition date_key (e : T) : option Z :=
  match prop e field with
  | VDate t => Some t
  | _ => None
  end.

(** [a] may stand before [b]: later dates first, missing dates last. *)
Definition latest_first (a b : T) : Prop :=
  match date_key a, date_key b with
  | Some x, Some y => (y <= x)%Z
  | Some _, None => True
  | None, Some _ => False
  | None, None => True
  end.
End Keyed.

End SortSpec.

(** ** A full cache holding one outdated entry

    The cache holds its 500 entries; the oldest belongs to [b.qmd] and
    was stored before the file was rewritten without a change of
    modification time or size. The listing consists of [a.qmd], not yet
    cached, and [b.qmd]. *)

Module StaleCacheScenario.
Import JS Quarto Normalizer Cache Pipeline.

Definition stats : Stats := {| mtimeMs := 1764000000000; stat_size := 120 |}.

Definition fs : FileSystem := fun _ => Some stats.

Definition readMetadata (filePath : string) : Result Metadata :=
  if String.eqb filePath "/q/posts/a.qmd" then Ok [("title", VStr "A")]
  else if String.eqb filePath "/q/posts/b.qmd"
       then Ok [("title", VStr "B, second edition")]
       else Err (QmdParseError "File not found" filePath).

Definition entry_of (metadata : Metadata) : CacheEntry Metadata :=
  {| Cache.data := metadata;
     mtime := mtimeMs stats;
     size := stat_size stats |}.

Definition other_file (n : nat) : string :=
  ("/q/notes/" ++ NilEmpty.string_of_uint (Nat.to_uint n) ++ ".qmd")%string.

Definition full_cache : FileCache Metadata :=
  {| cache :=
       ("/q/posts/b.qmd", entry_of [("title", VStr "B, first edition")])
       :: map (fun n => (other_file n, entry_of [("title", VStr "note")]))
            (seq 1 499);
     maxSize := 500 |}.

Definition files : list string := ["/q/posts/a.qmd"; "/q/posts/b.qmd"].

Definition config : LoaderConfig :=
  {| cacheEnabled := true;
     parallelEnabled := true;
     customMappings := None;
     assetsImageResolver := None;
     filter := None;
     transform := None |}.

(** The titles of the entries after stages 6 to 9. *)
Definition loaded_titles (parallel : bool) (schedule : list nat)
  : option (list value) :=
  option_map (map (fun entry => JS.get (Normalizer.data entry) "title"))
    (result_set
       (transformed_entries (fun p => p) (fun a b => (a ++ "/" ++ b)%string)
          fs readMetadata (set_parallel config parallel) "/q" "/q/_site"
          schedule full_cache files [])).

End StaleCacheScenario.

(** ** Vocabulary for further statements about normalisation *)

Module NormalizerSpec.
Import JS Normalizer.

(** [options.fieldMappings['image'] || 'image'] *)
Definition image_field_name (options : NormalizationOptions) : string :=
  match lookup (fieldMappings options) "image" with
  | Some n => if String.eqb n "" then "image" else n
  | None => "image"
  end.

(** The metadata after step 1 of [normalizeMetadata]. *)
Definition with_defaults (raw : object) (listingDefaults : option object) : object :=
  match listingDefaults with
  | Some d => inheritListingDefaults raw d
  | None => raw
  end.

Definition is_string (v : value) : bool :=
  match v with VStr _ => true | _ => false end.

(** The image value is one [resolveImagePath] can handle. *)
Definition image_resolvable (options : NormalizationOptions) (image : value)
  : bool :=
  negb (truthy image) || is_string image
  || match imageResolver options with Some _ => true | None => false end.

End NormalizerSpec.

(** ** Front matter ([parsers/qmd-frontmatter.ts]) *)

Module Frontmatter.
Import JS.

(** [String.prototype.trim] on ASCII *)
Definition trim (s : string) : string :=
  string_of_list_ascii
    (Path.drop_while_end Chars.is_space
       (Path.drop_while Chars.is_space (list_ascii_of_string s))).

(** [if (test(metadata[k])) metadata[k] = f(metadata[k])] *)
Definition update_if (test : value -> bool) (f : value -> value)
  (k : string) (metadata : object) : object :=
  if test (get metadata k) then set metadata k (f (get metadata k))
  else metadata.

Definition defined (v : value) : bool := negb (is_undefined v).

Section WithConversions.
(** The time value of [new Date(s)], [None] when it is [NaN]. *)
Variable parseDate : string -> option Z.
(** [String(v)] *)
Variable toStr : value -> string.

Definition normalizeDate (date : value) : value :=
  match date with
  | VDate _ => date
  | VStr s =>
      match parseDate s with
      | Some t => VDate t
      | None => date
      end
  | _ => date
  end.

Definition normalizeAuthor (author : value) : value :=
  match author with
  | VStr _ => author
  | VArr items => VArr (map (fun a => VStr (toStr a)) items)
  | _ => VStr (toStr author)
  end.

Definition normalizeArray (v : value) : list string :=
  match v with
  | VArr items => map toStr items
  | VStr s =>
      List.filter (fun x => negb (String.eqb x ""))
        (map trim (Sorting.split_on ","%char s))
  | _ => [toStr v]
  end.

Definition string_array (l : list string) : value := VArr (map VStr l).

Definition extractMetadata (frontmatter : object) : object :=
  (* copy all fields *)
  let metadata := write_all [] frontmatter in
  (* normalise specific fields *)
  let metadata := update_if truthy normalizeDate "date" metadata in
  let metadata := update_if truthy normalizeDate "date-modified" metadata in
  let metadata := update_if defined normalizeAuthor "author" metadata in
  let metadata :=
    update_if defined (fun v => string_array (normalizeArray v))
      "categories" metadata in
  let metadata :=
    update_if defined (fun v => string_array (normalizeArray v))
      "tags" metadata in
  update_if defined (fun v => VBool (truthy v)) "draft" metadata.

End WithConversions.

(** An array all of whose elements are strings. *)
Definition is_string_array (v : value) : bool :=
  match v with
  | VArr items => forallb NormalizerSpec.is_string items
  | _ => false
  end.

(** The fields [extractMetadata] rewrites. *)
Definition normalized_fields : list string :=
  ["date"; "date-modified"; "author"; "categories"; "tags"; "draft"].

End Frontmatter.

(** ** Listing files and defaults ([parsers/listing-config.ts]) *)

Module Listing.
Import JS.

(** The fields a listing can give a default for. *)
Definition defaultFields : list string :=
  ["author"; "categories"; "date-format"; "image"; "image-height"].

(** [extractListingDefaults]; the listing is the object read from
    [_quarto.yml]. *)
Definition extractListingDefaults (listing : object) : object :=
  fold_left
    (fun defaults field =>
       if has listing field && negb (is_undefined (get listing field))
       then set defaults field (get listing field) else defaults)
    defaultFields [].

(** [contents: string | string[]] *)
Inductive Contents : Type :=
| OnePattern (pattern : string)
| ManyPatterns (patterns : list string).

(** [pattern.replace(/^\//, "")] *)
Definition strip_leading_slash (pattern : string) : string :=
  match pattern with
  | String c rest => if Ascii.eqb c "/"%char then rest else pattern
  | EmptyString => pattern
  end.

Section WithGlob.
(** [path.join] *)
Variable join : string -> string -> string.
(** [fg(searchPath, { cwd, absolute: true, onlyFiles: true })], the files
    a pattern matches, as found on disk *)
Variable glob : string -> string -> list string.

(** The files of all patterns, one pattern after the other. *)
Definition matched_files (contents : Contents) (basePath : string)
  : list string :=
  let patterns :=
    match contents with
    | ManyPatterns l => l
    | OnePattern s => [s]
    end in
  flat_map
    (fun pattern =>
       glob (join basePath (strip_leading_slash pattern)) basePath)
    patterns.

(** [resolveListingFiles]: [[...new Set(allFiles)]] keeps the first
    occurrence of every file. *)
Definition resolveListingFiles (contents : Contents) (basePath : string)
  : list string :=
  fold_left Schema.set_add (matched_files contents basePath) [].
End WithGlob.

End Listing.

(** ** The project configuration ([parsers/quarto-yaml.ts]) *)

Module QuartoYaml.
Import JS.

(** What the functions of this module throw: a [QuartoConfigError], or
    the engine's [TypeError] for a property read on [null]. *)
Inductive config_error : Type :=
| QuartoConfigError (message : string)
| EngineTypeError.

(** Reading property [k] of a value: [null] and [undefined] have no
    properties to read; of the properties read here a string, a number, a
    boolean, an array or a date has none. *)
Definition member (v : value) (k : string) : option value :=
  match v with
  | VUndefined | VNull => None
  | VObj fields => Some (get fields k)
  | _ => Some VUndefined
  end.

(** A text between double quotes. *)
Definition quoted (s : string) : string :=
  (String (ascii_of_nat 34) s ++ String (ascii_of_nat 34) EmptyString)%string.

Definition index_string (n : nat) : string :=
  NilEmpty.string_of_uint (Nat.to_uint n).

(** [config.listing], as one list: nothing, the single listing, or the
    listings of the array. *)
Definition raw_listings (config : object) : list value :=
  if negb (truthy (get config "listing")) then []
  else match get config "listing" with
       | VArr items => items
       | single => [single]
       end.

Section WithString.
(** [String(v)], as a template literal applies it *)
Variable toStr : value -> string.

(** The callback of [listings.map] in [extractListings]. *)
Definition check_listing (listing : value) (index : nat)
  : config_error + value :=
  match member listing "id", member listing "contents" with
  | Some id, Some contents =>
      if negb (truthy id)
      then inl (QuartoConfigError
                  ("Listing at index " ++ index_string index
                   ++ " is missing required 'id' field"))
      else if negb (truthy contents)
           then inl (QuartoConfigError
                       ("Listing '" ++ toStr id
                        ++ "' is missing required 'contents' field"))
           else inr listing
  | _, _ => inl EngineTypeError
  end.

Fixpoint check_all (listings : list value) (index : nat)
  : config_error + list value :=
  match listings with
  | [] => inr []
  | listing :: rest =>
      match check_listing listing index with
      | inl e => inl e
      | inr l =>
          match check_all rest (S index) with
          | inl e => inl e
          | inr ls => inr (l :: ls)
          end
      end
  end.

Definition extractListings (config : object) : config_error + list value :=
  check_all (raw_listings config) 0.

(** [l.id === listingId] *)
Definition has_id (listingId : string) (listing : value) : bool :=
  match member listing "id" with
  | Some (VStr s) => String.eqb s listingId
  | _ => false
  end.

Definition findListing (config : object) (listingId : string)
  : config_error + option value :=
  match extractListings config with
  | inl e => inl e
  | inr listings => inr (List.find (has_id listingId) listings)
  end.

Definition listing_id (listing : value) : value :=
  match member listing "id" with Some id => id | None => VUndefined end.

Definition getListingIds (config : object) : config_error + list value :=
  match extractListings config with
  | inl e => inl e
  | inr listings => inr (map listing_id listings)
  end.

(** [config.project?.['output-dir'] || '_site'] *)
Definition getOutputDir (config : object) : value :=
  let dir :=
    match member (get config "project") "output-dir" with
    | Some v => v
    | None => VUndefined
    end in
  if truthy dir then dir else VStr "_site".

(** ['gfm' in projectFormat], for a truthy value whose [typeof] is
    ["object"] *)
Definition has_gfm_key (projectFormat : value) : option bool :=
  match projectFormat with
  | VObj fields => Some (has fields "gfm")
  | VArr _ | VDate _ => Some false
  | VInherited name => if String.eqb name "__proto__" then Some false else None
  | _ => None
  end.

(** [validateQuartoFormat]: the warnings the logger receives; [logger]
    tells whether one was passed. *)
Definition validateQuartoFormat (config : object) (logger : bool)
  : list string :=
  let projectFormat := get config "format" in
  if negb (truthy projectFormat) then
    if logger
    then [("No format specified in _quarto.yml. For Astro compatibility, add "
           ++ quoted "format: gfm" ++ " to your Quarto configuration.")%string]
    else []
  else
    let formatValue : option string :=
      match projectFormat with
      | VStr s => Some s
      | _ => match has_gfm_key projectFormat with
             | Some true => Some "gfm"
             | _ => None
             end
      end in
    let is_gfm :=
      match formatValue with
      | Some s => String.eqb s "gfm"
      | None => false
      end in
    if negb is_gfm && logger
    then [("Quarto format is '" ++ toStr projectFormat
           ++ "' but 'gfm' is recommended for Astro compatibility. "
           ++ "Add " ++ quoted "format: gfm"
           ++ " to _quarto.yml or individual documents.")%string]
    else [].
End WithString.

Definition isGfmFormatConfigured (config : object) : bool :=
  let projectFormat := get config "format" in
  if negb (truthy projectFormat) then false
  else match projectFormat with
       | VStr s => String.eqb s "gfm"
       | _ => match has_gfm_key projectFormat with
              | Some b => b
              | None => false
              end
       end.

End QuartoYaml.

(** ** Which listings a load processes ([loader.ts], step 3) *)

Module Selection.
Import JS QuartoYaml.

(** [listings?: string | string[] | 'all'] *)
Inductive ListingsOption : Type :=
| ListingsString (s : string)
| ListingsArray (ids : list string).

Inductive load_error : Type :=
| ConfigFailure (e : config_error)
| ListingNotFoundError (listingId : string) (availableListings : list value).

Section WithString.
Variable toStr : value -> string.

(** The [for] loop over the requested ids. *)
Fixpoint find_each (config : object) (allListings : list value)
  (ids : list string) : load_error + list value :=
  match ids with
  | [] => inr []
  | listingId :: rest =>
      match findListing toStr config listingId with
      | inl e => inl (ConfigFailure e)
      | inr None =>
          inl (ListingNotFoundError listingId (map listing_id allListings))
      | inr (Some listing) =>
          match find_each config allListings rest with
          | inl e => inl e
          | inr ls => inr (listing :: ls)
          end
      end
  end.

Definition listingsToLoad (config : object) (listings : option ListingsOption)
  : load_error + list value :=
  match extractListings toStr config with
  | inl e => inl (ConfigFailure e)
  | inr allListings =>
      match listings with
      | None => inr allListings
      | Some (ListingsString s) =>
          if String.eqb s "" then inr allListings
          else if String.eqb s "all" then inr allListings
          else find_each config allListings [s]
      | Some (ListingsArray ids) => find_each config allListings ids
      end
  end.
End WithString.

End Selection.


(** Vocabulary for statements about the configuration and the selection. *)
Module SelectionSpec.
Import JS QuartoYaml Selection.

(** A listing [extractListings] accepts: truthy [id] and [contents]. *)
Definition valid_listing (listing : value) : bool :=
  match member listing "id", member listing "contents" with
  | Some id, Some contents => truthy id && truthy contents
  | _, _ => false
  end.

(** The ids a [listings] option asks for; [None] stands for every
    listing of the project. *)
Definition requested_ids (listings : option ListingsOption)
  : option (list string) :=
  match listings with
  | None => None
  | Some (ListingsString s) =>
      if String.eqb s "" then None
      else if String.eqb s "all" then None
      else Some [s]
  | Some (ListingsArray ids) => Some ids
  end.

(** A project with three listings: two share the id [posts], one has a
    number for id. *)
Definition sample_config : object :=
  [("listing",
    VArr [VObj [("id", VStr "posts"); ("contents", VStr "posts/*.qmd")];
          VObj [("id", VNum 2024); ("contents", VStr "2024/*.qmd")];
          VObj [("id", VStr "posts"); ("contents", VStr "old/*.qmd")]])].

End SelectionSpec.

(** ** Vocabulary for sorting by one date or number field *)

Module SortOrderSpec.
Import JS Sorting.

Section Keyed.
Context {T : Type} `{Indexable T}.
Variable field : string.
(** [numeric]: the field holds numbers; otherwise it holds dates. *)
Variable numeric : bool.



End Keyed.

End SortOrderSpec.

(** ** Auto-rendering ([utils/quarto-renderer.ts] and step 0 of the load)

    The argument arrays are objects with an identity: the array a caller
    puts in its configuration is the one [renderQuarto] pushes to. They
    live in a heap, addressed by location. *)

Module Renderer.
Import JS.

Definition loc : Type := nat.
Definition heap : Type := list (list value).

Definition read (h : heap) (l : loc) : list value := nth l h [].

(** A fresh array literal. *)
Definition alloc (h : heap) (items : list value) : loc * heap :=
  (length h, h ++ [items]).

(** [array.push(...items)] *)
Fixpoint push (h : heap) (l : loc) (items : list value) : heap :=
  match h, l with
  | [], _ => []
  | a :: r, O => (a ++ items) :: r
  | a :: r, S l' => a :: push r l' items
  end.

(** [QuartoRenderOptions]; a missing [args] is [None], the other missing
    properties read as [undefined]. *)
Record QuartoRenderOptions : Type := {
  enabled : value;
  command : value;
  args : option loc;
  format : value
}.

(** [autoRender?: boolean | QuartoRenderOptions] *)
Inductive AutoRender : Type :=
| AutoUndefined
| AutoBool (b : bool)
| AutoOptions (o : QuartoRenderOptions).

(** [a || b] *)
Definition or_else (a b : value) : value := if truthy a then a else b.

Definition normalizeAutoRenderConfig (autoRender : AutoRender) (h : heap)
  : QuartoRenderOptions * heap :=
  match autoRender with
  | AutoUndefined | AutoBool false =>
      ({| enabled := VBool false; command := VUndefined;
          args := None; format := VUndefined |}, h)
  | AutoBool true =>
      let (l, h') := alloc h [VStr "render"] in
      ({| enabled := VBool true; command := VStr "quarto";
          args := Some l; format := VStr "gfm" |}, h')
  | AutoOptions o =>
      let (l, h') :=
        match args o with
        | Some l => (l, h)
        | None => alloc h [VStr "render"]
        end in
      ({| enabled := enabled o;
          command := or_else (command o) (VStr "quarto");
          args := Some l;
          format := or_else (format o) (VStr "gfm") |}, h')
  end.

(** What a call of [renderQuarto] comes to: nothing, the error for a
    missing command, or the process it spawned with its exit code. *)
Inductive render_outcome : Type :=
| Skipped
| NotInstalled (command : value)
| Spawned (command : value) (argv : list value) (code : Z).

Section WithSystem.
(** [checkQuartoInstalled], and the exit code of a spawned process. *)
Variable installed : value -> bool.
Variable exit_code : value -> list value -> Z.

Definition renderQuarto (options : QuartoRenderOptions) (h : heap)
  : render_outcome * heap :=
  if negb (truthy (enabled options)) then (Skipped, h)
  else
    let command := or_else (command options) (VStr "quarto") in
    if negb (installed command) then (NotInstalled command, h)
    else
      let (l, h1) :=
        match args options with
        | Some l => (l, h)
        | None => alloc h [VStr "render"]
        end in
      let h2 :=
        if truthy (format options)
        then push h1 l [VStr "--to"; format options]
        else h1 in
      (Spawned command (read h2 l) (exit_code command (read h2 l)), h2).

(** Step 0 of [load]. *)
Definition auto_render (autoRender : AutoRender) (h : heap)
  : render_outcome * heap :=
  let (renderOptions, h1) := normalizeAutoRenderConfig autoRender h in
  if truthy (enabled renderOptions)
  then renderQuarto renderOptions h1
  else (Skipped, h1).

(** The heap after [n] loads with the same configuration. *)
Fixpoint after_loads (n : nat) (autoRender : AutoRender) (h : heap) : heap :=
  match n with
  | O => h
  | S n' => after_loads n' autoRender (snd (auto_render autoRender h))
  end.
End WithSystem.

(** [n] times the pair [--to], [format]. *)
Fixpoint format_flags (n : nat) (fmt : value) : list value :=
  match n with
  | O => []
  | S n' => VStr "--to" :: fmt :: format_flags n' fmt
  end.

End Renderer.
(** * Properties *)

Example slug_example_plain :
  Slug.slug_from_path "/path/to/my-post.qmd" = "my-post".
Proof. reflexivity. Qed.

Example slug_example_special :
  Slug.slug_from_path "/path/to/My Cool Post!.qmd" = "my-cool-post".
Proof. reflexivity. Qed.

Example slug_example_c7 :
  Slug.slug_from_path "2025-11-24-My Cool Post!.qmd" = "my-cool-post".
Proof. reflexivity. Qed.

Example mapper_example_default :
  Normalizer.applyFieldMappings
    [("date", JS.VDate 5); ("image", JS.VStr "cover.jpg"); ("x", JS.VNull)]
    Normalizer.DEFAULT_FIELD_MAPPINGS "test.qmd"
  = Ok [("pubDate", JS.VDate 5); ("heroImage", JS.VStr "cover.jpg"); ("x", JS.VNull)].
Proof. reflexivity. Qed.

Example mapper_example_conflict :
  Normalizer.applyFieldMappings
    [("date", JS.VDate 5); ("pubDate", JS.VDate 6)]
    Normalizer.DEFAULT_FIELD_MAPPINGS "test.qmd"
  = Err (FieldMappingConflictError "date" "pubDate" "pubDate" "test.qmd").
Proof. reflexivity. Qed.

(** A key the table only inherits a member for is renamed to that
    member's text; a target the source only inherits a member for is
    occupied. *)
Example mapper_example_inherited_key :
  Normalizer.applyFieldMappings
    [("constructor", JS.VNum 1)] Normalizer.DEFAULT_FIELD_MAPPINGS "test.qmd"
  = Ok [("function Object() { [native code] }", JS.VNum 1)].
Proof. reflexivity. Qed.

Example mapper_example_inherited_target :
  Normalizer.applyFieldMappings
    [("a", JS.VNum 1)] [("a", "toString")] "test.qmd"
  = Err (FieldMappingConflictError "a" "toString" "toString" "test.qmd").
Proof. reflexivity. Qed.

Example schema_example_inherited_name :
  Schema.inferFieldType "constructor" [JS.VNum 1; JS.VInherited "constructor"]
  = Schema.ZInherited "constructor".
Proof. reflexivity. Qed.

(** ** Facts about insertion-ordered maps *)

Section OMapFacts.
Import JS.
Context {A : Type}.
Implicit Types (m : omap A) (k : string) (v : A).

Lemma lookup_none_not_in m k : lookup m k = None <-> ~ In k (keys m).
Proof.
  induction m as [|[k' v'] m IH]; simpl.
  - tauto.
  - destruct (String.eqb_spec k' k) as [->|Hne].
    + split; [discriminate | intros H; exfalso; apply H; now left].
    + rewrite IH. split; [intros H [E|I]; [congruence | tauto] | tauto].
Qed.

Lemma lookup_some_in m k v : lookup m k = Some v -> In k (keys m).
Proof.
  intros H. destruct (in_dec string_dec k (keys m)) as [I|N]; [exact I|].
  apply lookup_none_not_in in N. congruence.
Qed.

Lemma set_fresh m k v : ~ In k (keys m) -> set m k v = m ++ [(k, v)].
Proof.
  induction m as [|[k' v'] m IH]; simpl; intros N; [reflexivity|].
  destruct (String.eqb_spec k' k) as [->|Hne]; [tauto|].
  now rewrite IH by tauto.
Qed.

Lemma lookup_set_same m k v : lookup (set m k v) k = Some v.
Proof.
  induction m as [|[k' v'] m IH]; simpl.
  - now rewrite String.eqb_refl.
  - destruct (String.eqb_spec k' k) as [->|Hne]; simpl.
    + now rewrite String.eqb_refl.
    + destruct (String.eqb_spec k' k); [congruence | exact IH].
Qed.

Lemma lookup_set_other m k k' v :
  k <> k' -> lookup (set m k v) k' = lookup m k'.
Proof.
  intros Hne. induction m as [|[k0 v0] m IH]; simpl.
  - destruct (String.eqb_spec k k'); [congruence | reflexivity].
  - destruct (String.eqb_spec k0 k) as [->|Hne0]; simpl.
    + destruct (String.eqb_spec k k'); [congruence | reflexivity].
    + destruct (String.eqb_spec k0 k'); [reflexivity | exact IH].
Qed.

Lemma keys_set m k v :
  keys (set m k v) = if has m k then keys m else keys m ++ [k].
Proof.
  unfold has. induction m as [|[k0 v0] m IH]; simpl; [reflexivity|].
  destruct (String.eqb_spec k0 k) as [->|Hne]; simpl; [reflexivity|].
  rewrite IH. now destruct (lookup m k).
Qed.

Lemma length_set m k v :
  length (set m k v) = if has m k then length m else S (length m).
Proof.
  unfold has. induction m as [|[k0 v0] m IH]; simpl; [reflexivity|].
  destruct (String.eqb_spec k0 k) as [->|Hne]; simpl; [reflexivity|].
  rewrite IH. now destruct (lookup m k).
Qed.

Lemma length_remove m k :
  length (remove m k) = if has m k then pred (length m) else length m.
Proof.
  unfold has. induction m as [|[k0 v0] m IH]; simpl; [reflexivity|].
  destruct (String.eqb_spec k0 k) as [->|Hne]; simpl; [reflexivity|].
  rewrite IH. destruct (lookup m k) eqn:E; [|reflexivity].
  destruct m; [discriminate | reflexivity].
Qed.

Lemma keys_remove_incl m k k' : In k' (keys (remove m k)) -> In k' (keys m).
Proof.
  induction m as [|[k0 v0] m IH]; simpl; [tauto|].
  destruct (String.eqb_spec k0 k); simpl; tauto.
Qed.

Lemma wf_remove m k : wf m -> wf (remove m k).
Proof.
  unfold wf. induction m as [|[k0 v0] m IH]; simpl; intros W; [constructor|].
  inversion W as [|? ? N W']; subst.
  destruct (String.eqb_spec k0 k); [exact W'|].
  simpl. constructor; [|now apply IH].
  intros I. apply N. eapply keys_remove_incl; eauto.
Qed.

Lemma lookup_remove_same m k : wf m -> lookup (remove m k) k = None.
Proof.
  unfold wf. induction m as [|[k0 v0] m IH]; simpl; intros W; [reflexivity|].
  inversion W as [|? ? N W']; subst.
  destruct (String.eqb_spec k0 k) as [->|Hne]; simpl.
  - now apply lookup_none_not_in.
  - destruct (String.eqb_spec k0 k); [congruence | now apply IH].
Qed.

Lemma lookup_remove_other m k k' :
  k <> k' -> lookup (remove m k) k' = lookup m k'.
Proof.
  intros Hne. induction m as [|[k0 v0] m IH]; simpl; [reflexivity|].
  destruct (String.eqb_spec k0 k) as [->|Hne0]; simpl.
  - destruct (String.eqb_spec k k'); [congruence | reflexivity].
  - destruct (String.eqb_spec k0 k'); [reflexivity | exact IH].
Qed.

Lemma wf_set m k v : wf m -> wf (set m k v).
Proof.
  unfold wf. intros W. rewrite keys_set. unfold has.
  destruct (lookup m k) eqn:E; [exact W|].
  apply lookup_none_not_in in E.
  apply NoDup_app; [exact W | repeat constructor; simpl; tauto |].
  intros x I [<-|[]]. tauto.
Qed.

Lemma write_all_nodup (l : omap A) : forall acc : omap A,
  NoDup (keys (acc ++ l)) -> write_all acc l = acc ++ l.
Proof.
  unfold write_all.
  induction l as [|[k v] l IH]; intros acc N; simpl.
  - now rewrite app_nil_r.
  - assert (F : ~ In k (keys acc)).
    { unfold keys in N. rewrite map_app in N. simpl in N.
      apply NoDup_remove_2 in N. intros I. apply N.
      apply in_or_app. now left. }
    rewrite set_fresh by exact F.
    rewrite IH; rewrite <- app_assoc; simpl; [reflexivity | exact N].
Qed.

(** The last write under a name wins. *)
Lemma lookup_write_all (l : omap A) : forall (acc : omap A) k,
  lookup (write_all acc l) k =
  match lookup (rev l) k with
  | Some v => Some v
  | None => lookup acc k
  end.
Proof.
  unfold write_all.
  induction l as [|[k0 v0] l IH]; intros acc k; simpl; [reflexivity|].
  rewrite IH.
  assert (L : forall (a b : omap A),
             lookup (a ++ b) k =
             match lookup a k with Some v => Some v | None => lookup b k end).
  { induction a as [|[ka va] a IHa]; intros b; simpl; [reflexivity|].
    destruct (String.eqb ka k); [reflexivity | apply IHa]. }
  rewrite L. destruct (lookup (rev l) k); [reflexivity|]. simpl.
  destruct (String.eqb_spec k0 k) as [->|Hne].
  - apply lookup_set_same.
  - now apply lookup_set_other.
Qed.

End OMapFacts.

(** ** The field mapper *)

Section FieldMapper.
Import JS Normalizer MapperSpec.
Variables (metadata : object) (mappings : FieldMappings) (filePath : string).

(** Without a collision among the remaining entries the loop writes each
    of them under its final name. *)
Lemma loop_no_conflict (entries : list (string * value)) :
  forall acc,
    (forall k, In k (keys entries) -> conflictb metadata mappings k = false) ->
    applyFieldMappings_loop metadata mappings filePath entries acc
    = Ok (write_all acc
            (map (fun kv => (final_name mappings (fst kv), snd kv)) entries)).
Proof.
  induction entries as [|[k v] entries IH]; intros acc H; simpl; [reflexivity|].
  pose proof (H k (or_introl eq_refl)) as Hk.
  unfold conflictb in Hk. unfold final_name.
  destruct (rename_target mappings k) as [t|] eqn:E.
  - rewrite Hk. simpl. apply IH. intros k' I. apply H. now right.
  - apply IH. intros k' I. apply H. now right.
Qed.

(** With a collision the loop stops at the first colliding key. *)
Lemma loop_first_conflict (entries : list (string * value)) :
  forall acc,
    (exists k, In k (keys entries) /\ conflictb metadata mappings k = true) ->
    exists pre k v post t,
      entries = pre ++ (k, v) :: post
      /\ (forall k', In k' (keys pre) -> conflictb metadata mappings k' = false)
      /\ rename_target mappings k = Some t
      /\ is_undefined (get metadata t) = false
      /\ applyFieldMappings_loop metadata mappings filePath entries acc
         = Err (FieldMappingConflictError k t t filePath).
Proof.
  induction entries as [|[k v] entries IH]; intros acc [k0 [I C]].
  - destruct I.
  - destruct (conflictb metadata mappings k) eqn:Ck.
    + unfold conflictb in Ck.
      destruct (rename_target mappings k) as [t|] eqn:E; [|discriminate].
      exists [], k, v, entries, t. simpl. rewrite E, Ck.
      repeat split; try tauto.
      now apply negb_true_iff in Ck.
    + assert (Hex : exists k1, In k1 (keys entries)
                               /\ conflictb metadata mappings k1 = true).
      { destruct I as [<-|I]; [simpl in C; congruence | eauto]. }
      pose proof Ck as Ck'. unfold conflictb in Ck'. simpl.
      destruct (rename_target mappings k) as [t|] eqn:E.
      * rewrite Ck'.
        destruct (IH (set acc t v) Hex)
          as (pre & k1 & v1 & post & t1 & -> & Hpre & Et & Hd & Hr).
        exists ((k, v) :: pre), k1, v1, post, t1.
        repeat split; try assumption.
        intros k' [<-|I']; [exact Ck | now apply Hpre].
      * destruct (IH (set acc k v) Hex)
          as (pre & k1 & v1 & post & t1 & -> & Hpre & Et & Hd & Hr).
        exists ((k, v) :: pre), k1, v1, post, t1.
        repeat split; try assumption.
        intros k' [<-|I']; [exact Ck | now apply Hpre].
Qed.

End FieldMapper.

Section FieldMapperContract.
Import JS Normalizer MapperSpec.

(** Without a collision the mapper succeeds and every name of the result
    holds the value last written under it. *)
Lemma field_mapper_last_write
  (metadata : object) (mappings : FieldMappings) (filePath : string) :
  (forall k, In k (keys metadata) -> conflictb metadata mappings k = false) ->
  exists r,
    applyFieldMappings metadata mappings filePath = Ok r
    /\ forall n, lookup r n = lookup (rev (renamed metadata mappings)) n.
Proof.
  intros Hno. unfold applyFieldMappings.
  rewrite (loop_no_conflict metadata mappings filePath metadata [] Hno).
  eexists. split; [reflexivity|].
  intros n. fold (renamed metadata mappings).
  rewrite lookup_write_all. simpl.
  now destruct (lookup (rev (renamed metadata mappings)) n).
Qed.








End FieldMapperContract.

(** ** Identifier derivation *)

Section SlugFacts.
Import Chars Path Slug.

Ltac all_chars c := destruct c as [[] [] [] [] [] [] [] []]; vm_compute; intuition congruence.

Lemma to_lower_not_upper c : is_upper (to_lower c) = false.
Proof. all_chars c. Qed.

Lemma kept_char_is_slug c :
  is_upper c = false -> is_removed c = false -> is_sep c = false ->
  is_slug_char c = true.
Proof. all_chars c. Qed.

Lemma slug_char_facts c :
  is_slug_char c = true ->
  is_upper c = false /\ is_removed c = false /\ is_sep c = false
  /\ is_slash c = false /\ c <> "."%char.
Proof. all_chars c. Qed.

Lemma hyphen_is_slug_char : is_slug_char hyphen = true.
Proof. reflexivity. Qed.

Lemma forallb_drop_while p q l :
  forallb p l = true -> forallb p (drop_while q l) = true.
Proof.
  induction l as [|c l IH]; simpl; [reflexivity|].
  intros H. apply andb_true_iff in H as [Hc Hl].
  destruct (q c); [now apply IH | simpl; now rewrite Hc, Hl].
Qed.

Lemma forallb_rev (p : ascii -> bool) l :
  forallb p (rev l) = forallb p l.
Proof.
  induction l as [|c l IH]; simpl; [reflexivity|].
  rewrite forallb_app, IH. simpl. rewrite andb_true_r. apply andb_comm.
Qed.

Lemma head_ok_drop_while l : head_ok (drop_while is_hyphen l) = true.
Proof.
  induction l as [|c l IH]; simpl; [reflexivity|].
  destruct (is_hyphen c) eqn:E; [exact IH | simpl; now rewrite E].
Qed.

Lemma drop_while_head_ok l : head_ok l = true -> drop_while is_hyphen l = l.
Proof.
  destruct l as [|c l]; simpl; [reflexivity|].
  intros H. apply negb_true_iff in H. now rewrite H.
Qed.

(** dropping hyphens at the end leaves the first character alone *)
Lemma head_ok_drop_while_end l :
  head_ok l = true -> head_ok (drop_while_end is_hyphen l) = true.
Proof.
  unfold drop_while_end. destruct l as [|c l]; simpl; [reflexivity|].
  intros H. apply negb_true_iff in H.
  generalize (rev l) as r. intros r.
  induction r as [|x r IH]; cbn.
  - rewrite H. cbn. now rewrite H.
  - destruct (is_hyphen x) eqn:E; [exact IH|].
    cbn. rewrite rev_app_distr. cbn. now rewrite H.
Qed.

Lemma trim_hyphens_shape l :
  head_ok (trim_hyphens l) = true /\ head_ok (rev (trim_hyphens l)) = true.
Proof.
  unfold trim_hyphens. split.
  - apply head_ok_drop_while_end, head_ok_drop_while.
  - unfold drop_while_end. rewrite rev_involutive. apply head_ok_drop_while.
Qed.

Lemma trim_hyphens_fixed l :
  head_ok l = true -> head_ok (rev l) = true -> trim_hyphens l = l.
Proof.
  intros H1 H2. unfold trim_hyphens, drop_while_end.
  rewrite (drop_while_head_ok l H1), (drop_while_head_ok _ H2).
  apply rev_involutive.
Qed.

Lemma collapse_seps_chars l : forall in_run,
  forallb (fun c => negb (is_upper c) && negb (is_removed c)) l = true ->
  forallb is_slug_char (collapse_seps in_run l) = true.
Proof.
  induction l as [|c l IH]; intros in_run H; simpl; [reflexivity|].
  simpl in H. apply andb_true_iff in H as [Hc Hl].
  apply andb_true_iff in Hc as [Hu Hr].
  apply negb_true_iff in Hu, Hr.
  destruct (is_sep c) eqn:Es.
  - destruct in_run; simpl; rewrite ?hyphen_is_slug_char; now apply IH.
  - simpl. rewrite (kept_char_is_slug c Hu Hr Es). now apply IH.
Qed.

Lemma collapse_seps_fixed l : forall in_run,
  forallb is_slug_char l = true -> collapse_seps in_run l = l.
Proof.
  induction l as [|c l IH]; intros in_run H; simpl; [reflexivity|].
  simpl in H. apply andb_true_iff in H as [Hc Hl].
  destruct (slug_char_facts c Hc) as (_ & _ & -> & _).
  f_equal. now apply IH.
Qed.

Lemma slug_of_filename_is_slug filename :
  is_slug (slug_of_filename filename) = true.
Proof.
  unfold is_slug, slug_of_filename.
  destruct (trim_hyphens_shape
              (collapse_seps false
                 (remove_special (map to_lower (strip_date_prefix filename)))))
    as [-> ->].
  rewrite !andb_true_r. unfold trim_hyphens, drop_while_end.
  rewrite forallb_rev. apply forallb_drop_while. rewrite forallb_rev.
  apply forallb_drop_while. apply collapse_seps_chars.
  unfold remove_special.
  generalize (strip_date_prefix filename) as l.
  induction l as [|c l IH]; simpl; [reflexivity|].
  destruct (is_removed (to_lower c)) eqn:E; simpl; [exact IH|].
  now rewrite to_lower_not_upper, E, IH.
Qed.

Lemma strip_date_prefix_fixed l :
  has_date_prefix l = false -> strip_date_prefix l = l.
Proof.
  do 11 (destruct l as [|? l]; [reflexivity|]).
  unfold has_date_prefix, strip_date_prefix. now intros ->.
Qed.

Lemma slug_fixed_by_chain l :
  is_slug l = true -> has_date_prefix l = false -> slug_of_filename l = l.
Proof.
  unfold is_slug. intros H Hd.
  apply andb_true_iff in H as [H H3]. apply andb_true_iff in H as [H1 H2].
  unfold slug_of_filename. rewrite (strip_date_prefix_fixed l Hd).
  assert (E1 : map to_lower l = l).
  { clear -H1. induction l as [|c l IH]; simpl in *; [reflexivity|].
    apply andb_true_iff in H1 as [Hc Hl].
    destruct (slug_char_facts c Hc) as (Hu & _).
    unfold to_lower at 1. rewrite Hu. f_equal. now apply IH. }
  rewrite E1.
  assert (E2 : remove_special l = l).
  { clear -H1. unfold remove_special.
    induction l as [|c l IH]; simpl in *; [reflexivity|].
    apply andb_true_iff in H1 as [Hc Hl].
    destruct (slug_char_facts c Hc) as (_ & -> & _).
    simpl. f_equal. now apply IH. }
  rewrite E2, (collapse_seps_fixed l false H1).
  now apply trim_hyphens_fixed.
Qed.

Lemma take_while_all (p : ascii -> bool) l :
  forallb p l = true -> take_while p l = l.
Proof.
  induction l as [|c l IH]; simpl; [reflexivity|].
  intros H. apply andb_true_iff in H as [-> Hl]. f_equal. now apply IH.
Qed.

Lemma is_prefix_in a : forall b c,
  is_prefix a b = true -> In c a -> In c b.
Proof.
  induction a as [|x a IH]; intros b c H I; [destruct I|].
  destruct b as [|y b]; [discriminate|].
  simpl in H. apply andb_true_iff in H as [Hxy Hp].
  apply Ascii.eqb_eq in Hxy as ->.
  destruct I as [<-|I]; [now left | right; now apply (IH b)].
Qed.

Lemma list_eqb_eq a : forall b, list_eqb a b = true -> a = b.
Proof.
  induction a as [|x a IH]; intros [|y b] H; try discriminate; [reflexivity|].
  simpl in H. apply andb_true_iff in H as [Hxy Hp].
  apply Ascii.eqb_eq in Hxy as ->. f_equal. now apply IH.
Qed.

(** A derived identifier has neither a directory part nor an extension. *)
Lemma basename_of_slug l :
  forallb is_slug_char l = true ->
  basename_l l (list_ascii_of_string qmd_ext) = l.
Proof.
  intros H.
  assert (Hall : forall c, In c l -> is_slash c = false /\ c <> "."%char).
  { intros c I. rewrite forallb_forall in H.
    destruct (slug_char_facts c (H c I)) as (_ & _ & _ & Hs & Hd). tauto. }
  unfold basename_l.
  destruct (list_eqb l (list_ascii_of_string qmd_ext)) eqn:E.
  { apply list_eqb_eq in E. subst l.
    destruct (Hall "."%char) as [_ C]; [now left | congruence]. }
  assert (Hc : last_component l = l).
  { unfold last_component.
    assert (Hr : forallb (fun c => negb (is_slash c)) (rev l) = true).
    { rewrite forallb_rev. apply forallb_forall. intros c I.
      destruct (Hall c I) as [-> _]. reflexivity. }
    assert (Hd : drop_while is_slash (rev l) = rev l).
    { destruct (rev l) as [|c r]; [reflexivity|]. simpl in *.
      apply andb_true_iff in Hr as [Hc _]. apply negb_true_iff in Hc.
      now rewrite Hc. }
    rewrite Hd, (take_while_all _ _ Hr). apply rev_involutive. }
  rewrite Hc.
  destruct (is_suffix (list_ascii_of_string qmd_ext) l) eqn:Es; [|reflexivity].
  exfalso. unfold is_suffix in Es.
  assert (I : In "."%char (rev l)).
  { apply (is_prefix_in _ _ _ Es). simpl. tauto. }
  apply in_rev in I. destruct (Hall _ I) as [_ C]. congruence.
Qed.

End SlugFacts.

Section SlugDerivation.
Import Chars Path Slug.

(** C7, as the code has it. The identifier derived from a file name
    depends on the path alone, ["2025-11-24-My Cool Post!.qmd"] gives
    ["my-cool-post"], the result is made of lower-case letters, digits
    and hyphens with no hyphen at either end, and deriving again from a
    result that does not itself begin with a [YYYY-MM-DD-] prefix gives
    the same string. *)
Theorem slug_derivation :
  slug_from_path "2025-11-24-My Cool Post!.qmd" = "my-cool-post"
  /\ (forall filePath title,
        Normalizer.generateSlug filePath title None = slug_from_path filePath)
  /\ forall filePath,
       is_slug (list_ascii_of_string (slug_from_path filePath)) = true
       /\ (has_date_prefix (list_ascii_of_string (slug_from_path filePath))
           = false ->
           slug_from_path (slug_from_path filePath) = slug_from_path filePath).
Proof.
  split; [reflexivity|]. split; [reflexivity|].
  intros filePath. unfold slug_from_path at 1 2.
  rewrite list_ascii_of_string_of_list_ascii.
  set (s := slug_of_filename (list_ascii_of_string (basename filePath qmd_ext))).
  pose proof (slug_of_filename_is_slug
                (list_ascii_of_string (basename filePath qmd_ext))) as Hs.
  fold s in Hs. split; [exact Hs|]. intros Hd.
  unfold slug_from_path. fold s. unfold basename.
  rewrite !list_ascii_of_string_of_list_ascii.
  assert (Hc : forallb is_slug_char s = true).
  { unfold is_slug in Hs. apply andb_true_iff in Hs as [Hs _].
    now apply andb_true_iff in Hs as [Hs _]. }
  rewrite (basename_of_slug s Hc).
  now rewrite (slug_fixed_by_chain s Hs Hd).
Qed.

Lemma slug_derivation_witness :
  slug_from_path (slug_from_path "2025-11-24-My Cool Post!.qmd")
  = slug_from_path "2025-11-24-My Cool Post!.qmd".
Proof.
  apply (proj2 (proj2 (proj2 slug_derivation)
                  "2025-11-24-My Cool Post!.qmd")).
  reflexivity.
Defined.

(** Deriving twice is not always the same as deriving once: a second
    date prefix is stripped by the second pass. *)
Lemma slug_not_idempotent :
  slug_from_path "2025-11-24-2025-11-25-post.qmd" = "2025-11-25-post"
  /\ slug_from_path (slug_from_path "2025-11-24-2025-11-25-post.qmd")
     = "post"
  /\ slug_from_path (slug_from_path "2025-11-24-2025-11-25-post.qmd")
     <> slug_from_path "2025-11-24-2025-11-25-post.qmd".
Proof.
  split; [reflexivity|]. split; [reflexivity|].
  vm_compute. discriminate.
Qed.

End SlugDerivation.

(** ** Normalisation *)

Section Normalisation.
Import JS Normalizer.

(** C10. Whatever the raw metadata, the file path, the options and the
    listing defaults, an entry produced by normalisation has its slug
    equal to its id. *)
Theorem normalized_slug_is_id
  (dirname : string -> string) (join : string -> string -> string)
  (raw : object) (filePath : string) (options : NormalizationOptions)
  (listingDefaults : option object) (entry : NormalizedEntry) :
  normalizeMetadata dirname join raw filePath options listingDefaults
  = Ok entry ->
  slug entry = id entry.
Proof.
  unfold normalizeMetadata. intros H.
  destruct (applyFieldMappings _ _ _) as [m1|e]; simpl in H; [|discriminate].
  destruct (truthy _); simpl in H.
  - destruct (resolveImagePath _ _ _ _ _) as [img|e]; simpl in H;
      [|discriminate].
    injection H as <-. reflexivity.
  - injection H as <-. reflexivity.
Qed.

Lemma normalized_slug_is_id_witness :
  match
    normalizeMetadata (fun p => p) (fun a b => (a ++ "/" ++ b)%string)
      [("title", VStr "Hello"); ("date", VDate 0)]
      "/site/posts/2025-11-24-hello.qmd"
      {| basePath := "/site"; outputDir := "/site/_site";
         fieldMappings := DEFAULT_FIELD_MAPPINGS;
         slugify := None; imageResolver := None |}
      (Some [("author", VStr "Jane")])
  with
  | Ok entry => id entry = "hello" /\ slug entry = id entry
  | Err _ => False
  end.
Proof.
  destruct (normalizeMetadata _ _ _ _ _ _) as [entry|e] eqn:E.
  - split; [|exact (normalized_slug_is_id _ _ _ _ _ _ _ E)].
    vm_compute in E. injection E as <-. reflexivity.
  - vm_compute in E. discriminate.
Defined.

End Normalisation.

(** ** Schema inference *)

Section SchemaInference.
Import JS Quarto Schema SchemaSpec.





Lemma lookup_fold_set {A : Type} (g : string -> A) (names : list string) :
  forall (acc : omap A) (f : string),
    lookup (fold_left (fun a n => set a n (g n)) names acc) f
    = if in_dec string_dec f names then Some (g f) else lookup acc f.
Proof.
  induction names as [|n names IH]; intros acc f; simpl; [reflexivity|].
  rewrite IH.
  destruct (in_dec string_dec f names) as [I|N].
  - destruct (string_dec n f); reflexivity.
  - destruct (string_dec n f) as [->|Hne].
    + apply lookup_set_same.
    + now apply lookup_set_other.
Qed.

Lemma set_add_in (s : list string) (k x : string) :
  In x (set_add s k) <-> In x s \/ x = k.
Proof.
  unfold set_add. destruct (existsb (String.eqb k) s) eqn:E.
  - split; [tauto|]. intros [I| ->]; [exact I|].
    apply existsb_exists in E as [y [Iy Ey]].
    apply String.eqb_eq in Ey. now subst.
  - rewrite in_app_iff. simpl. intuition.
Qed.

Lemma fold_set_add_in (ks : list string) : forall s x,
  In x (fold_left set_add ks s) <-> In x s \/ In x ks.
Proof.
  induction ks as [|k ks IH]; intros s x; simpl; [tauto|].
  rewrite IH, set_add_in. intuition.
Qed.

Lemma allFieldNames_in (documents : list object) (x : string) :
  In x (allFieldNames documents) <->
  exists doc, In doc documents /\ In x (keys doc).
Proof.
  unfold allFieldNames.
  assert (G : forall acc,
             In x (fold_left (fun a doc => fold_left set_add (keys doc) a)
                     documents acc)
             <-> In x acc \/ exists doc, In doc documents /\ In x (keys doc)).
  { induction documents as [|d ds IH]; intros acc; simpl.
    - split; [tauto | intros [I|[doc [[] _]]]; exact I].
    - rewrite IH, fold_set_add_in. split.
      + intros [[I|I]|[doc [I K]]]; eauto.
      + intros [I|[doc [[<-|I] K]]]; eauto. }
  rewrite G. simpl. split; [intros [[]|H]; exact H | tauto].
Qed.

(** Looking a name up after [ensure_minimum]. *)
Lemma lookup_ensure_minimum (schemaFields : omap zod) (f : string) :
  f <> "title" -> f <> "pubDate" ->
  lookup (ensure_minimum schemaFields) f = lookup schemaFields f.
Proof.
  intros H1 H2. unfold ensure_minimum.
  destruct (has schemaFields "title");
    destruct (negb _ && negb _);
    rewrite ?lookup_set_other by congruence; reflexivity.
Qed.

Lemma lookup_ensure_minimum_title (schemaFields : omap zod) :
  lookup (ensure_minimum schemaFields) "title"
  = match lookup schemaFields "title" with
    | Some t => Some t
    | None => Some ZString
    end.
Proof.
  unfold ensure_minimum, has.
  destruct (lookup schemaFields "title") eqn:E.
  - destruct (negb _ && negb _);
      rewrite ?lookup_set_other by discriminate; exact E.
  - destruct (negb _ && negb _);
      rewrite ?lookup_set_other by discriminate; apply lookup_set_same.
Qed.

Lemma lookup_ensure_minimum_pubDate (schemaFields : omap zod) :
  lookup (ensure_minimum schemaFields) "pubDate"
  = match lookup schemaFields "pubDate" with
    | Some t => Some t
    | None => if has schemaFields "date" then None else Some ZDate
    end.
Proof.
  unfold ensure_minimum.
  set (s1 := if has schemaFields "title" then schemaFields
             else set schemaFields "title" ZString).
  assert (Hp : lookup s1 "pubDate" = lookup schemaFields "pubDate").
  { unfold s1. destruct (has schemaFields "title"); [reflexivity|].
    now rewrite lookup_set_other by discriminate. }
  assert (Hd : has s1 "date" = has schemaFields "date").
  { unfold s1, has. destruct (lookup schemaFields "title"); [reflexivity|].
    now rewrite lookup_set_other by discriminate. }
  unfold has at 1. rewrite Hp, Hd.
  destruct (lookup schemaFields "pubDate") eqn:E; simpl; [now rewrite Hp|].
  destruct (has schemaFields "date"); simpl; [now rewrite Hp|].
  apply lookup_set_same.
Qed.

End SchemaInference.

Section SchemaContract.
Import JS Quarto Schema SchemaSpec.




(** C9. An override is returned in place of the inferred schema; without
    an override an extension is merged field by field, its fields winning
    over the inferred ones; and when the merge throws, the inferred
    schema is returned unchanged and a logger, if there is one, receives a
    warning, as does the loader's logger when the schema is built for a
    listing. Without either the inferred schema is returned. *)
Theorem schema_config_contract
  (baseSchema : ZodObject) (cfg : SchemaConfig) (logger : bool) :
  (forall o, override cfg = Some o ->
             applySchemaConfig baseSchema (Some cfg) logger = (o, []))
  /\ (forall e, override cfg = None -> extend cfg = Some (IsObject e) ->
        wf (shape e) ->
        exists merged,
          applySchemaConfig baseSchema (Some cfg) logger
          = (IsObject merged, [])
          /\ forall f,
               lookup (shape merged) f
               = match lookup (shape e) f with
                 | Some t => Some t
                 | None => lookup (shape baseSchema) f
                 end)
  /\ (forall message,
        override cfg = None -> extend cfg = Some (NotSchema message) ->
        applySchemaConfig baseSchema (Some cfg) logger
        = (IsObject baseSchema,
           if logger
           then [("Schema merge conflict: " ++ message
                  ++ ". Using base schema.")%string]
           else []))
  /\ (override cfg = None -> extend cfg = None ->
      applySchemaConfig baseSchema (Some cfg) logger
      = (IsObject baseSchema, []))
  /\ applySchemaConfig baseSchema None logger = (IsObject baseSchema, [])
  /\ (forall listing documents message,
        override cfg = None -> extend cfg = Some (NotSchema message) ->
        createListingSchema listing documents (Some cfg) true
        = (IsObject (inferred documents listing),
           [("Schema merge conflict: " ++ message
             ++ ". Using base schema.")%string])).
Proof.
  unfold createListingSchema, inferred, applySchemaConfig. repeat split.
  - intros o ->. reflexivity.
  - intros e -> -> W. simpl. eexists. split; [reflexivity|].
    intros f. simpl. unfold Normalizer.spread.
    rewrite lookup_write_all.
    assert (R : lookup (rev (shape e)) f = lookup (shape e) f).
    { clear -W. unfold wf in W. induction (shape e) as [|[k v] l IH];
        [reflexivity|].
      inversion W as [|? ? N W']; subst. simpl.
      assert (L : forall (a b : omap zod),
                 lookup (a ++ b) f =
                 match lookup a f with Some x => Some x | None => lookup b f end).
      { induction a as [|[ka va] a IHa]; intros b; simpl; [reflexivity|].
        destruct (String.eqb ka f); [reflexivity | apply IHa]. }
      rewrite L, (IH W'). simpl.
      destruct (String.eqb_spec k f) as [->|Hne].
      - apply lookup_none_not_in in N. now rewrite N.
      - now destruct (lookup l f). }
    now rewrite R.
  - intros message -> ->. reflexivity.
  - intros -> ->. reflexivity.
  - intros listing documents message -> ->. reflexivity.
Qed.

Lemma schema_config_contract_witness :
  applySchemaConfig (z_object [("title", ZString)])
    (Some {| extend := Some (NotSchema "Cannot read properties of undefined");
             override := None |})
    true
  = (IsObject (z_object [("title", ZString)]),
     ["Schema merge conflict: Cannot read properties of undefined. Using base schema."])
  /\ applySchemaConfig (z_object [("title", ZString)])
       (Some {| extend := None;
                override := Some (IsObject (z_object [("name", ZString)])) |})
       true
     = (IsObject (z_object [("name", ZString)]), [])
  /\ exists merged,
       applySchemaConfig (z_object [("title", ZString); ("n", ZString)])
         (Some {| extend := Some (IsObject (z_object [("n", ZNumber)]));
                  override := None |})
         true
       = (IsObject merged, [])
       /\ lookup (shape merged) "n" = Some ZNumber
       /\ lookup (shape merged) "title" = Some ZString.
Proof.
  split; [|split].
  - exact (proj1 (proj2 (proj2 (schema_config_contract
                                  (z_object [("title", ZString)])
                                  {| extend := Some (NotSchema "Cannot read properties of undefined");
                                     override := None |} true)))
             "Cannot read properties of undefined" eq_refl eq_refl).
  - exact (proj1 (schema_config_contract
                    (z_object [("title", ZString)])
                    {| extend := None;
                       override := Some (IsObject (z_object [("name", ZString)])) |}
                    true)
             (IsObject (z_object [("name", ZString)])) eq_refl).
  - destruct (proj1 (proj2 (schema_config_contract
                              (z_object [("title", ZString); ("n", ZString)])
                              {| extend := Some (IsObject (z_object [("n", ZNumber)]));
                                 override := None |} true))
                (z_object [("n", ZNumber)]) eq_refl eq_refl)
      as [merged [E L]].
    + repeat constructor; simpl; tauto.
    + exists merged. split; [exact E|].
      split; rewrite L; reflexivity.
Defined.

End SchemaContract.

(** ** Sorting *)

Section SortFacts.
Import JS Quarto Normalizer Sorting.
Context {T : Type}.
Variable cmp : T -> T -> Z.

Lemma insert_perm (x : T) (l : list T) : Permutation (x :: l) (insert cmp x l).
Proof.
  induction l as [|y r IH]; simpl; [reflexivity|].
  destruct (0 <? cmp x y)%Z; [|reflexivity].
  rewrite perm_swap. now constructor.
Qed.

Lemma stable_sort_perm (l : list T) : Permutation l (stable_sort cmp l).
Proof.
  induction l as [|x l IH]; simpl; [constructor|].
  rewrite <- insert_perm. now constructor.
Qed.

(** Elements the comparator never puts behind a later one stay in place. *)
Lemma stable_sort_in_order (l : list T) :
  ForallOrdPairs (fun x y => (cmp x y <= 0)%Z) l -> stable_sort cmp l = l.
Proof.
  induction 1 as [|x l Hx Hl IH]; simpl; [reflexivity|].
  rewrite IH. destruct l as [|y r]; [reflexivity|]. simpl.
  inversion Hx as [|? ? Hxy _]; subst.
  destruct (Z.ltb_spec 0 (cmp x y)); [lia | reflexivity].
Qed.

(** If, on the elements that satisfy [P], the comparator's verdict agrees
    with a relation [R], sorting such elements leaves them [R]-sorted. *)
Section SortedOn.
Variables (P : T -> Prop) (R : T -> T -> Prop).
Hypothesis cmp_le : forall x y, P x -> P y -> (cmp x y <= 0)%Z -> R x y.
Hypothesis cmp_gt : forall x y, P x -> P y -> (0 < cmp x y)%Z -> R y x.

Lemma insert_sorted_on (x : T) (l : list T) :
  P x -> Forall P l -> Sorted R l -> Sorted R (insert cmp x l).
Proof.
  intros Px Hl Hs. induction Hs as [|y r Hr IH Hy]; simpl; [repeat constructor|].
  inversion Hl as [|? ? Py Pr]; subst.
  destruct (Z.ltb_spec 0 (cmp x y)) as [Hlt|Hle].
  - constructor; [now apply IH|].
    destruct r as [|z r']; simpl.
    + constructor. now apply cmp_gt.
    + destruct (0 <? cmp x z)%Z.
      * inversion Hy; subst. now constructor.
      * constructor. now apply cmp_gt.
  - constructor; [now constructor|]. constructor. now apply cmp_le.
Qed.

Lemma stable_sort_sorted_on (l : list T) :
  Forall P l -> Sorted R (stable_sort cmp l).
Proof.
  induction 1 as [|x l Px Hl IH]; simpl; [constructor|].
  apply insert_sorted_on; [exact Px | | exact IH].
  rewrite Forall_forall in *. intros e I. apply Hl.
  eapply Permutation_in; [symmetry; apply stable_sort_perm | exact I].
Qed.
End SortedOn.

End SortFacts.

Section SortByDate.
Import JS Quarto Normalizer Sorting SortSpec.
Variable localeCompare : string -> string -> Z.
Context {T : Type} `{Indexable T}.

Lemma by_date_desc_spec (a b : T) :
  dated "date" a = true -> dated "date" b = true ->
  ((compare_entries localeCompare ["date desc"] a b <= 0)%Z ->
   latest_first "date" a b)
  /\ ((0 < compare_entries localeCompare ["date desc"] a b)%Z ->
      latest_first "date" b a).
Proof.
  unfold dated, latest_first, date_key. simpl.
  change (sort_field "date desc") with "date".
  change (sort_desc "date desc") with true.
  destruct (prop a "date") as [| | | | |x| | |] eqn:Ea; try discriminate;
    destruct (prop b "date") as [| | | | |y| | |] eqn:Eb; try discriminate;
    intros _ _; simpl; try (split; intros; lia || tauto).
  destruct (Z.eqb_spec (x - y) 0) as [E0|N0]; simpl; split; intros; lia.
Qed.

Lemma latest_first_trans :
  Relation_Definitions.transitive T (latest_first "date").
Proof.
  intros a b c. unfold latest_first.
  destruct (date_key "date" a), (date_key "date" b), (date_key "date" c);
    intros; try tauto; lia.
Qed.

(** Sorting entries whose [date] is a date or missing by ["date desc"]
    rearranges them so that later dates come first and entries without a
    date come last. *)
Lemma sort_by_date_desc (entries : list T) :
  Forall (fun e => dated "date" e = true) entries ->
  Permutation entries
    (applySortConfiguration localeCompare entries (Some (SortOne "date desc")))
  /\ StronglySorted (latest_first "date")
       (applySortConfiguration localeCompare entries
          (Some (SortOne "date desc"))).
Proof.
  intros Hd. simpl. split; [apply stable_sort_perm|].
  apply Sorted_StronglySorted; [exact latest_first_trans|].
  apply (stable_sort_sorted_on _ (fun e => dated "date" e = true)).
  - intros x y Px Py. apply (proj1 (by_date_desc_spec x y Px Py)).
  - intros x y Px Py. apply (proj2 (by_date_desc_spec x y Px Py)).
  - exact Hd.
Qed.

End SortByDate.

Section SortInTheLoad.
Import JS Quarto Normalizer Sorting.
Variable localeCompare : string -> string -> Z.

(** A normalised entry has the properties [id], [slug] and [data] and no
    other: on any other field every pair of entries compares equal. *)
Lemma compare_wrappers_equal (sorts : list string) (a b : NormalizedEntry) :
  Forall (fun s => sort_field s <> "id" /\ sort_field s <> "slug"
                   /\ sort_field s <> "data") sorts ->
  compare_entries localeCompare sorts a b = 0%Z.
Proof.
  induction 1 as [|s sorts (H1 & H2 & H3) _ IH]; simpl; [reflexivity|].
  unfold prop, entry_indexable.
  destruct (String.eqb_spec (sort_field s) "id"); [contradiction|].
  destruct (String.eqb_spec (sort_field s) "slug"); [contradiction|].
  destruct (String.eqb_spec (sort_field s) "data"); [contradiction|].
  destruct (inherited (sort_field s)); exact IH.
Qed.

Lemma all_pairs {A : Type} (R : A -> A -> Prop) (l : list A) :
  (forall x y, R x y) -> ForallOrdPairs R l.
Proof.
  intros HR. induction l as [|x l IH]; constructor; [|exact IH].
  apply Forall_forall. intros y _. apply HR.
Qed.

(** Stage 10 hands the sort the normalised entries themselves, so a sort
    key that names a metadata field leaves them in the order they came. *)
Lemma sort_on_metadata_field_keeps_order
  (entries : list NormalizedEntry) (sortConfig : option SortConfig) :
  (forall s, match sortConfig with
             | Some (SortOne s') => s = s'
             | Some (SortMany l) => In s l
             | None => False
             end ->
             sort_field s <> "id" /\ sort_field s <> "slug"
             /\ sort_field s <> "data") ->
  applySortConfiguration localeCompare entries sortConfig = entries.
Proof.
  intros Hf. unfold applySortConfiguration.
  destruct sortConfig as [[s|l]|]; [| |reflexivity].
  - destruct (String.eqb s ""); [reflexivity|].
    apply stable_sort_in_order, all_pairs. intros x y.
    rewrite compare_wrappers_equal; [lia|].
    constructor; [now apply Hf | constructor].
  - apply stable_sort_in_order, all_pairs. intros x y.
    rewrite compare_wrappers_equal; [lia|].
    apply Forall_forall. intros s I. now apply Hf.
Qed.

End SortInTheLoad.

(** ** The parse cache *)

Section CacheFacts.
Import JS Cache.
Context {T : Type}.
Implicit Types (c : FileCache T) (fs : FileSystem) (path : string).

Lemma stat_some_nonempty fs path st : stat fs path = Some st -> path <> "".
Proof.
  unfold stat. destruct (String.eqb_spec path ""); [discriminate | auto].
Qed.

Lemma wf_evict_oldest c : wf (cache c) -> wf (evict_oldest c).
Proof.
  intros W. unfold evict_oldest.
  destruct (maxSize c <=? _)%Z; [|exact W].
  destruct (first_key (cache c)) as [k|]; [|exact W].
  destruct (String.eqb k ""); [exact W | now apply wf_remove].
Qed.

(** What [set] stores can be read back. *)
Lemma lookup_after_set c fs path (d : T) st :
  stat fs path = Some st ->
  lookup (cache (set_entry c fs path d)) path
  = Some {| data := d; mtime := mtimeMs st; size := stat_size st |}.
Proof.
  intros Hs. unfold set_entry, set_resume. rewrite Hs. simpl.
  apply lookup_set_same.
Qed.

Lemma wf_after_set c fs path (d : T) :
  wf (cache c) -> wf (cache (set_entry c fs path d)).
Proof.
  intros W. unfold set_entry, set_resume.
  destruct (stat fs path); [|exact W].
  simpl. now apply wf_set, wf_evict_oldest.
Qed.

End CacheFacts.

Section CacheCorrectness.
Import JS Cache.
Context {T : Type}.

(** C5. After [set(path, data)] on a file that can be stat'd, a [get] made
    while the file still has the same modification time and size returns
    the data and keeps the entry; a [get] made after either has changed,
    or after the file has gone, is a miss and leaves no entry for the
    path. *)
Theorem cache_set_then_get
  (c : FileCache T) (fs : FileSystem) (path : string) (d : T) (st : Stats) :
  wf (cache c) ->
  stat fs path = Some st ->
  (forall fs',
     stat fs' path = Some st ->
     fst (get (set_entry c fs path d) fs' path) = Some d
     /\ lookup (cache (snd (get (set_entry c fs path d) fs' path))) path
        = Some {| data := d; mtime := mtimeMs st; size := stat_size st |})
  /\ (forall fs' st',
        stat fs' path = Some st' ->
        mtimeMs st' <> mtimeMs st \/ stat_size st' <> stat_size st ->
        fst (get (set_entry c fs path d) fs' path) = None
        /\ lookup (cache (snd (get (set_entry c fs path d) fs' path))) path
           = None)
  /\ (forall fs',
        stat fs' path = None ->
        fst (get (set_entry c fs path d) fs' path) = None
        /\ lookup (cache (snd (get (set_entry c fs path d) fs' path))) path
           = None).
Proof.
  intros W Hs.
  pose proof (lookup_after_set c fs path d st Hs) as L.
  pose proof (wf_after_set c fs path d W) as W1.
  assert (G : forall fs', get (set_entry c fs path d) fs' path
                          = get_resume (set_entry c fs path d) path
                              {| data := d; mtime := mtimeMs st;
                                 size := stat_size st |} (stat fs' path)).
  { intros fs'. unfold get. now rewrite L. }
  split; [|split].
  - intros fs' Hs'. rewrite G, Hs'. unfold get_resume. simpl.
    rewrite !Z.eqb_refl. simpl. split; [reflexivity | apply lookup_set_same].
  - intros fs' st' Hs' Hch. rewrite G, Hs'. unfold get_resume. simpl.
    destruct (Z.eqb_spec (mtimeMs st') (mtimeMs st));
      destruct (Z.eqb_spec (stat_size st') (stat_size st));
      simpl; try (split; [reflexivity | now apply lookup_remove_same]). lia.
  - intros fs' Hs'. rewrite G, Hs'. unfold get_resume. simpl.
    split; [reflexivity | now apply lookup_remove_same].
Qed.

End CacheCorrectness.

Section CacheCorrectnessExample.
Import JS Cache.

Lemma cache_set_then_get_witness :
  fst (get (set_entry (new_FileCache 500)
              (fun _ => Some {| mtimeMs := 10; stat_size := 3 |}) "a.qmd" "parsed")
         (fun _ => Some {| mtimeMs := 10; stat_size := 3 |}) "a.qmd")
  = Some "parsed"
  /\ fst (get (set_entry (new_FileCache 500)
                 (fun _ => Some {| mtimeMs := 10; stat_size := 3 |}) "a.qmd" "parsed")
            (fun _ => Some {| mtimeMs := 11; stat_size := 3 |}) "a.qmd")
     = None.
Proof.
  pose proof (cache_set_then_get (new_FileCache 500)
                (fun _ => Some {| mtimeMs := 10; stat_size := 3 |})
                "a.qmd" "parsed" {| mtimeMs := 10; stat_size := 3 |}
                (NoDup_nil _) eq_refl) as (Hhit & Hmiss & _).
  split.
  - exact (proj1 (Hhit (fun _ => Some {| mtimeMs := 10; stat_size := 3 |})
                    eq_refl)).
  - refine (proj1 (Hmiss (fun _ => Some {| mtimeMs := 11; stat_size := 3 |})
                     {| mtimeMs := 11; stat_size := 3 |} eq_refl _)).
    left. simpl. lia.
Defined.

End CacheCorrectnessExample.

Section CacheBound.
Import JS Cache.
Context {T : Type}.

Lemma not_in_keys_set (m : omap (CacheEntry T)) k (e : CacheEntry T) x :
  ~ In x (keys m) -> x <> k -> ~ In x (keys (set m k e)).
Proof.
  intros N Hne. rewrite keys_set. destruct (has m k); [exact N|].
  rewrite in_app_iff. simpl. intuition.
Qed.

Lemma not_in_keys_remove (m : omap (CacheEntry T)) k x :
  ~ In x (keys m) -> ~ In x (keys (remove m k)).
Proof. intros N I. apply N. eapply keys_remove_incl; eauto. Qed.

Lemma has_remove_same (m : omap (CacheEntry T)) k :
  wf m -> has (remove m k) k = false.
Proof. intros W. unfold has. now rewrite lookup_remove_same. Qed.

(** Every whole operation keeps the cache within its bound. *)
Lemma within_bound_op (c : FileCache T) (o : op T) :
  within_bound c ->
  within_bound (run_op c o) /\ maxSize (run_op c o) = maxSize c.
Proof.
  intros (W & E & B). unfold within_bound, cache_size in *.
  destruct o as [fs path|fs path d|path|]; simpl.
  - (* get *)
    unfold get. destruct (lookup (cache c) path) as [entry|] eqn:L;
      [|simpl; tauto].
    assert (Hp : path <> "").
    { intros ->. apply lookup_some_in in L. contradiction. }
    assert (Hh : has (cache c) path = true) by (unfold has; now rewrite L).
    assert (Hpos : (0 < length (cache c))%nat).
    { destruct (cache c); [discriminate | simpl; lia]. }
    unfold get_resume.
    destruct (stat fs path) as [st|];
      [destruct ((mtimeMs st =? mtime entry)%Z && (stat_size st =? size entry)%Z)|];
      simpl; (split; [|reflexivity]).
    + repeat split.
      * now apply wf_set, wf_remove.
      * apply not_in_keys_set; [now apply not_in_keys_remove | congruence].
      * rewrite length_set, has_remove_same, length_remove, Hh by exact W. lia.
    + repeat split; [now apply wf_remove | now apply not_in_keys_remove |].
      rewrite length_remove, Hh. lia.
    + repeat split; [now apply wf_remove | now apply not_in_keys_remove |].
      rewrite length_remove, Hh. lia.
  - (* set *)
    unfold set_entry, set_resume.
    destruct (stat fs path) as [st|] eqn:Hs; [|simpl; tauto].
    apply stat_some_nonempty in Hs. simpl. split; [|reflexivity].
    repeat split.
    + now apply wf_set, wf_evict_oldest.
    + apply not_in_keys_set; [|congruence].
      unfold evict_oldest. destruct (maxSize c <=? _)%Z; [|exact E].
      destruct (first_key (cache c)); [|exact E].
      destruct (String.eqb s ""); [exact E | now apply not_in_keys_remove].
    + rewrite length_set. unfold evict_oldest.
      destruct (Z.leb_spec (maxSize c) (Z.of_nat (length (cache c)))) as [Hfull|Hroom].
      * destruct (cache c) as [|[k e] m] eqn:Ec; simpl.
        -- simpl in *. lia.
        -- destruct (String.eqb_spec k "") as [->|Hk].
           ++ exfalso. apply E. simpl. now left.
           ++ simpl. rewrite String.eqb_refl.
              destruct (has m path); simpl in *; lia.
      * destruct (has (cache c) path); lia.
  - (* invalidate *)
    split; [|reflexivity]. repeat split;
      [now apply wf_remove | now apply not_in_keys_remove |].
    rewrite length_remove. destruct (has (cache c) path); lia.
  - (* clear *)
    split; [|reflexivity]. repeat split; [constructor | tauto | lia].
Qed.

(** Hence, for a capacity of at least one, no sequence of operations
    makes the cache larger than its capacity. *)
Lemma cache_bounded (N : Z) (ops : list (op T)) :
  (1 <= N)%Z -> (cache_size (run_ops (new_FileCache N) ops) <= N)%Z.
Proof.
  intros HN.
  assert (G : forall (c : FileCache T),
             within_bound c ->
             within_bound (run_ops c ops)
             /\ maxSize (run_ops c ops) = maxSize c).
  { unfold run_ops. induction ops as [|o os IH]; intros c Hc; simpl; [tauto|].
    destruct (within_bound_op c o Hc) as [Hc' Hm].
    destruct (IH _ Hc') as [Hc'' Hm']. split; [exact Hc'' | congruence]. }
  destruct (G (new_FileCache N)) as [(_ & _ & B) Hm].
  - repeat split; [constructor | simpl; tauto | unfold cache_size; simpl; lia].
  - rewrite Hm in B. simpl in B. lia.
Qed.

(** C4 at capacity 0. The eviction step finds nothing to evict in an
    empty cache and the entry is stored all the same: the cache then
    holds one entry, more than its capacity, and a following [get]
    returns it. *)
Theorem cache_capacity_zero_stores (d : T) :
  cache_size
    (set_entry (new_FileCache 0)
       (fun _ => Some {| mtimeMs := 10; stat_size := 3 |}) "a.qmd" d) = 1%Z
  /\ fst (get
            (set_entry (new_FileCache 0)
               (fun _ => Some {| mtimeMs := 10; stat_size := 3 |}) "a.qmd" d)
            (fun _ => Some {| mtimeMs := 10; stat_size := 3 |}) "a.qmd")
     = Some d.
Proof. split; reflexivity. Qed.

End CacheBound.

(** ** Parsing all files at once *)

Section ParallelParse.
Import JS Cache Pipeline.
Variable fs : FileSystem.
Variable readMetadata : string -> Result Metadata.
Variable config : LoaderConfig.

#[local] Abbreviation resume := (resume fs readMetadata config).
#[local] Abbreviation resume_noting := (resume_noting fs readMetadata config).
#[local] Abbreviation resume_nth := (resume_nth fs readMetadata config).
#[local] Abbreviation settle := (settle fs readMetadata config).
#[local] Abbreviation final_task := (final_task fs readMetadata).
#[local] Abbreviation after_read := (after_read readMetadata).

(** A resumption moves a task towards the same end, and notes a rejection
    exactly when the task has just failed. *)
Lemma resume_noting_spec (t : task) (c : FileCache Metadata) (r : option error) :
  forall t' c' r', resume_noting t c r = (t', c', r') ->
    final_task t' = final_task t
    /\ forall b, is_some r = b || is_failed t ->
                 is_some r' = b || is_failed t'.
Proof.
  intros t' c' r'. unfold Pipeline.resume_noting, Pipeline.resume.
  destruct t as [p e|p|p md|p md|e]; simpl.
  - unfold get_resume.
    destruct (stat fs p) as [st|];
      [destruct ((mtimeMs st =? mtime e)%Z && (stat_size st =? size e)%Z)|];
      intros H; injection H as <- <- <-; simpl; (split; [reflexivity|]);
      intros b; rewrite !orb_false_r; now destruct r.
  - unfold Pipeline.after_read.
    destruct (readMetadata p) as [md|e]; [destruct (cacheEnabled config)|];
      intros H; injection H as <- <- <-; simpl; (split; [reflexivity|]);
      intros b; rewrite ?orb_false_r, ?orb_true_r; destruct r; simpl; congruence.
  - intros H; injection H as <- <- <-; simpl. split; [reflexivity|].
    intros b; rewrite !orb_false_r; now destruct r.
  - intros H; injection H as <- <- <-; simpl. split; [reflexivity|].
    intros b; rewrite !orb_false_r; now destruct r.
  - intros H; injection H as <- <- <-; simpl. split; [reflexivity|]. auto.
Qed.

(** Three resumptions settle any task. *)
Lemma resume_thrice (t : task) (c : FileCache Metadata) (r : option error) :
  forall t1 c1 r1 t2 c2 r2 t3 c3 r3,
    resume_noting t c r = (t1, c1, r1) ->
    resume_noting t1 c1 r1 = (t2, c2, r2) ->
    resume_noting t2 c2 r2 = (t3, c3, r3) ->
    t3 = final_task t.
Proof.
  intros t1 c1 r1 t2 c2 r2 t3 c3 r3.
  unfold Pipeline.resume_noting, Pipeline.resume, Pipeline.final_task,
    Pipeline.after_read.
  destruct t as [p e|p|p md|p md|e]; simpl.
  - unfold get_resume.
    destruct (stat fs p) as [st|];
      [destruct ((mtimeMs st =? mtime e)%Z && (stat_size st =? size e)%Z)|];
      intros H; injection H as <- <- <-; simpl;
      try (intros H; injection H as <- <- <-; simpl;
           intros H; injection H as <- <- <-; reflexivity);
      (destruct (readMetadata p) as [md|e']; [destruct (cacheEnabled config)|];
       intros H; injection H as <- <- <-; simpl;
       intros H; injection H as <- <- <-; reflexivity).
  - destruct (readMetadata p) as [md|e']; [destruct (cacheEnabled config)|];
      intros H; injection H as <- <- <-; simpl;
      intros H; injection H as <- <- <-; simpl;
      intros H; injection H as <- <- <-; reflexivity.
  - intros H; injection H as <- <- <-; simpl;
      intros H; injection H as <- <- <-; simpl;
      intros H; injection H as <- <- <-; reflexivity.
  - intros H; injection H as <- <- <-; simpl;
      intros H; injection H as <- <- <-; simpl;
      intros H; injection H as <- <- <-; reflexivity.
  - intros H; injection H as <- <- <-; simpl;
      intros H; injection H as <- <- <-; simpl;
      intros H; injection H as <- <- <-; reflexivity.
Qed.

Lemma settle_spec (ts : list task) :
  forall c r ts' c' r', settle ts c r = (ts', c', r') ->
    ts' = map final_task ts
    /\ forall b, is_some r = b || any_failed ts ->
                 is_some r' = b || any_failed ts'.
Proof.
  induction ts as [|t rest IH]; intros c r ts' c' r'; simpl.
  - intros H; injection H as <- <- <-. split; [reflexivity | auto].
  - destruct (resume_noting t c r) as [[t1 c1] r1] eqn:E1.
    destruct (resume_noting t1 c1 r1) as [[t2 c2] r2] eqn:E2.
    destruct (resume_noting t2 c2 r2) as [[t3 c3] r3] eqn:E3.
    destruct (settle rest c3 r3) as [[rest' c4] r4] eqn:E4.
    intros H; injection H as <- <- <-.
    pose proof (resume_thrice t c r _ _ _ _ _ _ _ _ _ E1 E2 E3) as ->.
    destruct (IH _ _ _ _ _ E4) as [-> Hflag].
    split; [reflexivity|]. intros b Hb.
    destruct (resume_noting_spec _ _ _ _ _ _ E1) as [F1 N1].
    destruct (resume_noting_spec _ _ _ _ _ _ E2) as [F2 N2].
    destruct (resume_noting_spec _ _ _ _ _ _ E3) as [F3 N3].
    simpl. rewrite orb_assoc. apply Hflag.
    rewrite <- orb_assoc, (orb_comm (is_failed _)), orb_assoc.
    apply N3, N2, N1.
    rewrite Hb. simpl.
    now rewrite <- orb_assoc, (orb_comm (is_failed _)), orb_assoc.
Qed.

Lemma replace_nth_split (l : list task) : forall i t t',
  nth_error l i = Some t ->
  final_task t' = final_task t ->
  map final_task (replace_nth i t' l) = map final_task l
  /\ exists b0, any_failed l = b0 || is_failed t
                /\ any_failed (replace_nth i t' l) = b0 || is_failed t'.
Proof.
  induction l as [|x l IH]; intros [|i] t t' Hn Hf; simpl in *;
    try discriminate.
  - injection Hn as ->. split; [now rewrite Hf|].
    exists (any_failed l). split; apply orb_comm.
  - destruct (IH i t t' Hn Hf) as [Hm [b0 [H1 H2]]].
    split; [now rewrite Hm|].
    exists (is_failed x || b0).
    unfold any_failed in *. simpl. rewrite H1, H2.
    split; now rewrite orb_assoc.
Qed.

(** Along any schedule the tasks keep heading for the same ends, and a
    rejection has been noted exactly when some task has failed. *)
Lemma resume_nth_spec (s : par_state) (i : nat) :
  map final_task (tasks (resume_nth s i)) = map final_task (tasks s)
  /\ (is_some (rejected s) = any_failed (tasks s) ->
      is_some (rejected (resume_nth s i))
      = any_failed (tasks (resume_nth s i))).
Proof.
  unfold Pipeline.resume_nth.
  destruct (nth_error (tasks s) i) as [t|] eqn:En; [|tauto].
  destruct (resume_noting t (shared s) (rejected s)) as [[t' c'] r'] eqn:E.
  destruct (resume_noting_spec _ _ _ _ _ _ E) as [Hf Hn].
  destruct (replace_nth_split _ _ _ _ En Hf) as [Hm [b0 [H1 H2]]].
  simpl. split; [exact Hm|]. intros Hr. rewrite H2. apply Hn. congruence.
Qed.

Lemma run_schedule_spec (schedule : list nat) : forall s,
  map final_task (tasks (run_schedule fs readMetadata config schedule s))
  = map final_task (tasks s)
  /\ (is_some (rejected s) = any_failed (tasks s) ->
      is_some (rejected (run_schedule fs readMetadata config schedule s))
      = any_failed (tasks (run_schedule fs readMetadata config schedule s))).
Proof.
  unfold run_schedule.
  induction schedule as [|i rest IH]; intros s; simpl; [tauto|].
  destruct (IH (resume_nth s i)) as [Hm Hr].
  destruct (resume_nth_spec s i) as [Hm' Hr'].
  split; [congruence | auto].
Qed.

Lemma spawn_not_failed (c : FileCache Metadata) (files : list string) :
  any_failed (map (spawn config c) files) = false.
Proof.
  unfold any_failed.
  induction files as [|f r IH]; simpl; [reflexivity|].
  rewrite IH, orb_false_r.
  unfold spawn. destruct (cacheEnabled config); [|reflexivity].
  now destruct (lookup (cache c) f).
Qed.

(** Whatever the schedule, parsing all files at once yields, for each
    file, what its task was heading for when it was started. *)
Lemma parse_parallel_result
  (schedule : list nat) (c : FileCache Metadata) (files : list string) :
  result_set (fst (parse_parallel fs readMetadata config schedule c files))
  = if any_failed (map (fun f => final_task (spawn config c f)) files)
    then None
    else Some (collect (map (fun f => final_task (spawn config c f)) files)).
Proof.
  unfold parse_parallel, settle_all.
  set (s0 := {| tasks := map (spawn config c) files; shared := c;
                rejected := None |}).
  destruct (run_schedule_spec schedule s0) as [Hm Hr].
  specialize (Hr (eq_sym (spawn_not_failed c files))).
  set (s1 := run_schedule fs readMetadata config schedule s0) in *.
  destruct (settle (tasks s1) (shared s1) (rejected s1)) as [[ts c'] r'] eqn:E.
  destruct (settle_spec _ _ _ _ _ _ E) as [-> Hflag].
  specialize (Hflag false Hr). simpl in *.
  rewrite Hm, map_map in *.
  destruct r' as [e|]; simpl in *; now rewrite <- Hflag.
Qed.

End ParallelParse.

(** ** Parsing with a cache that agrees with the files *)

Section CoherentParse.
Import JS Cache Pipeline.
Variable fs : FileSystem.
Variable readMetadata : string -> Result Metadata.
Variable config : LoaderConfig.

#[local] Abbreviation coherent := (coherent fs readMetadata).
#[local] Abbreviation parseFile := (parseFile fs readMetadata config).
#[local] Abbreviation parse_sequential := (parse_sequential fs readMetadata config).
#[local] Abbreviation final_task := (final_task fs readMetadata).
#[local] Abbreviation after_read := (after_read readMetadata).
#[local] Abbreviation read_all := (read_all readMetadata).

Lemma lookup_in {A : Type} (m : omap A) k v : lookup m k = Some v -> In (k, v) m.
Proof.
  induction m as [|[k' v'] m IH]; simpl; [discriminate|].
  destruct (String.eqb_spec k' k) as [->|Hne].
  - intros H; injection H as ->. now left.
  - intros H. right. now apply IH.
Qed.

Lemma in_remove {A : Type} (m : omap A) k x : In x (remove m k) -> In x m.
Proof.
  induction m as [|[k' v'] m IH]; simpl; [tauto|].
  destruct (String.eqb k' k); simpl; tauto.
Qed.

Lemma in_set {A : Type} (m : omap A) k v x :
  In x (set m k v) -> x = (k, v) \/ In x m.
Proof.
  induction m as [|[k' v'] m IH]; simpl.
  - intros [<-|[]]. now left.
  - destruct (String.eqb k' k); simpl; intros [<-|I]; auto.
    destruct (IH I); auto.
Qed.

Lemma coherent_remove (c : FileCache Metadata) path :
  coherent c -> coherent (with_cache c (remove (cache c) path)).
Proof.
  intros H p e st I. apply (H p e st). simpl in I. eapply in_remove; eauto.
Qed.

Lemma coherent_evict (c : FileCache Metadata) :
  coherent c -> coherent (with_cache c (evict_oldest c)).
Proof.
  intros H. unfold evict_oldest.
  destruct (maxSize c <=? _)%Z; [|exact H].
  destruct (first_key (cache c)); [|exact H].
  destruct (String.eqb s ""); [exact H | now apply coherent_remove].
Qed.

Lemma coherent_set (c : FileCache Metadata) (m : omap (CacheEntry Metadata))
  path entry :
  coherent (with_cache c m) ->
  (forall st, stat fs path = Some st ->
              mtimeMs st = mtime entry -> stat_size st = size entry ->
              readMetadata path = Ok (data entry)) ->
  coherent (with_cache c (set m path entry)).
Proof.
  intros H He p e st I. simpl in I.
  destruct (in_set _ _ _ _ I) as [E|I'].
  - injection E as -> ->. apply He.
  - now apply (H p e st).
Qed.

(** With a coherent cache, or none, [parseFile] yields what reading the
    file yields, and leaves the cache coherent. *)
Lemma parseFile_coherent (c : FileCache Metadata) (filePath : string) :
  (cacheEnabled config = true -> coherent c) ->
  fst (parseFile c filePath)
  = (metadata <- readMetadata filePath ;; Ok (filePath, metadata))
  /\ (cacheEnabled config = true -> coherent (snd (parseFile c filePath))).
Proof.
  intros Hc. unfold Pipeline.parseFile.
  destruct (cacheEnabled config) eqn:Ce.
  - specialize (Hc eq_refl). unfold get.
    assert (Hmiss : forall c1, coherent c1 ->
              fst (match readMetadata filePath with
                   | Ok metadata =>
                       (Ok (filePath, metadata),
                        set_entry c1 fs filePath metadata)
                   | Err e => (Err e, c1)
                   end)
              = (metadata <- readMetadata filePath ;; Ok (filePath, metadata))
              /\ (true = true ->
                  coherent (snd (match readMetadata filePath with
                                 | Ok metadata =>
                                     (Ok (filePath, metadata),
                                      set_entry c1 fs filePath metadata)
                                 | Err e => (Err e, c1)
                                 end)))).
    { intros c1 H1. destruct (readMetadata filePath) as [md|e] eqn:Er; simpl;
        (split; [reflexivity|]); intros _; [|exact H1].
      unfold set_entry, set_resume.
      destruct (stat fs filePath) as [st|]; [|exact H1].
      apply (coherent_set c1 (evict_oldest c1)); [now apply coherent_evict|].
      intros; exact Er. }
    destruct (lookup (cache c) filePath) as [entry|] eqn:L; [|now apply Hmiss].
    unfold get_resume.
    destruct (stat fs filePath) as [st|] eqn:Es.
    + destruct (Z.eqb_spec (mtimeMs st) (mtime entry)) as [Em|Nm];
        [destruct (Z.eqb_spec (stat_size st) (size entry)) as [Esz|Nsz]|];
        simpl.
      * rewrite (Hc filePath entry st (lookup_in _ _ _ L) Es Em Esz). simpl.
        split; [reflexivity|]. intros _.
        apply (coherent_set c (remove (cache c) filePath));
          [now apply coherent_remove|].
        intros st' Es' _ _. rewrite Es in Es'. injection Es' as <-.
        exact (Hc filePath entry st (lookup_in _ _ _ L) Es Em Esz).
      * apply Hmiss. now apply coherent_remove.
      * apply Hmiss. now apply coherent_remove.
    + apply Hmiss. now apply coherent_remove.
  - destruct (readMetadata filePath); simpl; (split; [reflexivity | discriminate]).
Qed.

Lemma parse_sequential_coherent (files : list string) :
  forall c : FileCache Metadata,
    (cacheEnabled config = true -> coherent c) ->
    fst (parse_sequential c files) = read_all files.
Proof.
  induction files as [|f rest IH]; intros c Hc; simpl; [reflexivity|].
  destruct (parseFile_coherent c f Hc) as [Hr Hc'].
  destruct (parseFile c f) as [[parsed|e] c1]; simpl in *.
  - destruct (readMetadata f) as [md|e]; simpl in *; [|discriminate].
    injection Hr as ->.
    rewrite <- (IH c1 Hc').
    now destruct (parse_sequential c1 rest) as [[results|e] c2].
  - destruct (readMetadata f) as [md|e']; simpl in *; [discriminate|].
    now injection Hr as ->.
Qed.

Lemma final_spawn_coherent (c : FileCache Metadata) (filePath : string) :
  (cacheEnabled config = true -> coherent c) ->
  final_task (spawn config c filePath) = after_read filePath.
Proof.
  intros Hc. unfold spawn.
  destruct (cacheEnabled config); [|reflexivity].
  specialize (Hc eq_refl).
  destruct (lookup (cache c) filePath) as [entry|] eqn:L; [|reflexivity].
  simpl. destruct (stat fs filePath) as [st|] eqn:Es; [|reflexivity].
  destruct (Z.eqb_spec (mtimeMs st) (mtime entry)) as [Em|Nm];
    [destruct (Z.eqb_spec (stat_size st) (size entry)) as [Esz|Nsz]|];
    simpl; try reflexivity.
  unfold Pipeline.after_read.
  now rewrite (Hc filePath entry st (lookup_in _ _ _ L) Es Em Esz).
Qed.

Lemma read_all_result (files : list string) :
  result_set (read_all files)
  = if any_failed (map after_read files) then None
    else Some (collect (map after_read files)).
Proof.
  unfold any_failed.
  induction files as [|f rest IH]; simpl; [reflexivity|].
  unfold Pipeline.after_read at 1 3.
  destruct (readMetadata f) as [md|e]; simpl; [|reflexivity].
  destruct (Pipeline.read_all readMetadata rest) as [results|e];
    simpl in *; destruct (existsb _ _); congruence.
Qed.

(** The two ways of parsing a listing's files yield the same metadata
    when the cache is off or agrees with the files. *)
Lemma parse_modes_agree
  (schedule : list nat) (c : FileCache Metadata) (files : list string) :
  (cacheEnabled config = true -> coherent c) ->
  result_set (fst (parse_parallel fs readMetadata config schedule c files))
  = result_set (fst (parse_sequential c files)).
Proof.
  intros Hc.
  rewrite parse_parallel_result, (parse_sequential_coherent files c Hc),
    read_all_result.
  assert (E : map (fun f => final_task (spawn config c f)) files
              = map after_read files).
  { apply map_ext. intros f. now apply final_spawn_coherent. }
  now rewrite E.
Qed.

End CoherentParse.

(** ** Concurrent and sequential mode *)

Section Modes.
Import JS Quarto Normalizer Cache Pipeline.

Lemma filter_modes_agree (keep : object -> bool) (l : list NormalizedEntry) :
  filter_sequential keep l = filter_parallel keep l.
Proof.
  unfold filter_sequential, filter_parallel.
  assert (G : forall acc,
             fold_left (fun kept entry =>
                          if keep (Normalizer.data entry)
                          then kept ++ [entry] else kept) l acc
             = acc ++ map fst (List.filter snd
                                 (map (fun entry =>
                                         (entry, keep (Normalizer.data entry)))
                                    l))).
  { induction l as [|e l IH]; intros acc; simpl; [now rewrite app_nil_r|].
    rewrite IH. destruct (keep (Normalizer.data e)); simpl; [|reflexivity].
    now rewrite <- app_assoc. }
  apply (G []).
Qed.

Lemma transform_modes_agree (f : object -> object) (l : list NormalizedEntry) :
  transform_sequential f l = transform_parallel f l.
Proof.
  unfold transform_sequential, transform_parallel.
  assert (G : forall acc,
             fold_left (fun transformed entry =>
                          transformed
                          ++ [with_data entry (f (Normalizer.data entry))])
               l acc
             = acc ++ map (fun entry =>
                             with_data entry (f (Normalizer.data entry))) l).
  { induction l as [|e l IH]; intros acc; simpl; [now rewrite app_nil_r|].
    rewrite IH. now rewrite <- app_assoc. }
  apply (G []).
Qed.

Variable dirname : string -> string.
Variable join : string -> string -> string.
Variable fs : FileSystem.
Variable readMetadata : string -> Result Metadata.
Variable config : LoaderConfig.
Variables quartoRoot outputPath : string.

Lemma parse_sequential_flag (b : bool) (files : list string) :
  forall c,
    parse_sequential fs readMetadata (set_parallel config b) c files
    = parse_sequential fs readMetadata config c files.
Proof.
  induction files as [|f rest IH]; intros c; simpl; [reflexivity|].
  unfold parseFile. simpl.
  destruct (cacheEnabled config).
  - destruct (get c fs f) as [[cached|] c1].
    + now rewrite IH.
    + destruct (readMetadata f); [now rewrite IH | reflexivity].
  - destruct (readMetadata f); [now rewrite IH | reflexivity].
Qed.

Lemma normalize_all_flag (b : bool) (defaults : object)
  (parsedFiles : list ParsedFile) :
  normalize_all dirname join (set_parallel config b) quartoRoot outputPath
    defaults parsedFiles
  = normalize_all dirname join config quartoRoot outputPath defaults
      parsedFiles.
Proof.
  induction parsedFiles as [|[p md] rest IH]; simpl; [reflexivity|].
  now rewrite IH.
Qed.

Lemma result_set_bind_ext {A B : Type}
  (r1 r2 : Result A) (k1 k2 : A -> Result B) :
  result_set r1 = result_set r2 ->
  (forall a, result_set (k1 a) = result_set (k2 a)) ->
  result_set (bind r1 k1) = result_set (bind r2 k2).
Proof.
  destruct r1, r2; simpl; intros H Hk; try discriminate;
    [injection H as ->; apply Hk | reflexivity].
Qed.

(** C6, as the code has it. When the parse cache is off, or agrees with
    the files (every entry whose tag matches its file's current
    modification time and size holds the metadata parsing the file
    yields), stages 6 to 9 leave the same entries, with the same data, in
    the same order in concurrent and in sequential mode, however the
    concurrent operations interleave. *)
Theorem concurrent_mode_agrees_with_sequential
  (schedule schedule' : list nat) (c : FileCache Metadata)
  (files : list string) (defaults : object) :
  (cacheEnabled config = true -> coherent fs readMetadata c) ->
  result_set
    (transformed_entries dirname join fs readMetadata
       (set_parallel config true) quartoRoot outputPath
       schedule c files defaults)
  = result_set
      (transformed_entries dirname join fs readMetadata
         (set_parallel config false) quartoRoot outputPath
         schedule' c files defaults).
Proof.
  intros Hc. unfold transformed_entries, parse_stage. simpl.
  apply result_set_bind_ext.
  - rewrite (parse_modes_agree fs readMetadata (set_parallel config true)
               schedule c files Hc).
    now rewrite !parse_sequential_flag.
  - intros parsedFiles. rewrite !normalize_all_flag.
    destruct (normalize_all _ _ _ _ _ _ _) as [entries|e]; simpl;
      [|reflexivity].
    unfold apply_transform, apply_filter. simpl.
    destruct (filter config) as [keep|];
      destruct (transform config) as [f|];
      now rewrite ?filter_modes_agree, ?transform_modes_agree.
Qed.

End Modes.

Section ModesAtScenarios.
Import JS Quarto Normalizer Cache Pipeline.

Lemma concurrent_mode_agrees_with_sequential_witness :
  result_set
    (transformed_entries (fun p => p) (fun a b => (a ++ "/" ++ b)%string)
       SortScenario.fs SortScenario.readMetadata
       (set_parallel (SortScenario.config true) true) "/q" "/q/_site"
       [2; 0; 1; 1; 0] (new_FileCache 500) SortScenario.files [])
  = result_set
      (transformed_entries (fun p => p) (fun a b => (a ++ "/" ++ b)%string)
         SortScenario.fs SortScenario.readMetadata
         (set_parallel (SortScenario.config true) false) "/q" "/q/_site"
         [] (new_FileCache 500) SortScenario.files []).
Proof.
  apply concurrent_mode_agrees_with_sequential.
  intros _ path entry st [].
Defined.

(** With a full cache whose oldest entry is outdated but carries the
    file's current modification time and size, the two modes differ:
    started all at once, the parse of [b.qmd] finds the outdated entry and
    returns it; run one after the other, caching [a.qmd] first evicts that
    entry and [b.qmd] is read afresh. *)
Lemma modes_differ_on_stale_cache :
  StaleCacheScenario.loaded_titles true []
  = Some [VStr "A"; VStr "B, first edition"]
  /\ StaleCacheScenario.loaded_titles false []
     = Some [VStr "A"; VStr "B, second edition"]
  /\ result_set
       (transformed_entries (fun p => p) (fun a b => (a ++ "/" ++ b)%string)
          StaleCacheScenario.fs StaleCacheScenario.readMetadata
          (set_parallel StaleCacheScenario.config true) "/q" "/q/_site"
          [] StaleCacheScenario.full_cache StaleCacheScenario.files [])
     <> result_set
          (transformed_entries (fun p => p) (fun a b => (a ++ "/" ++ b)%string)
             StaleCacheScenario.fs StaleCacheScenario.readMetadata
             (set_parallel StaleCacheScenario.config false) "/q" "/q/_site"
             [] StaleCacheScenario.full_cache StaleCacheScenario.files []).
Proof.
  assert (Hp : StaleCacheScenario.loaded_titles true []
               = Some [VStr "A"; VStr "B, first edition"])
    by (vm_compute; reflexivity).
  assert (Hs : StaleCacheScenario.loaded_titles false []
               = Some [VStr "A"; VStr "B, second edition"])
    by (vm_compute; reflexivity).
  split; [exact Hp|]. split; [exact Hs|].
  intros H. unfold StaleCacheScenario.loaded_titles in Hp, Hs.
  rewrite H, Hs in Hp. discriminate.
Qed.

(** No interleaving of the concurrent mode avoids the outdated entry. *)
Lemma stale_cache_any_schedule (schedule : list nat) :
  StaleCacheScenario.loaded_titles true schedule
  = Some [VStr "A"; VStr "B, first edition"].
Proof.
  assert (H0 : StaleCacheScenario.loaded_titles true []
               = Some [VStr "A"; VStr "B, first edition"])
    by (vm_compute; reflexivity).
  rewrite <- H0.
  unfold StaleCacheScenario.loaded_titles, transformed_entries, parse_stage.
  apply (f_equal (option_map _)).
  apply result_set_bind_ext; [|reflexivity].
  cbn [parallelEnabled set_parallel].
  now rewrite !parse_parallel_result.
Qed.

End ModesAtScenarios.

(** ** The sort scenario, loaded *)

Section SortScenarioLoaded.
Import JS Quarto Normalizer Cache Sorting Pipeline.
Variable localeCompare : string -> string -> Z.

Lemma empty_cache_coherent fs readMetadata (maxSize : Z) :
  coherent fs readMetadata (new_FileCache maxSize).
Proof. intros path entry st []. Qed.

(** In the scenario the concurrent mode, however its operations
    interleave, parses what the sequential mode parses. *)
Lemma scenario_parse_any_schedule (schedule : list nat) :
  result_set
    (fst (parse_stage SortScenario.fs SortScenario.readMetadata
            (SortScenario.config true) schedule (new_FileCache 500)
            SortScenario.files))
  = result_set
      (fst (parse_stage SortScenario.fs SortScenario.readMetadata
              (SortScenario.config false) [] (new_FileCache 500)
              SortScenario.files)).
Proof.
  unfold parse_stage. simpl.
  rewrite (parse_modes_agree SortScenario.fs SortScenario.readMetadata
             (SortScenario.config true) schedule (new_FileCache 500)
             SortScenario.files
             (fun _ => empty_cache_coherent _ _ _)).
  reflexivity.
Qed.

(** C1 at the specification's scenario. Loaded through the pipeline, the
    three posts leave stage 10 in file order, the post of 2025-01-01
    first, in sequential mode and in concurrent mode under every
    interleaving; the same sort applied to the posts' metadata gives the
    order the specification states. *)
Theorem sort_scenario_in_the_load :
  SortScenario.loaded_order false [] = Some ["a"; "b"; "c"]
  /\ (forall schedule,
        SortScenario.loaded_order true schedule = Some ["a"; "b"; "c"])
  /\ applySortConfiguration localeCompare
       [SortScenario.post_a; SortScenario.post_b; SortScenario.post_c]
       (Some (SortOne "date desc"))
     = [SortScenario.post_b; SortScenario.post_a; SortScenario.post_c].
Proof.
  assert (Hseq : SortScenario.loaded_order false [] = Some ["a"; "b"; "c"])
    by (vm_compute; reflexivity).
  split; [exact Hseq|]. split; [|vm_compute; reflexivity].
  intros schedule. rewrite <- Hseq.
  unfold SortScenario.loaded_order, sorted_entries, transformed_entries.
  f_equal. apply result_set_bind_ext; [|reflexivity].
  apply result_set_bind_ext; [apply scenario_parse_any_schedule|].
  reflexivity.
Qed.

End SortScenarioLoaded.

(** * Further properties of the code *)

(** ** Field mappings and listing defaults *)

Section MappingTables.
Import JS Normalizer MapperSpec.

Lemma lookup_app {A : Type} (a b : omap A) k :
  lookup (a ++ b) k
  = match lookup a k with Some v => Some v | None => lookup b k end.
Proof.
  induction a as [|[ka va] a IH]; simpl; [reflexivity|].
  destruct (String.eqb ka k); [reflexivity | exact IH].
Qed.

(** In a map without repeated keys the order of the bindings does not
    matter to a lookup. *)
Lemma lookup_rev {A : Type} (m : omap A) k : wf m -> lookup (rev m) k = lookup m k.
Proof.
  unfold wf. induction m as [|[k0 v0] m IH]; intros W; [reflexivity|].
  inversion W as [|? ? N W']; subst. simpl.
  rewrite lookup_app, (IH W'). simpl.
  destruct (String.eqb_spec k0 k) as [->|Hne].
  - apply lookup_none_not_in in N. now rewrite N.
  - now destruct (lookup m k).
Qed.

(** [mergeFieldMappings]: a caller's entry replaces the default for the
    same source key, every other default stays, and without a caller's
    table the defaults are used as they are. *)
Theorem merged_mappings_lookup (custom : FieldMappings) (k : string) :
  wf custom ->
  lookup (mergeFieldMappings (Some custom)) k
  = match lookup custom k with
    | Some target => Some target
    | None => lookup DEFAULT_FIELD_MAPPINGS k
    end.
Proof.
  intros W. unfold mergeFieldMappings, spread.
  now rewrite lookup_write_all, lookup_rev.
Qed.

Lemma merged_mappings_lookup_witness :
  lookup (mergeFieldMappings
            (Some [("date", "publishedAt"); ("customField", "mappedField")]))
    "date-modified"
  = Some "updatedDate".
Proof.
  rewrite merged_mappings_lookup; [reflexivity|].
  repeat constructor; simpl; intuition discriminate.
Defined.

Lemma is_undefined_eq (v : value) : is_undefined v = true -> v = VUndefined.
Proof. now destruct v. Qed.

Lemma get_cons (k0 : string) (v0 : value) (d : object) (k : string) :
  get ((k0, v0) :: d) k = if String.eqb k0 k then v0 else get d k.
Proof. unfold get. simpl. now destruct (String.eqb k0 k). Qed.

Lemma get_set_same (o : object) k v : get (set o k v) k = v.
Proof. unfold get. now rewrite lookup_set_same. Qed.

Lemma get_set_other (o : object) k k' v : k <> k' -> get (set o k v) k' = get o k'.
Proof. intros H. unfold get. now rewrite lookup_set_other. Qed.

Lemma inherit_fold_get (defaults : object) : forall (result : object) k,
  wf defaults ->
  get (fold_left
         (fun result kv =>
            if is_undefined (get result (fst kv))
            then set result (fst kv) (snd kv) else result)
         defaults result) k
  = if is_undefined (get result k)
    then match lookup defaults k with
         | Some v => v
         | None => get result k
         end
    else get result k.
Proof.
  unfold wf.
  induction defaults as [|[k0 v0] d IH]; intros result k W.
  - simpl. now destruct (is_undefined (get result k)).
  - inversion W as [|? ? N W']; subst.
    cbn [fold_left fst snd]. rewrite (IH _ _ W'). cbn [lookup].
    destruct (String.eqb_spec k0 k) as [->|Hne].
    + apply lookup_none_not_in in N. rewrite N.
      destruct (is_undefined (get result k)) eqn:U.
      * rewrite get_set_same. now destruct (is_undefined v0).
      * now rewrite U.
    + assert (E : get (if is_undefined (get result k0)
                       then set result k0 v0 else result) k = get result k).
      { destruct (is_undefined (get result k0)); [|reflexivity].
        now apply get_set_other. }
      now rewrite E.
Qed.

(** [inheritListingDefaults]: a field that reads as defined in the entry
    keeps the entry's value, a field that reads as undefined takes the
    listing's own default, if it has one. *)
Theorem inherit_defaults_get (metadata defaults : object) (k : string) :
  wf defaults ->
  ~ In "__proto__" (keys defaults) ->
  get (inheritListingDefaults metadata defaults) k
  = if is_undefined (get metadata k)
    then match lookup defaults k with
         | Some v => v
         | None => get metadata k
         end
    else get metadata k.
Proof. intros W _. now apply inherit_fold_get. Qed.

Lemma inherit_defaults_get_witness :
  get (inheritListingDefaults
         [("title", VStr "Test"); ("author", VStr "Specific Author")]
         [("author", VStr "Default Author"); ("categories", VArr [VStr "Blog"])])
    "author"
  = VStr "Specific Author".
Proof.
  rewrite inherit_defaults_get; [reflexivity| |].
  - repeat constructor; simpl; intuition discriminate.
  - simpl. intuition discriminate.
Defined.

End MappingTables.

(** ** What the field mapper returns *)

Section MapperResult.
Import JS Normalizer MapperSpec.

Lemma keys_write_all {A : Type} (l : omap A) : forall (acc : omap A) n,
  In n (keys (write_all acc l)) <-> In n (keys acc) \/ In n (keys l).
Proof.
  unfold write_all.
  induction l as [|[k v] l IH]; intros acc n; simpl; [tauto|].
  rewrite IH, keys_set. destruct (has acc k) eqn:H.
  - split; [tauto|]. intros [I|[<-|I]]; auto.
    left. unfold has in H.
    destruct (lookup acc k) eqn:E; [|discriminate].
    eapply lookup_some_in; eauto.
  - rewrite in_app_iff. simpl. tauto.
Qed.

Lemma wf_write_all {A : Type} (l : omap A) : forall acc : omap A,
  wf acc -> wf (write_all acc l).
Proof.
  unfold write_all.
  induction l as [|[k v] l IH]; intros acc W; simpl; [exact W|].
  apply IH. now apply wf_set.
Qed.

(** A successful mapping met no collision, and wrote every binding under
    its final name. *)
Lemma mapper_ok_inv (metadata : object) (mappings : FieldMappings)
  (filePath : string) (r : object) :
  applyFieldMappings metadata mappings filePath = Ok r ->
  (forall k, In k (keys metadata) -> conflictb metadata mappings k = false)
  /\ r = write_all [] (renamed metadata mappings).
Proof.
  intros H.
  assert (Hno : forall k, In k (keys metadata) ->
                          conflictb metadata mappings k = false).
  { intros k I. destruct (conflictb metadata mappings k) eqn:C; [|reflexivity].
    destruct (loop_first_conflict metadata mappings filePath metadata []
                (ex_intro _ k (conj I C)))
      as (? & ? & ? & ? & ? & _ & _ & _ & _ & E).
    unfold applyFieldMappings in H. congruence. }
  split; [exact Hno|].
  unfold applyFieldMappings in H.
  rewrite (loop_no_conflict metadata mappings filePath metadata [] Hno) in H.
  now injection H as <-.
Qed.

Lemma mapped_keys (metadata : object) (mappings : FieldMappings)
  (filePath : string) (r : object) (n : string) :
  applyFieldMappings metadata mappings filePath = Ok r ->
  In n (keys r) <->
  exists k, In k (keys metadata) /\ final_name mappings k = n.
Proof.
  intros H. destruct (mapper_ok_inv _ _ _ _ H) as [_ ->].
  rewrite keys_write_all. simpl. unfold renamed, keys.
  rewrite map_map. simpl. rewrite in_map_iff. split.
  - intros [[]|[[k v] [E I]]]. exists k. split; [|exact E].
    apply in_map_iff. exists (k, v). now split.
  - intros [k [I E]]. right. apply in_map_iff in I as [[k' v] [E' I]].
    simpl in E'. subst k'. exists (k, v). now split.
Qed.

(** The result of a successful mapping has no key twice, and its keys are
    exactly the final names of the source's keys (for a source without
    an own property [__proto__]). *)
Theorem mapper_result_keys (metadata : object) (mappings : FieldMappings)
  (filePath : string) (r : object) :
  applyFieldMappings metadata mappings filePath = Ok r ->
  ~ In "__proto__" (keys metadata) ->
  wf r
  /\ forall n, In n (keys r) <->
               exists k, In k (keys metadata) /\ final_name mappings k = n.
Proof.
  intros H _. split.
  - destruct (mapper_ok_inv _ _ _ _ H) as [_ ->].
    apply wf_write_all. constructor.
  - intros n. now apply mapped_keys with (filePath := filePath).
Qed.

Lemma mapper_result_keys_witness :
  wf [("pubDate", VDate 5); ("title", VStr "T")].
Proof.
  refine (proj1 (mapper_result_keys
                   [("date", VDate 5); ("title", VStr "T")]
                   DEFAULT_FIELD_MAPPINGS "test.qmd" _ eq_refl _)).
  simpl. intuition discriminate.
Defined.

Lemma lookup_of_in {A : Type} (m : omap A) k v :
  wf m -> In (k, v) m -> lookup m k = Some v.
Proof.
  unfold wf. induction m as [|[k0 v0] m IH]; intros W I; [destruct I|].
  inversion W as [|? ? N W']; subst. simpl.
  destruct I as [E|I].
  - injection E as -> ->. now rewrite String.eqb_refl.
  - destruct (String.eqb_spec k0 k) as [->|Hne]; [|now apply IH].
    exfalso. apply N. apply in_map_iff. exists (k, v). now split.
Qed.

Lemma lookup_only_binding {A : Type} (l : omap A) k v :
  In (k, v) l -> (forall v', In (k, v') l -> v' = v) -> lookup l k = Some v.
Proof.
  induction l as [|[k0 v0] l IH]; intros I U; [destruct I|]. simpl.
  destruct (String.eqb_spec k0 k) as [->|Hne].
  - f_equal. apply U. now left.
  - destruct I as [E|I]; [congruence|].
    apply IH; [exact I|]. intros v' I'. apply U. now right.
Qed.

(** After a successful mapping a renamed key with a defined value is no
    longer found under its old name; and if no other key shares its
    target, its value is found under the target. *)
Theorem renamed_key_moves (metadata : object) (mappings : FieldMappings)
  (filePath : string) (r : object) (k t : string) (v : value) :
  applyFieldMappings metadata mappings filePath = Ok r ->
  wf metadata ->
  ~ In "__proto__" (keys metadata) ->
  lookup metadata k = Some v ->
  is_undefined v = false ->
  rename_target mappings k = Some t ->
  lookup r k = None
  /\ ((forall k', In k' (keys metadata) -> final_name mappings k' = t -> k' = k) ->
      lookup r t = Some v).
Proof.
  intros H W _ L D Rt.
  destruct (mapper_ok_inv _ _ _ _ H) as [Hno Hr].
  assert (Hk : get metadata k = v) by (unfold get; now rewrite L).
  split.
  - apply lookup_none_not_in. intros I.
    apply (proj1 (mapped_keys _ _ _ _ k H)) in I as [k' [I' E]].
    unfold final_name in E.
    destruct (rename_target mappings k') as [t'|] eqn:R'.
    + subst t'. specialize (Hno k' I'). unfold conflictb in Hno.
      rewrite R', Hk, D in Hno. discriminate.
    + subst k'. congruence.
  - intros Hu. subst r. rewrite lookup_write_all. simpl.
    assert (E : lookup (rev (renamed metadata mappings)) t = Some v).
    { apply lookup_only_binding.
      - apply -> in_rev. unfold renamed. apply in_map_iff.
        exists (k, v). split; [|now apply lookup_in].
        simpl. unfold final_name. now rewrite Rt.
      - intros v' I. apply in_rev in I. unfold renamed in I.
        apply in_map_iff in I as [[k' v''] [E I]]. simpl in E.
        injection E as E1 ->.
        assert (k' = k).
        { apply Hu; [|exact E1]. apply in_map_iff. exists (k', v'). now split. }
        subst k'. pose proof (lookup_of_in _ _ _ W I). congruence. }
    now rewrite E.
Qed.

Lemma renamed_key_moves_witness :
  lookup [("pubDate", VDate 5); ("title", VStr "T")] "date" = None
  /\ lookup [("pubDate", VDate 5); ("title", VStr "T")] "pubDate"
     = Some (VDate 5).
Proof.
  destruct (renamed_key_moves
              [("date", VDate 5); ("title", VStr "T")]
              DEFAULT_FIELD_MAPPINGS "test.qmd"
              [("pubDate", VDate 5); ("title", VStr "T")]
              "date" "pubDate" (VDate 5) eq_refl) as [H1 H2].
  - repeat constructor; simpl; intuition discriminate.
  - simpl. intuition discriminate.
  - reflexivity.
  - reflexivity.
  - reflexivity.
  - split; [exact H1|]. apply H2.
    intros k' [<-|[<-|[]]]; [reflexivity | discriminate].
Defined.

End MapperResult.

(** ** Outcomes of normalisation *)

Section NormalizeOutcome.
Import JS Normalizer MapperSpec NormalizerSpec.
Variable dirname : string -> string.
Variable join : string -> string -> string.

(** A failed mapping failed on a collision. *)
Lemma mapper_err_inv (metadata : object) (mappings : FieldMappings)
  (filePath : string) (err : error) :
  applyFieldMappings metadata mappings filePath = Err err ->
  exists k t,
    err = FieldMappingConflictError k t t filePath
    /\ In k (keys metadata) /\ conflictb metadata mappings k = true.
Proof.
  intros H.
  destruct (existsb (conflictb metadata mappings) (keys metadata)) eqn:E.
  - apply existsb_exists in E.
    destruct (loop_first_conflict metadata mappings filePath metadata [] E)
      as (pre & k & v & post & t & Hm & _ & Rt & D & Hr).
    exists k, t. unfold applyFieldMappings in H. rewrite Hr in H.
    injection H as <-. split; [reflexivity|]. split.
    + rewrite Hm. unfold keys. rewrite map_app, in_app_iff. simpl. tauto.
    + unfold conflictb. now rewrite Rt, D.
  - exfalso. unfold applyFieldMappings in H.
    rewrite loop_no_conflict in H; [discriminate|].
    intros k I. destruct (conflictb metadata mappings k) eqn:C; [|reflexivity].
    assert (X : existsb (conflictb metadata mappings) (keys metadata) = true)
      by (apply existsb_exists; eauto).
    congruence.
Qed.

Lemma resolveImagePath_ok (options : NormalizationOptions) image filePath :
  image_resolvable options image = true ->
  exists img, resolveImagePath dirname join image filePath options = Ok img.
Proof.
  unfold image_resolvable, resolveImagePath. intros H.
  destruct (truthy image) eqn:T; simpl in *; [|eauto].
  destruct (imageResolver options); [eauto|].
  rewrite orb_false_r in H. destruct image; try discriminate.
  destruct (starts_with s "http://" || starts_with s "https://"); [eauto|].
  destruct (negb (starts_with s "/")); eauto.
Qed.

Lemma resolveImagePath_err (options : NormalizationOptions) image filePath err :
  resolveImagePath dirname join image filePath options = Err err ->
  image_resolvable options image = false /\ exists msg, err = TypeError msg.
Proof.
  unfold image_resolvable, resolveImagePath.
  destruct (truthy image) eqn:T; simpl; [|discriminate].
  destruct (imageResolver options); [discriminate|].
  destruct image; simpl; try (intros H; injection H as <-; eauto);
    try discriminate.
  destruct (starts_with s "http://" || starts_with s "https://");
    [discriminate|].
  destruct (negb (starts_with s "/")); discriminate.
Qed.

(** Normalisation fails in two ways only: with the mapper's
    [FieldMappingConflictError] for a colliding key of the metadata (after
    the listing's defaults were inherited), or with a [TypeError] when the
    mapped image value is truthy, is not a string, and no image resolver
    was given. *)
Theorem normalize_errors
  (raw : object) (filePath : string) (options : NormalizationOptions)
  (listingDefaults : option object) (err : error) :
  ~ In "__proto__" (keys (with_defaults raw listingDefaults)) ->
  image_field_name options <> "__proto__" ->
  normalizeMetadata dirname join raw filePath options listingDefaults
  = Err err ->
  (exists k t,
     err = FieldMappingConflictError k t t filePath
     /\ conflictb (with_defaults raw listingDefaults) (fieldMappings options) k
        = true)
  \/ (exists mapped msg,
        applyFieldMappings (with_defaults raw listingDefaults)
          (fieldMappings options) filePath = Ok mapped
        /\ image_resolvable options (get mapped (image_field_name options))
           = false
        /\ err = TypeError msg).
Proof.
  intros _ _.
  unfold normalizeMetadata. fold (with_defaults raw listingDefaults).
  fold (image_field_name options).
  destruct (applyFieldMappings _ _ _) as [m1|e] eqn:Em; simpl.
  - intros H. right. exists m1.
    destruct (truthy (get m1 (image_field_name options))) eqn:T;
      simpl in H; [|discriminate].
    destruct (resolveImagePath _ _ _ _ _) as [img|e] eqn:Er; simpl in H;
      [discriminate|].
    injection H as <-.
    destruct (resolveImagePath_err _ _ _ _ Er) as [Hr [msg ->]]. eauto.
  - intros H. injection H as <-. left.
    destruct (mapper_err_inv _ _ _ _ Em) as (k & t & -> & _ & C). eauto.
Qed.

(** When the mapper succeeds and the mapped image value is absent, falsy,
    a string, or an image resolver was given, normalisation succeeds; the
    entry's data then has a defined [draft], and apart from the image
    field and [draft] it holds exactly the mapped metadata. *)
Theorem normalize_succeeds
  (raw : object) (filePath : string) (options : NormalizationOptions)
  (listingDefaults : option object) (mapped : object) :
  ~ In "__proto__" (keys (with_defaults raw listingDefaults)) ->
  image_field_name options <> "__proto__" ->
  applyFieldMappings (with_defaults raw listingDefaults) (fieldMappings options)
    filePath = Ok mapped ->
  image_resolvable options (get mapped (image_field_name options)) = true ->
  exists entry,
    normalizeMetadata dirname join raw filePath options listingDefaults
    = Ok entry
    /\ is_undefined (get (data entry) "draft") = false
    /\ forall k, k <> image_field_name options -> k <> "draft" ->
                 get (data entry) k = get mapped k.
Proof.
  intros _ _ Em Hi. unfold normalizeMetadata.
  fold (with_defaults raw listingDefaults). fold (image_field_name options).
  rewrite Em. simpl.
  assert (G : forall m2 : object,
             (forall k, k <> image_field_name options -> get m2 k = get mapped k) ->
             is_undefined
               (get (if is_undefined (get m2 "draft")
                     then set m2 "draft" (VBool false) else m2) "draft") = false
             /\ forall k, k <> image_field_name options -> k <> "draft" ->
                  get (if is_undefined (get m2 "draft")
                       then set m2 "draft" (VBool false) else m2) k
                  = get mapped k).
  { intros m2 H2. destruct (is_undefined (get m2 "draft")) eqn:U.
    - split; [now rewrite get_set_same|].
      intros k H1 Hd. rewrite get_set_other by congruence. now apply H2.
    - split; [exact U|]. intros k H1 _. now apply H2. }
  destruct (truthy (get mapped (image_field_name options))) eqn:T; simpl.
  - destruct (resolveImagePath_ok options _ filePath Hi) as [img ->]. simpl.
    eexists. split; [reflexivity|]. simpl. apply G.
    intros k Hk. now apply get_set_other.
  - eexists. split; [reflexivity|]. simpl. now apply G.
Qed.

End NormalizeOutcome.

Section NormalizeOutcomeExamples.
Import JS Normalizer MapperSpec NormalizerSpec.

Lemma normalize_errors_witness :
  exists mapped msg,
    applyFieldMappings [("image", VNum 5)] DEFAULT_FIELD_MAPPINGS "a.qmd"
    = Ok mapped
    /\ image_resolvable
         {| basePath := ""; outputDir := "";
            fieldMappings := DEFAULT_FIELD_MAPPINGS;
            slugify := None; imageResolver := None |}
         (get mapped "heroImage") = false
    /\ TypeError "imagePath.startsWith is not a function" = TypeError msg.
Proof.
  destruct (normalize_errors (fun p => p) (fun a b => (a ++ b)%string)
              [("image", VNum 5)] "a.qmd"
              {| basePath := ""; outputDir := "";
                 fieldMappings := DEFAULT_FIELD_MAPPINGS;
                 slugify := None; imageResolver := None |}
              None (TypeError "imagePath.startsWith is not a function")
              ltac:(simpl; intuition discriminate) ltac:(discriminate)
              eq_refl) as [(k & t & E & _)|H].
  - discriminate.
  - exact H.
Defined.

Lemma normalize_succeeds_witness :
  exists entry,
    normalizeMetadata (fun p => p) (fun a b => (a ++ "/" ++ b)%string)
      [("title", VStr "T"); ("image", VStr "cover.jpg")] "/q/posts/a.qmd"
      {| basePath := "/q"; outputDir := "/q/_site";
         fieldMappings := DEFAULT_FIELD_MAPPINGS;
         slugify := None; imageResolver := None |}
      None
    = Ok entry
    /\ is_undefined (get (data entry) "draft") = false.
Proof.
  destruct (normalize_succeeds
              (fun p => p) (fun a b => (a ++ "/" ++ b)%string)
              [("title", VStr "T"); ("image", VStr "cover.jpg")]
              "/q/posts/a.qmd"
              {| basePath := "/q"; outputDir := "/q/_site";
                 fieldMappings := DEFAULT_FIELD_MAPPINGS;
                 slugify := None; imageResolver := None |}
              None [("title", VStr "T"); ("heroImage", VStr "cover.jpg")]
              ltac:(simpl; intuition discriminate) ltac:(discriminate)
              eq_refl eq_refl) as (entry & E & D & _).
  exists entry. split; [|exact D].
  exact E.
Defined.

End NormalizeOutcomeExamples.

(** ** The identifier and the directory *)

Section SlugAndDirectory.
Import Chars Path Slug.

Lemma list_ascii_of_string_app (a b : string) :
  list_ascii_of_string (a ++ b)%string
  = list_ascii_of_string a ++ list_ascii_of_string b.
Proof. induction a as [|c a IH]; simpl; [reflexivity | now rewrite IH]. Qed.

Lemma take_while_app_stop (p : ascii -> bool) (l r : list ascii) (c : ascii) :
  forallb p l = true -> p c = false -> take_while p (l ++ c :: r) = l.
Proof.
  intros Hl Hc. induction l as [|x l IH]; simpl in *.
  - now rewrite Hc.
  - apply andb_true_iff in Hl as [-> Hl]. f_equal. now apply IH.
Qed.

Lemma drop_while_none (p : ascii -> bool) (l : list ascii) :
  forallb (fun c => negb (p c)) l = true -> drop_while p l = l.
Proof.
  destruct l as [|x l]; simpl; [reflexivity|].
  intros H. apply andb_true_iff in H as [Hx _].
  apply negb_true_iff in Hx. now rewrite Hx.
Qed.

Lemma last_component_of_name (name : list ascii) :
  forallb (fun c => negb (is_slash c)) name = true ->
  last_component name = name.
Proof.
  intros H. unfold last_component.
  assert (Hr : forallb (fun c => negb (is_slash c)) (rev name) = true)
    by now rewrite forallb_rev.
  rewrite (drop_while_none _ _ Hr), (take_while_all _ _ Hr).
  apply rev_involutive.
Qed.

Lemma last_component_in_dir (dir name : list ascii) :
  name <> [] ->
  forallb (fun c => negb (is_slash c)) name = true ->
  last_component (dir ++ slash :: name) = name.
Proof.
  intros Hn H. unfold last_component.
  rewrite rev_app_distr. simpl. rewrite <- app_assoc. simpl.
  assert (Hr : forallb (fun c => negb (is_slash c)) (rev name) = true)
    by now rewrite forallb_rev.
  assert (Hd : drop_while is_slash (rev name ++ slash :: rev dir)
               = rev name ++ slash :: rev dir).
  { destruct (rev name) as [|x r] eqn:E.
    - exfalso. apply Hn. rewrite <- (rev_involutive name), E. reflexivity.
    - simpl in *. apply andb_true_iff in Hr as [Hx _].
      apply negb_true_iff in Hx. now rewrite Hx. }
  rewrite Hd, (take_while_app_stop _ _ _ _ Hr); [apply rev_involutive|].
  reflexivity.
Qed.

Lemma list_eqb_refl_iff (a b : list ascii) : list_eqb a b = true <-> a = b.
Proof.
  split; [apply list_eqb_eq|]. intros <-.
  induction a as [|x a IH]; simpl; [reflexivity|].
  now rewrite Ascii.eqb_refl, IH.
Qed.

(** The identifier depends on the file's name only, not on the directory
    the file lies in: files of the same name in different directories of
    a listing get the same identifier. *)
Theorem slug_ignores_directory (dir name : string) :
  name <> ""%string -> name <> qmd_ext ->
  forallb (fun c => negb (is_slash c)) (list_ascii_of_string name) = true ->
  slug_from_path (dir ++ "/" ++ name) = slug_from_path name.
Proof.
  intros Hne Hext Hs. unfold slug_from_path, basename.
  rewrite !list_ascii_of_string_app.
  change (list_ascii_of_string "/") with [slash].
  set (n := list_ascii_of_string name) in *.
  set (d := list_ascii_of_string dir).
  assert (Hn : n <> []).
  { intros E. apply Hne. rewrite <- (string_of_list_ascii_of_string name).
    fold n. now rewrite E. }
  cut (basename_l (d ++ [slash] ++ n) (list_ascii_of_string qmd_ext)
       = basename_l n (list_ascii_of_string qmd_ext)); [now intros ->|].
  simpl app. unfold basename_l.
  rewrite (last_component_in_dir d n Hn Hs), (last_component_of_name n Hs).
  destruct (list_eqb (d ++ slash :: n) _) eqn:E1.
  { apply list_eqb_eq in E1.
    assert (I : In slash (d ++ slash :: n))
      by (apply in_or_app; right; now left).
    rewrite E1 in I. simpl in I. unfold slash in I. intuition discriminate. }
  destruct (list_eqb n _) eqn:E2; [|reflexivity].
  exfalso. apply list_eqb_eq in E2. apply Hext.
  rewrite <- (string_of_list_ascii_of_string name). fold n. now rewrite E2.
Qed.

Lemma slug_ignores_directory_witness :
  slug_from_path "/q/posts/2024/intro.qmd" = slug_from_path "intro.qmd".
Proof.
  apply (slug_ignores_directory "/q/posts/2024" "intro.qmd");
    [discriminate | discriminate | reflexivity].
Defined.

End SlugAndDirectory.

(** ** Front matter *)

Section FrontmatterFacts.
Import JS Frontmatter.

Lemma get_update_if test f k (m : object) k' :
  get (update_if test f k m) k'
  = if String.eqb k k'
    then (if test (get m k) then f (get m k) else get m k)
    else get m k'.
Proof.
  unfold update_if. destruct (String.eqb_spec k k') as [->|Hne].
  - destruct (test (get m k')); [apply get_set_same | reflexivity].
  - destruct (test (get m k)); [now apply get_set_other | reflexivity].
Qed.

Lemma defined_has (m : object) k :
  inherited k = false ->
  is_undefined (get m k) = false -> has m k = true.
Proof.
  intros Hi. unfold get, has. rewrite Hi. now destruct (lookup m k).
Qed.

(** Rewriting a field that holds a value does not move or add a key. *)
Lemma keys_update_if test f k (m : object) :
  inherited k = false ->
  (forall v, test v = true -> is_undefined v = false) ->
  keys (update_if test f k m) = keys m.
Proof.
  intros Hi Ht. unfold update_if.
  destruct (test (get m k)) eqn:T; [|reflexivity].
  rewrite keys_set, (defined_has m k); [reflexivity | exact Hi | now apply Ht].
Qed.

Lemma truthy_defined v : truthy v = true -> is_undefined v = false.
Proof. now destruct v. Qed.

Lemma defined_defined v : defined v = true -> is_undefined v = false.
Proof. unfold defined. now destruct (is_undefined v). Qed.

End FrontmatterFacts.

Section FrontmatterContract.
Import JS Frontmatter.
Variable parseDate : string -> option Z.
Variable toStr : value -> string.

Lemma extract_keys (frontmatter : object) :
  wf frontmatter ->
  keys (extractMetadata parseDate toStr frontmatter) = keys frontmatter.
Proof.
  intros W. unfold extractMetadata.
  rewrite (write_all_nodup frontmatter [] W). simpl app.
  rewrite !keys_update_if;
    auto using truthy_defined, defined_defined.
Qed.

Lemma extract_draft (frontmatter : object) :
  wf frontmatter ->
  get (extractMetadata parseDate toStr frontmatter) "draft"
  = (if is_undefined (get frontmatter "draft") then VUndefined
     else VBool (truthy (get frontmatter "draft"))).
Proof.
  intros W. unfold extractMetadata.
  rewrite (write_all_nodup frontmatter [] W). simpl app.
  rewrite !get_update_if. simpl. unfold defined.
  destruct (is_undefined (get frontmatter "draft")) eqn:U; simpl;
    [now apply is_undefined_eq | reflexivity].
Qed.

(** [extractMetadata] keeps every key of the front matter, in order, and
    changes no field other than [date], [date-modified], [author],
    [categories], [tags] and [draft]. *)
Theorem extract_keeps_keys (frontmatter : object) :
  wf frontmatter ->
  ~ In "__proto__" (keys frontmatter) ->
  keys (extractMetadata parseDate toStr frontmatter) = keys frontmatter
  /\ forall k, ~ In k normalized_fields ->
               get (extractMetadata parseDate toStr frontmatter) k
               = get frontmatter k.
Proof.
  intros W _. split; [now apply extract_keys|].
  unfold extractMetadata.
  rewrite (write_all_nodup frontmatter [] W). simpl app.
  - intros k Hk. rewrite !get_update_if.
    unfold normalized_fields in Hk. simpl in Hk.
    repeat match goal with
           | |- context [String.eqb ?a k] =>
               destruct (String.eqb_spec a k); [exfalso; tauto|]
           end.
    reflexivity.
Qed.

(** After [extractMetadata], [draft] is absent or the boolean the source
    value coerces to (so any non-empty string, ["false"] included, gives
    [true]); [categories] and [tags] are absent or arrays of strings;
    [author] is absent, a string, or an array of strings. *)
Theorem extracted_shapes (frontmatter : object) :
  wf frontmatter ->
  ~ In "__proto__" (keys frontmatter) ->
  get (extractMetadata parseDate toStr frontmatter) "draft"
  = (if is_undefined (get frontmatter "draft") then VUndefined
     else VBool (truthy (get frontmatter "draft")))
  /\ (forall k, k = "categories" \/ k = "tags" ->
        if is_undefined (get frontmatter k)
        then get (extractMetadata parseDate toStr frontmatter) k = VUndefined
        else is_string_array
               (get (extractMetadata parseDate toStr frontmatter) k) = true)
  /\ (if is_undefined (get frontmatter "author")
      then get (extractMetadata parseDate toStr frontmatter) "author"
           = VUndefined
      else NormalizerSpec.is_string
             (get (extractMetadata parseDate toStr frontmatter) "author")
           || is_string_array
                (get (extractMetadata parseDate toStr frontmatter) "author")
           = true).
Proof.
  intros W _. unfold extractMetadata.
  rewrite (write_all_nodup frontmatter [] W). simpl app.
  assert (Hsa : forall l, is_string_array (string_array l) = true).
  { intros l. unfold string_array. simpl.
    induction l; simpl; [reflexivity | assumption]. }
  split; [|split].
  - pose proof (extract_draft frontmatter W) as Hd.
    unfold extractMetadata in Hd.
    now rewrite (write_all_nodup frontmatter [] W) in Hd.
  - intros k [-> | ->]; rewrite !get_update_if; simpl; unfold defined;
      destruct (is_undefined (get frontmatter _)) eqn:U; simpl;
      try (now apply is_undefined_eq); apply Hsa.
  - rewrite !get_update_if. simpl. unfold defined.
    destruct (is_undefined (get frontmatter "author")) eqn:U; simpl;
      [now apply is_undefined_eq|].
    unfold normalizeAuthor.
    destruct (get frontmatter "author"); simpl; try reflexivity.
    clear U. induction items as [|a items IH]; simpl; [reflexivity | exact IH].
Qed.

End FrontmatterContract.

Section FrontmatterExamples.
Import JS Frontmatter.

Lemma extract_keeps_keys_witness :
  keys (extractMetadata (fun _ => Some 1764000000000%Z) (fun _ => "x")
          [("title", VStr "Test Post"); ("date", VStr "2025-11-24");
           ("draft", VStr "false")])
  = ["title"; "date"; "draft"].
Proof.
  apply (proj1 (extract_keeps_keys (fun _ => Some 1764000000000%Z)
                  (fun _ => "x")
                  [("title", VStr "Test Post"); ("date", VStr "2025-11-24");
                   ("draft", VStr "false")]
                  ltac:(repeat constructor; simpl; intuition discriminate)
                  ltac:(simpl; intuition discriminate))).
Defined.

Lemma extracted_shapes_witness :
  get (extractMetadata (fun _ => Some 1764000000000%Z) (fun _ => "x")
         [("title", VStr "Test Post"); ("date", VStr "2025-11-24");
          ("draft", VStr "false")]) "draft"
  = VBool true.
Proof.
  apply (proj1 (extracted_shapes (fun _ => Some 1764000000000%Z) (fun _ => "x")
                  [("title", VStr "Test Post"); ("date", VStr "2025-11-24");
                   ("draft", VStr "false")]
                  ltac:(repeat constructor; simpl; intuition discriminate)
                  ltac:(simpl; intuition discriminate))).
Defined.

End FrontmatterExamples.

Section TrimFacts.
Import Path.
Variable p : ascii -> bool.

Lemma drop_while_idem (l : list ascii) :
  drop_while p (drop_while p l) = drop_while p l.
Proof.
  induction l as [|c l IH]; simpl; [reflexivity|].
  destruct (p c) eqn:E; [exact IH | simpl; now rewrite E].
Qed.

Lemma drop_while_snoc (a : list ascii) (c : ascii) :
  p c = false -> drop_while p (a ++ [c]) = drop_while p a ++ [c].
Proof.
  intros Hc. induction a as [|x a IH]; simpl; [now rewrite Hc|].
  destruct (p x); [exact IH | reflexivity].
Qed.

Lemma drop_while_end_cons (c : ascii) (r : list ascii) :
  p c = false -> drop_while_end p (c :: r) = c :: drop_while_end p r.
Proof.
  intros Hc. unfold drop_while_end. simpl.
  rewrite (drop_while_snoc _ _ Hc), rev_app_distr. reflexivity.
Qed.

Lemma drop_while_end_idem (l : list ascii) :
  drop_while_end p (drop_while_end p l) = drop_while_end p l.
Proof.
  unfold drop_while_end. now rewrite rev_involutive, drop_while_idem.
Qed.

(** Trimming both ends a second time changes nothing. *)
Lemma trim_both_idem (l : list ascii) :
  drop_while_end p (drop_while p (drop_while_end p (drop_while p l)))
  = drop_while_end p (drop_while p l).
Proof.
  destruct (drop_while p l) as [|c r] eqn:E; [reflexivity|].
  assert (Hc : p c = false).
  { clear -E. induction l as [|x l IH]; simpl in E; [discriminate|].
    destruct (p x) eqn:Ex; [now apply IH | now injection E as <- <-]. }
  rewrite (drop_while_end_cons c r Hc). simpl. rewrite Hc.
  now rewrite (drop_while_end_cons _ _ Hc), drop_while_end_idem.
Qed.

End TrimFacts.

Section CommaLists.
Import JS Frontmatter.
Variable toStr : value -> string.

Lemma trim_idem (s : string) : trim (trim s) = trim s.
Proof.
  unfold trim. rewrite list_ascii_of_string_of_list_ascii.
  now rewrite trim_both_idem.
Qed.

(** A comma-separated string of categories or tags is split into items
    that are never empty and carry no white space at either end. *)
Theorem comma_list_items (s x : string) :
  In x (normalizeArray toStr (VStr s)) ->
  x <> ""%string /\ trim x = x.
Proof.
  unfold normalizeArray. intros I.
  apply filter_In in I as [I Hne]. apply in_map_iff in I as [part [<- _]].
  split.
  - intros E. rewrite E in Hne. discriminate.
  - apply trim_idem.
Qed.

End CommaLists.

Section CommaListsExample.
Import JS Frontmatter.

Lemma comma_list_items_witness :
  "typescript" <> ""%string /\ trim "typescript" = "typescript".
Proof.
  apply (comma_list_items (fun _ => "x") "javascript, typescript ,, ").
  vm_compute. tauto.
Defined.

End CommaListsExample.

(** ** Listing defaults and files *)

Section ListingDefaults.
Import JS Listing.

Lemma defaults_fold_get (listing : object) (fields : list string) :
  forall (acc : object) k,
    lookup (fold_left
              (fun defaults field =>
                 if has listing field && negb (is_undefined (get listing field))
                 then set defaults field (get listing field) else defaults)
              fields acc) k
    = if in_dec string_dec k fields
      then match lookup listing k with
           | Some v => if is_undefined v then lookup acc k else Some v
           | None => lookup acc k
           end
      else lookup acc k.
Proof.
  induction fields as [|f fields IH]; intros acc k; [reflexivity|].
  cbn [fold_left]. rewrite IH.
  assert (Hf : forall x,
             lookup (if has listing x && negb (is_undefined (get listing x))
                     then set acc x (get listing x) else acc) k
             = if String.eqb x k
               then match lookup listing k with
                    | Some v => if is_undefined v then lookup acc k else Some v
                    | None => lookup acc k
                    end
               else lookup acc k).
  { intros x. unfold has, get.
    destruct (String.eqb_spec x k) as [->|Hne].
    - destruct (lookup listing k) as [v|]; [|reflexivity]. simpl.
      destruct (is_undefined v); [reflexivity | apply lookup_set_same].
    - destruct (lookup listing x) as [v|]; [|reflexivity]. simpl.
      destruct (is_undefined v); [reflexivity | now apply lookup_set_other]. }
  rewrite Hf.
  destruct (in_dec string_dec k fields) as [I|N];
    destruct (in_dec string_dec k (f :: fields)) as [I'|N'];
    try (exfalso; simpl in *; tauto).
  - destruct (String.eqb_spec f k) as [->|Hne]; [|reflexivity].
    destruct (lookup listing k) as [v|]; [|reflexivity].
    now destruct (is_undefined v).
  - assert (f = k) as -> by (simpl in I'; tauto).
    now rewrite String.eqb_refl.
  - destruct (String.eqb_spec f k) as [->|Hne]; [simpl in N'; tauto|].
    reflexivity.
Qed.

Lemma wf_defaults_fold (listing : object) (fields : list string) :
  forall acc : object,
    wf acc ->
    wf (fold_left
          (fun defaults field =>
             if has listing field && negb (is_undefined (get listing field))
             then set defaults field (get listing field) else defaults)
          fields acc).
Proof.
  induction fields as [|f fields IH]; intros acc W; [exact W|].
  cbn [fold_left]. apply IH.
  destruct (has listing f && _); [now apply wf_set | exact W].
Qed.

Lemma wf_listing_defaults (listing : object) :
  wf (extractListingDefaults listing).
Proof. apply wf_defaults_fold. constructor. Qed.

Lemma listing_defaults_other (listing : object) (k : string) :
  ~ In k defaultFields -> lookup (extractListingDefaults listing) k = None.
Proof.
  intros N. unfold extractListingDefaults. rewrite defaults_fold_get.
  destruct (in_dec string_dec k defaultFields); [tauto | reflexivity].
Qed.

(** [extractListingDefaults] takes over the listing's value for each of
    [author], [categories], [date-format], [image] and [image-height]
    that the listing defines, and nothing else. *)
Theorem listing_defaults_get (listing : object) (k : string) :
  wf (extractListingDefaults listing)
  /\ lookup (extractListingDefaults listing) k
     = if in_dec string_dec k defaultFields
       then match lookup listing k with
            | Some v => if is_undefined v then None else Some v
            | None => None
            end
       else None.
Proof.
  unfold extractListingDefaults. split.
  - apply wf_defaults_fold. constructor.
  - rewrite defaults_fold_get. reflexivity.
Qed.

End ListingDefaults.

Section ListingFiles.
Import JS Listing.
Variable join : string -> string -> string.
Variable glob : string -> string -> list string.

Lemma NoDup_set_add (s : list string) k : NoDup s -> NoDup (Schema.set_add s k).
Proof.
  intros N. unfold Schema.set_add.
  destruct (existsb (String.eqb k) s) eqn:E; [exact N|].
  apply NoDup_app; [exact N | repeat constructor; simpl; tauto|].
  intros x I [Ex|[]]. subst x.
  assert (X : existsb (String.eqb k) s = true).
  { apply existsb_exists. exists k. split; [exact I | apply String.eqb_refl]. }
  congruence.
Qed.

Lemma NoDup_fold_set_add (l : list string) : forall s,
  NoDup s -> NoDup (fold_left Schema.set_add l s).
Proof.
  induction l as [|k l IH]; intros s N; simpl; [exact N|].
  apply IH. now apply NoDup_set_add.
Qed.

(** [resolveListingFiles] returns every file some pattern of the listing
    matches, each exactly once. *)
Theorem resolved_files_distinct (contents : Contents) (basePath : string) :
  NoDup (resolveListingFiles join glob contents basePath)
  /\ forall file,
       In file (resolveListingFiles join glob contents basePath)
       <-> In file (matched_files join glob contents basePath).
Proof.
  unfold resolveListingFiles. split.
  - apply NoDup_fold_set_add. constructor.
  - intros file. rewrite fold_set_add_in. simpl. tauto.
Qed.

End ListingFiles.

(** ** From front matter to entry: the [draft] flag *)

Section DraftFlag.
Import JS Normalizer MapperSpec NormalizerSpec Frontmatter Listing.

Lemma wf_inherit (metadata defaults : object) :
  wf metadata -> wf (inheritListingDefaults metadata defaults).
Proof.
  unfold inheritListingDefaults. revert metadata.
  induction defaults as [|[k v] d IH]; intros m W; simpl; [exact W|].
  apply IH. destruct (is_undefined (get m k)); [now apply wf_set | exact W].
Qed.

(** A name that only its own key is written under keeps its value through
    the mapper. *)
Lemma mapper_keeps_own_name (metadata : object) (mappings : FieldMappings)
  (filePath : string) (r : object) (n : string) :
  applyFieldMappings metadata mappings filePath = Ok r ->
  wf metadata ->
  (forall k, final_name mappings k = n <-> k = n) ->
  lookup r n = lookup metadata n.
Proof.
  intros H W Hn. destruct (mapper_ok_inv _ _ _ _ H) as [_ ->].
  rewrite lookup_write_all. simpl.
  assert (Hin : forall v', In (n, v') (rev (renamed metadata mappings)) ->
                           In (n, v') metadata).
  { intros v' I. apply in_rev in I. unfold renamed in I.
    apply in_map_iff in I as [[k' v''] [E I]]. simpl in E.
    injection E as E1 ->. apply (proj1 (Hn k')) in E1. now subst k'. }
  destruct (lookup metadata n) as [v|] eqn:L.
  - assert (E : lookup (rev (renamed metadata mappings)) n = Some v).
    { apply lookup_only_binding.
      - apply -> in_rev. unfold renamed. apply in_map_iff.
        exists (n, v). split; [|now apply lookup_in].
        simpl. f_equal. now apply (proj2 (Hn n)).
      - intros v' I. pose proof (lookup_of_in _ _ _ W (Hin v' I)). congruence. }
    now rewrite E.
  - destruct (lookup (rev (renamed metadata mappings)) n) as [v'|] eqn:E;
      [|reflexivity].
    apply lookup_in, Hin in E. apply lookup_none_not_in in L.
    exfalso. apply L. apply in_map_iff. exists (n, v'). now split.
Qed.

Lemma default_mappings_leave_draft (k : string) :
  final_name DEFAULT_FIELD_MAPPINGS k = "draft" <-> k = "draft".
Proof.
  unfold final_name, rename_target.
  assert (Ht : inherited_text k <> "draft").
  { unfold inherited_text.
    destruct (String.eqb k "__proto__"); [discriminate|].
    destruct (String.eqb k "constructor"); discriminate. }
  destruct (inherited k);
    unfold DEFAULT_FIELD_MAPPINGS, lookup;
    repeat match goal with
           | |- context [String.eqb ?a k] =>
               destruct (String.eqb_spec a k) as [<-|?]
           end;
    cbn; split; intros E; try discriminate E; try reflexivity;
    try (exfalso; congruence); congruence.
Qed.

Variable parseDate : string -> option Z.
Variable toStr : value -> string.
Variable dirname : string -> string.
Variable join : string -> string -> string.

(** Whatever a document's front matter holds under [draft], the entry
    built from it by [extractMetadata] and [normalizeMetadata], with a
    listing's extracted defaults and mappings that leave [draft] alone,
    carries a boolean [draft]: [false] when the front matter has none,
    the truthiness of the source value otherwise. *)
Theorem draft_is_boolean
  (frontmatter listing : object) (filePath : string)
  (options : NormalizationOptions) (entry : NormalizedEntry) :
  wf frontmatter ->
  ~ In "__proto__" (keys frontmatter) ->
  NormalizerSpec.image_field_name options <> "__proto__" ->
  (forall k, final_name (fieldMappings options) k = "draft" <-> k = "draft") ->
  normalizeMetadata dirname join (extractMetadata parseDate toStr frontmatter)
    filePath options (Some (extractListingDefaults listing)) = Ok entry ->
  get (data entry) "draft"
  = VBool (if is_undefined (get frontmatter "draft") then false
           else truthy (get frontmatter "draft")).
Proof.
  intros W _ _ Hn H.
  set (m_ex := extractMetadata parseDate toStr frontmatter) in *.
  set (d := extractListingDefaults listing) in *.
  assert (Wex : wf m_ex).
  { unfold wf, m_ex. now rewrite (extract_keys _ _ _ W). }
  assert (G0 : get (inheritListingDefaults m_ex d) "draft" = get m_ex "draft").
  { unfold inheritListingDefaults.
    rewrite inherit_fold_get by apply wf_listing_defaults.
    destruct (is_undefined (get m_ex "draft")) eqn:U; [|reflexivity].
    unfold d. rewrite listing_defaults_other; [reflexivity|].
    simpl. intuition discriminate. }
  unfold normalizeMetadata in H.
  destruct (applyFieldMappings _ _ _) as [m1|e] eqn:Em; simpl in H;
    [|discriminate].
  assert (G1 : get m1 "draft" = get m_ex "draft").
  { rewrite <- G0. unfold get.
    now rewrite (mapper_keeps_own_name _ _ _ _ "draft" Em
                   (wf_inherit _ _ Wex) Hn). }
  fold (image_field_name options) in H.
  assert (Hi : image_field_name options <> "draft").
  { unfold image_field_name. intros E.
    destruct (lookup (fieldMappings options) "image") as [n|] eqn:L;
      [|discriminate].
    destruct (String.eqb_spec n ""); [discriminate|]. subst n.
    assert (X : final_name (fieldMappings options) "image" = "draft").
    { unfold final_name, rename_target. rewrite L. reflexivity. }
    apply (proj1 (Hn _)) in X. discriminate. }
  assert (G2 : forall m2 : object,
             get m2 "draft" = get m_ex "draft" ->
             get (if is_undefined (get m2 "draft")
                  then set m2 "draft" (VBool false) else m2) "draft"
             = VBool (if is_undefined (get frontmatter "draft") then false
                      else truthy (get frontmatter "draft"))).
  { intros m2 E.
    pose proof (extract_draft parseDate toStr frontmatter W) as Hd.
    fold m_ex in Hd. rewrite <- E in Hd.
    destruct (is_undefined (get frontmatter "draft")); rewrite Hd; simpl;
      [apply get_set_same | exact Hd]. }
  destruct (truthy (get m1 (image_field_name options))); simpl in H.
  - destruct (resolveImagePath _ _ _ _ _) as [img|e]; simpl in H;
      [|discriminate].
    injection H as <-. simpl. apply G2.
    rewrite get_set_other by exact Hi. exact G1.
  - injection H as <-. simpl. now apply G2.
Qed.

End DraftFlag.

Section DraftFlagExample.
Import JS Normalizer Frontmatter Listing.

Lemma draft_is_boolean_witness :
  match
    normalizeMetadata (fun p => p) (fun a b => (a ++ "/" ++ b)%string)
      (extractMetadata (fun _ => None) (fun _ => "x")
         [("title", VStr "Post"); ("draft", VStr "false")])
      "/q/posts/a.qmd"
      {| basePath := "/q"; outputDir := "/q/_site";
         fieldMappings := DEFAULT_FIELD_MAPPINGS;
         slugify := None; imageResolver := None |}
      (Some (extractListingDefaults [("author", VStr "Jane")]))
  with
  | Ok entry => get (data entry) "draft" = VBool true
  | Err _ => False
  end.
Proof.
  destruct (normalizeMetadata _ _ _ _ _ _) as [entry|e] eqn:E.
  - apply (draft_is_boolean (fun _ => None) (fun _ => "x") (fun p => p)
             (fun a b => (a ++ "/" ++ b)%string)
             [("title", VStr "Post"); ("draft", VStr "false")]
             [("author", VStr "Jane")] "/q/posts/a.qmd"
             {| basePath := "/q"; outputDir := "/q/_site";
                fieldMappings := DEFAULT_FIELD_MAPPINGS;
                slugify := None; imageResolver := None |} entry).
    + repeat constructor; simpl; intuition discriminate.
    + simpl. intuition discriminate.
    + discriminate.
    + exact default_mappings_leave_draft.
    + exact E.
  - vm_compute in E. discriminate.
Defined.

End DraftFlagExample.

(** ** The project's listings and their selection *)

Section ListingsOfConfig.
Import JS QuartoYaml Selection SelectionSpec.
Variable toStr : value -> string.

Lemma check_listing_inr (listing l' : value) (index : nat) :
  check_listing toStr listing index = inr l' <->
  l' = listing /\ valid_listing listing = true.
Proof.
  unfold check_listing, valid_listing.
  destruct (member listing "id") as [id|], (member listing "contents") as [c|];
    try (split; [discriminate | intros [_ ?]; discriminate]).
  destruct (truthy id), (truthy c); simpl;
    split; try discriminate; try (intros [_ ?]; discriminate).
  - intros E. injection E as <-. now split.
  - intros [-> _]. reflexivity.
Qed.

Lemma check_all_inr (listings : list value) : forall (index : nat) out,
  check_all toStr listings index = inr out <->
  out = listings /\ forallb valid_listing listings = true.
Proof.
  induction listings as [|l ls IH]; intros index out; simpl.
  - split; [intros E; injection E as <-; now split | intros [-> _]; reflexivity].
  - destruct (check_listing toStr l index) as [e|l'] eqn:C.
    + split; [discriminate|]. intros [_ V]. apply andb_prop in V as [V _].
      assert (X : check_listing toStr l index = inr l)
        by (apply check_listing_inr; now split).
      congruence.
    + apply check_listing_inr in C as [-> V]. rewrite V. simpl.
      destruct (check_all toStr ls (S index)) as [e|ls'] eqn:A.
      * split; [discriminate|]. intros [_ V'].
        assert (X : check_all toStr ls (S index) = inr ls)
          by (apply IH; now split).
        congruence.
      * apply IH in A as [-> V']. split.
        -- intros E. injection E as <-. now split.
        -- intros [-> _]. reflexivity.
Qed.

(** [extractListings] succeeds exactly when every listing of the
    configuration has a truthy [id] and [contents], and then returns the
    configuration's listings unchanged and in order. *)
Theorem listings_extracted_iff_valid (config : object) (out : list value) :
  extractListings toStr config = inr out <->
  out = raw_listings config
  /\ forallb valid_listing (raw_listings config) = true.
Proof. apply check_all_inr. Qed.

Lemma check_all_first_invalid (pre post : list value) (bad id : value) :
  forall index,
    forallb valid_listing pre = true ->
    member bad "id" = Some id ->
    truthy id = false ->
    check_all toStr (pre ++ bad :: post) index
    = inl (QuartoConfigError
             ("Listing at index " ++ index_string (index + length pre)
              ++ " is missing required 'id' field")).
Proof.
  induction pre as [|l pre IH]; intros index V M T; simpl.
  - unfold check_listing. rewrite M.
    destruct bad; simpl in M; try discriminate;
      simpl; rewrite T; simpl; now rewrite Nat.add_0_r.
  - simpl in V. apply andb_prop in V as [V1 V2].
    assert (X : check_listing toStr l index = inr l)
      by (apply check_listing_inr; now split).
    rewrite X, (IH (S index) V2 M T).
    now rewrite Nat.add_succ_comm.
Qed.

(** When the first listing that is not accepted lacks an [id], the error
    names its position among the configuration's listings. *)
Theorem missing_id_position (config : object) (pre post : list value)
  (bad id : value) :
  raw_listings config = pre ++ bad :: post ->
  forallb valid_listing pre = true ->
  member bad "id" = Some id ->
  truthy id = false ->
  extractListings toStr config
  = inl (QuartoConfigError
           ("Listing at index " ++ index_string (length pre)
            ++ " is missing required 'id' field")).
Proof.
  intros R V M T. unfold extractListings. rewrite R.
  now rewrite (check_all_first_invalid pre post bad id 0 V M T).
Qed.

Lemma has_id_listing_id (listingId : string) (listing : value) :
  has_id listingId listing = true -> listing_id listing = VStr listingId.
Proof.
  unfold has_id, listing_id.
  destruct (member listing "id") as [[]|]; try discriminate.
  intros E. apply String.eqb_eq in E. now subst.
Qed.

Lemma has_id_iff (listingId : string) (listing : value) :
  has_id listingId listing = true <-> listing_id listing = VStr listingId.
Proof.
  split; [apply has_id_listing_id|].
  unfold has_id, listing_id.
  destruct (member listing "id") as [[]|]; try discriminate.
  intros E. injection E as ->. apply String.eqb_refl.
Qed.

Lemma find_each_inr (config : object) (all all0 : list value) :
  extractListings toStr config = inr all ->
  forall ids ls,
    find_each toStr config all0 ids = inr ls ->
    incl ls all /\ map listing_id ls = map VStr ids.
Proof.
  intros E. induction ids as [|i ids IH]; intros ls H; simpl in H.
  - injection H as <-. split; [intros ? []|reflexivity].
  - unfold findListing in H. rewrite E in H.
    destruct (find (has_id i) all) as [l|] eqn:F; [|discriminate].
    destruct (find_each toStr config all0 ids) as [e|ls'] eqn:R;
      [discriminate|].
    injection H as <-. destruct (IH ls' eq_refl) as [I M].
    apply find_some in F as [Fi Fh]. split.
    + intros x [<-|Hx]; [exact Fi | now apply I].
    + simpl. now rewrite M, (has_id_listing_id _ _ Fh).
Qed.

Lemma find_each_inl (config : object) (all all0 : list value) :
  extractListings toStr config = inr all ->
  forall ids e,
    find_each toStr config all0 ids = inl e ->
    exists listingId,
      e = ListingNotFoundError listingId (map listing_id all0)
      /\ In listingId ids
      /\ ~ In (VStr listingId) (map listing_id all).
Proof.
  intros E. induction ids as [|i ids IH]; intros e H; simpl in H;
    [discriminate|].
  unfold findListing in H. rewrite E in H.
  destruct (find (has_id i) all) as [l|] eqn:F.
  - destruct (find_each toStr config all0 ids) as [e'|ls'] eqn:R;
      [|discriminate].
    injection H as <-. destruct (IH e' eq_refl) as (x & -> & I & N).
    exists x. repeat split; [now right | exact N].
  - injection H as <-. exists i. repeat split; [now left|].
    intros I. apply in_map_iff in I as [l [El Il]].
    pose proof (find_none _ _ F l Il) as Hn.
    apply has_id_iff in El. congruence.
Qed.

(** The listings a load processes are listings of the configuration: all
    of them in their order when none or ["all"] is asked for, otherwise
    one per requested id, in the order of the request and with exactly
    that id. *)
Theorem selected_listings (config : object) (listings : option ListingsOption)
  (ls : list value) :
  listingsToLoad toStr config listings = inr ls ->
  incl ls (raw_listings config)
  /\ match requested_ids listings with
     | None => ls = raw_listings config
     | Some ids => map listing_id ls = map VStr ids
     end.
Proof.
  unfold listingsToLoad, requested_ids. intros H.
  destruct (extractListings toStr config) as [e|all] eqn:E; [discriminate|].
  pose proof (proj1 (check_all_inr _ _ _) E) as [-> _].
  destruct listings as [[s|ids]|].
  - destruct (String.eqb s ""); [injection H as <-; split;
                                  [apply incl_refl | reflexivity]|].
    destruct (String.eqb s "all"); [injection H as <-; split;
                                     [apply incl_refl | reflexivity]|].
    exact (find_each_inr config _ _ E _ _ H).
  - exact (find_each_inr config _ _ E _ _ H).
  - injection H as <-. split; [apply incl_refl | reflexivity].
Qed.

(** A load that stops with [ListingNotFoundError] was asked for that id,
    no listing of the configuration has it, and the ids the error lists
    are the ones [getListingIds] gives. *)
Theorem listing_not_found (config : object) (listings : option ListingsOption)
  (listingId : string) (availableListings : list value) :
  listingsToLoad toStr config listings
  = inl (ListingNotFoundError listingId availableListings) ->
  getListingIds toStr config = inr availableListings
  /\ ~ In (VStr listingId) availableListings
  /\ exists ids, requested_ids listings = Some ids /\ In listingId ids.
Proof.
  unfold listingsToLoad, requested_ids, getListingIds. intros H.
  destruct (extractListings toStr config) as [e|all] eqn:E; [discriminate|].
  assert (G : forall ids,
             find_each toStr config all ids
             = inl (ListingNotFoundError listingId availableListings) ->
             @inr config_error (list value) (map listing_id all)
             = inr availableListings
             /\ ~ In (VStr listingId) availableListings
             /\ In listingId ids).
  { intros ids F.
    destruct (find_each_inl config all all E ids _ F) as (x & Ex & I & N).
    injection Ex as -> ->. now repeat split. }
  destruct listings as [[s|ids]|]; try discriminate.
  - destruct (String.eqb s ""); [discriminate|].
    destruct (String.eqb s "all"); [discriminate|].
    destruct (G _ H) as (G1 & G2 & G3). repeat split; try assumption.
    now exists [s].
  - destruct (G _ H) as (G1 & G2 & G3). repeat split; try assumption.
    now exists ids.
Qed.

(** With a logger, [validateQuartoFormat] stays silent exactly when
    [isGfmFormatConfigured] holds, and warns once otherwise; without a
    logger it does nothing. *)
Theorem format_warning_iff_not_gfm (config : object) :
  (validateQuartoFormat toStr config true = [] <->
   isGfmFormatConfigured config = true)
  /\ length (validateQuartoFormat toStr config true) <= 1
  /\ validateQuartoFormat toStr config false = [].
Proof.
  unfold validateQuartoFormat, isGfmFormatConfigured.
  destruct (truthy (get config "format")) eqn:T; simpl.
  - destruct (get config "format") as [| |b|n|s|d|items|fields|name]; simpl;
      try (repeat split; try discriminate; auto; fail).
    + destruct (String.eqb s "gfm"); simpl;
        repeat split; try discriminate; auto.
    + destruct (has fields "gfm"); simpl;
        repeat split; try discriminate; auto.
    + destruct (String.eqb name "__proto__"); simpl;
        repeat split; try discriminate; auto.
  - repeat split; try discriminate; auto.
Qed.

End ListingsOfConfig.

Section ListingsOfConfigExamples.
Import JS QuartoYaml Selection SelectionSpec.

Lemma missing_id_position_witness :
  extractListings (fun _ => "x")
    [("listing",
      VArr [VObj [("id", VStr "posts"); ("contents", VStr "posts/*.qmd")];
            VObj [("contents", VStr "docs/*.qmd")]])]
  = inl (QuartoConfigError "Listing at index 1 is missing required 'id' field").
Proof.
  exact (missing_id_position (fun _ => "x")
           [("listing",
             VArr [VObj [("id", VStr "posts");
                         ("contents", VStr "posts/*.qmd")];
                   VObj [("contents", VStr "docs/*.qmd")]])]
           [VObj [("id", VStr "posts"); ("contents", VStr "posts/*.qmd")]]
           [] (VObj [("contents", VStr "docs/*.qmd")]) VUndefined
           eq_refl eq_refl eq_refl eq_refl).
Defined.

Lemma selected_listings_witness :
  map listing_id
    [VObj [("id", VStr "posts"); ("contents", VStr "posts/*.qmd")];
     VObj [("id", VStr "posts"); ("contents", VStr "posts/*.qmd")]]
  = map VStr ["posts"; "posts"].
Proof.
  exact (proj2 (selected_listings (fun _ => "x") sample_config
                  (Some (ListingsArray ["posts"; "posts"]))
                  [VObj [("id", VStr "posts");
                         ("contents", VStr "posts/*.qmd")];
                   VObj [("id", VStr "posts");
                         ("contents", VStr "posts/*.qmd")]]
                  eq_refl)).
Defined.

Lemma listing_not_found_witness :
  ~ In (VStr "2024") [VStr "posts"; VNum 2024; VStr "posts"].
Proof.
  exact (proj1 (proj2 (listing_not_found (fun _ => "x") sample_config
                         (Some (ListingsString "2024")) "2024"
                         [VStr "posts"; VNum 2024; VStr "posts"] eq_refl))).
Defined.

End ListingsOfConfigExamples.

(** ** Sorting a listing's entries *)

Section SortOrder.
Import JS Quarto Sorting SortOrderSpec.
Variable localeCompare : string -> string -> Z.
Context {T : Type} `{Indexable T}.

(** Sorting loses no entry and invents none, whatever the configuration
    and the values. *)
Theorem sort_keeps_entries (entries : list T) (sortConfig : option SortConfig) :
  Permutation entries (applySortConfiguration localeCompare entries sortConfig).
Proof.
  unfold applySortConfiguration.
  destruct sortConfig as [[s|sorts]|]; try reflexivity.
  - destruct (String.eqb s ""); [reflexivity | apply stable_sort_perm].
  - apply stable_sort_perm.
Qed.




End SortOrder.

Section SortOrderExample.
Import JS Quarto Sorting SortOrderSpec.


End SortOrderExample.

(** ** The fields of a generated schema *)

Section GeneratedSchema.
Import JS Quarto Schema.

Lemma wf_fold_set {A : Type} (g : string -> A) (names : list string) :
  forall acc : omap A,
    wf acc -> wf (fold_left (fun a n => set a n (g n)) names acc).
Proof.
  induction names as [|n names IH]; intros acc W; simpl; [exact W|].
  apply IH. now apply wf_set.
Qed.

Lemma wf_ensure_minimum (schemaFields : omap zod) :
  wf schemaFields -> wf (ensure_minimum schemaFields).
Proof.
  intros W. unfold ensure_minimum.
  destruct (has schemaFields "title"); destruct (negb _ && negb _);
    auto using wf_set.
Qed.

Lemma has_fold_set {A : Type} (g : string -> A) (names : list string) f :
  has (fold_left (fun a n => set a n (g n)) names []) f = true
  <-> In f names.
Proof.
  unfold has. rewrite lookup_fold_set.
  destruct (in_dec string_dec f names); simpl; split;
    intros; try discriminate; tauto.
Qed.

(** The generated schema has no field twice, and its fields are exactly
    the names that occur in some document, [title], and, unless a
    document has a [date] field, [pubDate] (the name [__proto__] is left
    aside: assigning under it creates no field). *)
Theorem generated_schema_fields
  (documents : list object) (listing : QuartoListing)
  (options : SchemaOptions) (f : string) :
  f <> "__proto__" ->
  wf (shape (generateSchema documents listing options))
  /\ (has (shape (generateSchema documents listing options)) f = true <->
      (exists doc, In doc documents /\ In f (keys doc))
      \/ f = "title"
      \/ (f = "pubDate"
          /\ ~ exists doc, In doc documents /\ In "date" (keys doc))).
Proof.
  intros _. unfold generateSchema. simpl.
  set (g := schema_for_field documents options).
  set (fields := fold_left (fun acc n => set acc n (g n))
                   (allFieldNames documents) []).
  split.
  - apply wf_ensure_minimum, wf_fold_set. constructor.
  - rewrite <- !allFieldNames_in.
    assert (Hf : forall x, has fields x = true <-> In x (allFieldNames documents))
      by (intros x; apply has_fold_set).
    unfold has in *.
    destruct (string_dec f "title") as [->|Nt].
    { rewrite lookup_ensure_minimum_title.
      destruct (lookup fields "title"); split; auto. }
    destruct (string_dec f "pubDate") as [->|Np].
    { rewrite lookup_ensure_minimum_pubDate.
      pose proof (Hf "pubDate") as Hp. pose proof (Hf "date") as Hd.
      destruct (lookup fields "pubDate").
      - split; [intros _; left; now apply Hp | reflexivity].
      - unfold has. destruct (lookup fields "date").
        + split; [discriminate|].
          intros [I|[E|[_ N]]]; [now apply Hp in I | discriminate |].
          exfalso. apply N. now apply Hd.
        + split; [|reflexivity]. intros _. right. right.
          split; [reflexivity|]. intros I. apply Hd in I. discriminate. }
    rewrite lookup_ensure_minimum by assumption.
    rewrite (Hf f). intuition.
Qed.

(** A custom descriptor is used for a field that occurs in some
    document, whatever the field; for a name no document has it is
    ignored, and the schema is as if it had not been given. *)
Theorem custom_field_needs_occurrence
  (documents : list object) (listing : QuartoListing)
  (required : option (list string)) (custom : omap zod)
  (f : string) (t : zod) :
  f <> "__proto__" ->
  lookup custom f = Some t ->
  ((exists doc, In doc documents /\ In f (keys doc)) ->
   lookup (shape (generateSchema documents listing
                    {| requiredFields := required;
                       customFields := Some custom |})) f = Some t)
  /\ (~ (exists doc, In doc documents /\ In f (keys doc)) ->
      lookup (shape (generateSchema documents listing
                       {| requiredFields := required;
                          customFields := Some custom |})) f
      = lookup (shape (generateSchema documents listing
                         {| requiredFields := required;
                            customFields := None |})) f).
Proof.
  intros _ Hc. unfold generateSchema. simpl.
  set (g := schema_for_field documents
              {| requiredFields := required; customFields := Some custom |}).
  set (g0 := schema_for_field documents
               {| requiredFields := required; customFields := None |}).
  assert (Hg : g f = t).
  { unfold g, schema_for_field, descriptor_at. cbn [customFields].
    now rewrite Hc. }
  assert (Hh : forall (h : string -> zod) x,
             has (fold_left (fun acc n => set acc n (h n))
                    (allFieldNames documents) []) x
             = if in_dec string_dec x (allFieldNames documents)
               then true else false).
  { intros h x. unfold has. rewrite lookup_fold_set.
    now destruct (in_dec string_dec x (allFieldNames documents)). }
  rewrite <- allFieldNames_in. split; intros I.
  - destruct (string_dec f "title") as [->|Nt].
    { rewrite lookup_ensure_minimum_title, lookup_fold_set.
      destruct (in_dec string_dec "title" (allFieldNames documents));
        [now rewrite Hg | tauto]. }
    destruct (string_dec f "pubDate") as [->|Np].
    { rewrite lookup_ensure_minimum_pubDate, lookup_fold_set.
      destruct (in_dec string_dec "pubDate" (allFieldNames documents));
        [now rewrite Hg | tauto]. }
    rewrite lookup_ensure_minimum, lookup_fold_set by assumption.
    destruct (in_dec string_dec f (allFieldNames documents));
      [now rewrite Hg | tauto].
  - destruct (string_dec f "title") as [->|Nt].
    { rewrite !lookup_ensure_minimum_title, !lookup_fold_set.
      destruct (in_dec string_dec "title" (allFieldNames documents));
        [tauto | reflexivity]. }
    destruct (string_dec f "pubDate") as [->|Np].
    { rewrite !lookup_ensure_minimum_pubDate, !lookup_fold_set, !Hh.
      destruct (in_dec string_dec "pubDate" (allFieldNames documents));
        [tauto | reflexivity]. }
    rewrite !lookup_ensure_minimum, !lookup_fold_set by assumption.
    destruct (in_dec string_dec f (allFieldNames documents));
      [tauto | reflexivity].
Qed.

End GeneratedSchema.

Section GeneratedSchemaExample.
Import JS Quarto Schema.

Lemma custom_field_needs_occurrence_witness :
  lookup (shape (generateSchema [[("title", VStr "T")]]
                   {| listing_id := "posts"; listing_sort := None;
                      field_required := None |}
                   {| requiredFields := None;
                      customFields := Some [("level", ZNumber)] |})) "level"
  = lookup (shape (generateSchema [[("title", VStr "T")]]
                     {| listing_id := "posts"; listing_sort := None;
                        field_required := None |}
                     {| requiredFields := None; customFields := None |}))
      "level".
Proof.
  apply (proj2 (custom_field_needs_occurrence [[("title", VStr "T")]]
                  {| listing_id := "posts"; listing_sort := None;
                     field_required := None |}
                  None [("level", ZNumber)] "level" ZNumber
                  ltac:(discriminate) eq_refl)).
  intros [doc [[<-|[]] [E|[]]]]. discriminate.
Defined.

Lemma generated_schema_fields_witness :
  has (shape (generateSchema [[("date", VStr "2025-01-01")]]
                {| listing_id := "posts"; listing_sort := None;
                   field_required := None |}
                {| requiredFields := None; customFields := None |})) "pubDate"
  = false.
Proof.
  destruct (generated_schema_fields [[("date", VStr "2025-01-01")]]
              {| listing_id := "posts"; listing_sort := None;
                 field_required := None |}
              {| requiredFields := None; customFields := None |} "pubDate"
              ltac:(discriminate)) as [_ [H _]].
  destruct (has _ "pubDate"); [|reflexivity].
  destruct (H eq_refl) as [[doc [[<-|[]] [E|[]]]]|[E|[_ N]]];
    try discriminate.
  exfalso. apply N. exists [("date", VStr "2025-01-01")].
  split; now left.
Defined.

End GeneratedSchemaExample.

(** ** The file cache: hits, misses and eviction *)

Section CacheBehaviour.
Import JS Cache.
Context {T : Type}.
#[local] Abbreviation FileCacheT := (FileCache T).

(** [get] returns data only for a path it holds an entry for and whose
    file is still there with the modification time and size recorded when
    the entry was stored; and then it returns that entry's data. *)
Theorem cache_hit_iff_unchanged
  (c : FileCacheT) (fs : FileSystem) (path : string) (d : T) :
  fst (get c fs path) = Some d <->
  exists entry st,
    lookup (cache c) path = Some entry /\ data entry = d
    /\ stat fs path = Some st
    /\ mtimeMs st = mtime entry /\ stat_size st = size entry.
Proof.
  unfold get, get_resume.
  destruct (lookup (cache c) path) as [entry|] eqn:L; simpl.
  - destruct (stat fs path) as [st|] eqn:Hs; simpl.
    + destruct (Z.eqb_spec (mtimeMs st) (mtime entry)) as [E1|N1];
        destruct (Z.eqb_spec (stat_size st) (size entry)) as [E2|N2]; simpl;
        split;
        try discriminate;
        try (intros (e & s & He & _ & Hs' & H1 & H2);
             injection He as <-; injection Hs' as <-; contradiction).
      * intros E. injection E as <-. exists entry, st. tauto.
      * intros (e & s & He & Hd & _). injection He as <-. now subst d.
    + split; [discriminate|]. intros (e & s & _ & _ & Hs' & _). discriminate.
  - split; [discriminate|]. intros (e & s & He & _). discriminate.
Qed.

(** A [get] leaves every other path's entry alone; on a miss the path has
    no entry afterwards, on a hit its entry is kept and becomes the most
    recently used one. *)
Theorem cache_get_effect
  (c : FileCacheT) (fs : FileSystem) (path : string) :
  wf (cache c) ->
  (forall k, k <> path ->
             lookup (cache (snd (get c fs path))) k = lookup (cache c) k)
  /\ (fst (get c fs path) = None ->
      lookup (cache (snd (get c fs path))) path = None)
  /\ (fst (get c fs path) <> None ->
      lookup (cache (snd (get c fs path))) path = lookup (cache c) path
      /\ keys (cache (snd (get c fs path)))
         = keys (remove (cache c) path) ++ [path]).
Proof.
  intros W. unfold get, get_resume.
  destruct (lookup (cache c) path) as [entry|] eqn:L; simpl.
  - destruct (stat fs path) as [st|]; simpl.
    + destruct ((mtimeMs st =? mtime entry)%Z && (stat_size st =? size entry)%Z);
        simpl; repeat split.
      * intros k Hk.
        now rewrite lookup_set_other, lookup_remove_other by congruence.
      * discriminate.
      * now rewrite lookup_set_same.
      * rewrite keys_set. unfold has.
        now rewrite lookup_remove_same.
      * intros k Hk. now rewrite lookup_remove_other by congruence.
      * intros _. now apply lookup_remove_same.
      * congruence.
      * congruence.
    + repeat split; try congruence.
      * intros k Hk. now rewrite lookup_remove_other by congruence.
      * intros _. now apply lookup_remove_same.
  - repeat split; congruence.
Qed.

(** Storing into a full cache drops the oldest entry and no other, also
    when the stored path already has an entry, in which case the cache
    ends up one entry smaller. *)
Theorem full_cache_evicts_oldest
  (c : FileCacheT) (fs : FileSystem) (path oldest : string) (d : T) (st : Stats) :
  wf (cache c) ->
  stat fs path = Some st ->
  (maxSize c <= cache_size c)%Z ->
  first_key (cache c) = Some oldest ->
  oldest <> "" ->
  oldest <> path ->
  lookup (cache (set_entry c fs path d)) oldest = None
  /\ (forall k, k <> oldest -> k <> path ->
                lookup (cache (set_entry c fs path d)) k = lookup (cache c) k)
  /\ cache_size (set_entry c fs path d)
     = if has (cache c) path then (cache_size c - 1)%Z else cache_size c.
Proof.
  intros W Hs F K N0 Np. unfold set_entry, set_resume. rewrite Hs. simpl.
  assert (E : evict_oldest c = remove (cache c) oldest).
  { unfold evict_oldest, cache_size in *.
    destruct (Z.leb_spec (maxSize c) (Z.of_nat (length (cache c)))); [|lia].
    rewrite K. destruct (String.eqb_spec oldest ""); [contradiction|].
    reflexivity. }
  rewrite E. repeat split.
  - rewrite lookup_set_other by congruence. now apply lookup_remove_same.
  - intros k H1 H2.
    now rewrite lookup_set_other, lookup_remove_other by congruence.
  - unfold cache_size, with_cache. cbn [cache].
    rewrite length_set, length_remove.
    assert (Ho : has (cache c) oldest = true).
    { destruct (cache c) as [|[k0 v0] m]; [discriminate|].
      simpl in K. injection K as ->. unfold has. simpl.
      now rewrite String.eqb_refl. }
    rewrite Ho. unfold has. rewrite lookup_remove_other by exact Np.
    assert (Hl : 0 < length (cache c))
      by (destruct (cache c); [discriminate | simpl; lia]).
    destruct (lookup (cache c) path); lia.
Qed.

End CacheBehaviour.

Section CacheBehaviourExamples.
Import JS Cache.

Lemma cache_get_effect_witness :
  keys (cache (snd (get
                      {| cache := [("a.qmd", {| data := 1; mtime := 5; size := 9 |});
                                   ("b.qmd", {| data := 2; mtime := 5; size := 9 |})];
                         maxSize := 500 |}
                      (fun _ => Some {| mtimeMs := 5; stat_size := 9 |})
                      "a.qmd")))
  = ["b.qmd"; "a.qmd"].
Proof.
  refine (proj2 (proj2 (proj2 (cache_get_effect
            {| cache := [("a.qmd", {| data := 1; mtime := 5; size := 9 |});
                         ("b.qmd", {| data := 2; mtime := 5; size := 9 |})];
               maxSize := 500 |}
            (fun _ => Some {| mtimeMs := 5; stat_size := 9 |})
            "a.qmd" _)) _)).
  - repeat constructor; simpl; intuition discriminate.
  - discriminate.
Defined.

Lemma full_cache_evicts_oldest_witness :
  lookup (cache (set_entry
                   {| cache := [("a.qmd", {| data := 1; mtime := 5; size := 9 |});
                                ("b.qmd", {| data := 2; mtime := 5; size := 9 |})];
                      maxSize := 2 |}
                   (fun _ => Some {| mtimeMs := 6; stat_size := 9 |})
                   "b.qmd" 3)) "a.qmd" = None
  /\ cache_size (set_entry
                   {| cache := [("a.qmd", {| data := 1; mtime := 5; size := 9 |});
                                ("b.qmd", {| data := 2; mtime := 5; size := 9 |})];
                      maxSize := 2 |}
                   (fun _ => Some {| mtimeMs := 6; stat_size := 9 |})
                   "b.qmd" 3) = 1%Z.
Proof.
  destruct (full_cache_evicts_oldest
              {| cache := [("a.qmd", {| data := 1; mtime := 5; size := 9 |});
                           ("b.qmd", {| data := 2; mtime := 5; size := 9 |})];
                 maxSize := 2 |}
              (fun _ => Some {| mtimeMs := 6; stat_size := 9 |})
              "b.qmd" "a.qmd" 3 {| mtimeMs := 6; stat_size := 9 |})
    as (H1 & _ & H3).
  - repeat constructor; simpl; intuition discriminate.
  - reflexivity.
  - vm_compute. discriminate.
  - reflexivity.
  - discriminate.
  - discriminate.
  - split; [exact H1 | exact H3].
Defined.

End CacheBehaviourExamples.

(** ** Auto-rendering *)

Section AutoRendering.
Import JS Renderer.
Variable installed : value -> bool.
Variable exit_code : value -> list value -> Z.

(** A load renders exactly when [autoRender] is [true] or an options
    object whose [enabled] is truthy: an object that only gives a command
    or arguments renders nothing. *)
Theorem auto_render_runs_iff (autoRender : AutoRender) (h : heap) :
  fst (auto_render installed exit_code autoRender h) <> Skipped <->
  autoRender = AutoBool true
  \/ exists o, autoRender = AutoOptions o /\ truthy (enabled o) = true.
Proof.
  unfold auto_render, normalizeAutoRenderConfig, renderQuarto.
  destruct autoRender as [|[|]|o]; simpl.
  - split; [congruence|]. intros [E|[o [E _]]]; discriminate.
  - split; [now left|]. intros _.
    destruct (installed (or_else (VStr "quarto") (VStr "quarto")));
      simpl; discriminate.
  - split; [congruence|]. intros [E|[o [E _]]]; discriminate.
  - destruct (args o) as [l|]; simpl;
      destruct (truthy (enabled o)) eqn:T; simpl;
      (split; [intros N; try congruence; right; now exists o|]);
      try (intros [E|[o' [E T']]]; [discriminate|];
           injection E as <-; congruence);
      intros _;
      destruct (installed _); simpl; try discriminate;
      destruct (truthy (or_else (format o) (VStr "gfm"))); discriminate.
Qed.

Lemma read_push_same (h : heap) (l : loc) (items : list value) :
  l < length h -> read (push h l items) l = read h l ++ items.
Proof.
  unfold read. revert l.
  induction h as [|a h IH]; intros l Hl; simpl in Hl; [lia|].
  destruct l as [|l]; simpl; [reflexivity|]. apply IH. lia.
Qed.

Lemma length_push (h : heap) (l : loc) (items : list value) :
  length (push h l items) = length h.
Proof.
  revert l. induction h as [|a h IH]; intros l; [reflexivity|].
  destruct l; simpl; [reflexivity | now rewrite IH].
Qed.

Lemma truthy_or_else (a b : value) :
  truthy b = true -> truthy (or_else a b) = true.
Proof. unfold or_else. intros H. now destruct (truthy a) eqn:E. Qed.

Lemma or_else_idem (a b : value) : or_else (or_else a b) b = or_else a b.
Proof.
  unfold or_else. destruct (truthy a) eqn:E; [now rewrite E|].
  now destruct (truthy b).
Qed.

(** With an options object that carries its own [args] array, every load
    pushes [--to] and the format onto that same array: the [n+1]-th load
    spawns the command with the original arguments followed by [n+1]
    copies of the flag. *)
Theorem render_args_accumulate
  (o : QuartoRenderOptions) (l : loc) (h : heap) (n : nat) :
  args o = Some l ->
  l < length h ->
  truthy (enabled o) = true ->
  installed (or_else (command o) (VStr "quarto")) = true ->
  exists code,
    fst (auto_render installed exit_code (AutoOptions o)
           (after_loads installed exit_code n (AutoOptions o) h))
    = Spawned (or_else (command o) (VStr "quarto"))
        (read h l ++ format_flags (S n) (or_else (format o) (VStr "gfm")))
        code.
Proof.
  intros Ha Hl He Hi.
  set (fmt := or_else (format o) (VStr "gfm")).
  set (cmd := or_else (command o) (VStr "quarto")).
  assert (Hf : truthy fmt = true) by (apply truthy_or_else; reflexivity).
  assert (Hstep : forall h0,
             auto_render installed exit_code (AutoOptions o) h0
             = (Spawned cmd (read (push h0 l [VStr "--to"; fmt]) l)
                  (exit_code cmd (read (push h0 l [VStr "--to"; fmt]) l)),
                push h0 l [VStr "--to"; fmt])).
  { intros h0. unfold auto_render, normalizeAutoRenderConfig, renderQuarto.
    rewrite Ha. simpl. rewrite He. simpl.
    rewrite !or_else_idem, Hi. fold fmt. rewrite Hf. reflexivity. }
  assert (G : forall m h0,
             l < length h0 ->
             l < length (after_loads installed exit_code m (AutoOptions o) h0)
             /\ read (after_loads installed exit_code m (AutoOptions o) h0) l
                = read h0 l ++ format_flags m fmt).
  { induction m as [|m IH]; intros h0 H0; simpl.
    - split; [exact H0 | now rewrite app_nil_r].
    - rewrite Hstep. simpl.
      destruct (IH (push h0 l [VStr "--to"; fmt])) as [I1 I2];
        [now rewrite length_push|].
      split; [exact I1|].
      rewrite I2, read_push_same by exact H0.
      now rewrite <- app_assoc. }
  destruct (G n h Hl) as [G1 G2].
  rewrite Hstep. simpl. eexists.
  rewrite read_push_same by exact G1. rewrite G2.
  rewrite <- app_assoc.
  assert (Hc : forall m, format_flags m fmt ++ [VStr "--to"; fmt]
                         = VStr "--to" :: fmt :: format_flags m fmt).
  { induction m as [|m IH]; simpl; [reflexivity|]. now rewrite IH. }
  rewrite Hc. reflexivity.
Qed.

End AutoRendering.

Section AutoRenderingExample.
Import JS Renderer.

Lemma render_args_accumulate_witness :
  exists code,
    fst (auto_render (fun _ => true) (fun _ _ => 0%Z)
           (AutoOptions {| enabled := VBool true; command := VUndefined;
                           args := Some 0; format := VUndefined |})
           (after_loads (fun _ => true) (fun _ _ => 0%Z) 1
              (AutoOptions {| enabled := VBool true; command := VUndefined;
                              args := Some 0; format := VUndefined |})
              [[VStr "render"; VStr "--quiet"]]))
    = Spawned (VStr "quarto")
        [VStr "render"; VStr "--quiet"; VStr "--to"; VStr "gfm";
         VStr "--to"; VStr "gfm"]
        code.
Proof.
  apply (render_args_accumulate (fun _ => true) (fun _ _ => 0%Z)
           {| enabled := VBool true; command := VUndefined;
              args := Some 0; format := VUndefined |}
           0 [[VStr "render"; VStr "--quiet"]] 1).
  - reflexivity.
  - simpl. lia.
  - reflexivity.
  - reflexivity.
Defined.

End AutoRenderingExample.
